(** * torch_struct: the CKY inside algorithm, its span variant and the
      span/parts codec, embedded shallowly and checked against their
      specification.

    Tensors are total functions from indices to values; a slice assignment
    [t[..., lo:hi, ...] = v] is a pointwise override on the index range it
    names.  The batch axis is kept as the first index.  Python exceptions are
    values of [exn] carried by the [result] monad.

    Scores are floats in the source.  They are read here as exact extended
    reals ([lg]: a real number or minus infinity), so that [logsumexp] and
    [max] are exact; rounding is outside the model. *)

From Stdlib Require Import List Arith ZArith Lia Bool Reals Lra Permutation.
Import ListNotations.

Set Implicit Arguments.

(* ================================================================== *)
(** ** Python exceptions and indexing *)

Inductive exn : Type :=
| IndexError | RuntimeError | AssertionError | ValueError | TypeError | KeyError
| OutOfFuel.

Inductive result (A : Type) : Type :=
| Ok (a : A)
| Raise (e : exn).

Arguments Ok {A} a.
Arguments Raise {A} e.

Definition bind {A B : Type} (m : result A) (f : A -> result B) : result B :=
  match m with
  | Ok a => f a
  | Raise e => Raise e
  end.

Notation "x <- m ;; k" := (bind m (fun x => k))
  (at level 61, m at next level, right associativity).
Notation "m ;;; k" := (bind m (fun _ => k))
  (at level 61, right associativity).

(** [t[k]] on an axis of size [n]: a negative [k] counts from the end, and
    anything outside [-n, n) raises [IndexError]. *)
Definition py_index (n : nat) (k : Z) : result nat :=
  if ((0 <=? k) && (k <? Z.of_nat n))%Z then Ok (Z.to_nat k)
  else if ((- Z.of_nat n <=? k) && (k <? 0))%Z then Ok (Z.to_nat (Z.of_nat n + k))
  else Raise IndexError.

(** [range(lo, hi)]. *)
Definition range (lo hi : nat) : list nat := seq lo (hi - lo).

(** A [for] loop whose body yields a list (a generator body, or a list
    comprehension): the yields are concatenated in order and the first
    exception ends the loop. *)
Fixpoint for_ {A B : Type} (l : list A) (body : A -> result (list B))
  : result (list B) :=
  match l with
  | [] => Ok []
  | a :: l' =>
      r <- body a ;;
      rs <- for_ l' body ;;
      Ok (r ++ rs)
  end.

(** [for x in g: body] for a generator call [g]. *)
Definition for_gen {A B : Type} (g : result (list A))
  (body : A -> result (list B)) : result (list B) :=
  l <- g ;; for_ l body.

(* ================================================================== *)
(** ** The semiring interface

    [semirings.py] is not among the sources; the engine only uses the
    interface below.  For the semirings with [size() = 1] (Log and Max)
    [convert] and [unconvert] only add and remove a leading axis of
    length one, so they are the identity on values here. *)

Class Semiring (K : Type) : Type := {
  zero : K;
  one : K;
  oplus : K -> K -> K;      (* the binary case of [sum] *)
  times : K -> K -> K       (* the binary case of [times] *)
}.

Section SemiringOps.
Context {K : Type} {SR : Semiring K}.

(** [semiring.sum(xs, dim)]: reduction of the entries along one axis. *)
Definition semiring_sum (xs : list K) : K := fold_right oplus zero xs.

(** [semiring.times(a, b, c)]: the variadic product folds from the left. *)
Definition times3 (a b c : K) : K := times (times a b) c.

(** [semiring.dot(a, b)] = [sum(times(a, b))] over the last axis. *)
Definition semiring_dot (n : nat) (a b : nat -> K) : K :=
  semiring_sum (map (fun k => times (a k) (b k)) (seq 0 n)).

Definition convert (x : K) : K := x.
Definition unconvert (x : K) : K := x.

(** Modelled from the spec: [_Struct._make_chart] ([helpers.py] is not
    among the sources) allocates a fresh chart of the requested shape with
    every cell set to the semiring's [zero]. *)
Definition _make_chart {Ix : Type} : Ix -> K := fun _ => zero.
End SemiringOps.

(** The laws the correctness of the dynamic program rests on. *)
Class SemiringLaws (K : Type) (SR : Semiring K) : Prop := {
  oplus_comm : forall a b : K, oplus a b = oplus b a;
  oplus_assoc : forall a b c : K, oplus a (oplus b c) = oplus (oplus a b) c;
  oplus_zero_l : forall a : K, oplus zero a = a;
  times_zero_l : forall a : K, times zero a = zero;
  times_zero_r : forall a : K, times a zero = zero;
  times_oplus_l : forall a b c : K,
      times a (oplus b c) = oplus (times a b) (times a c);
  times_oplus_r : forall a b c : K,
      times (oplus a b) c = oplus (times a c) (times b c)
}.

(* ================================================================== *)
(** ** [cky.py]: the CKY engine *)

Module CKY.
Section Engine.
Context {K : Type} {SR : Semiring K}.

Definition tensor1 : Type := nat -> K.
Definition tensor2 : Type := nat -> nat -> K.
Definition tensor3 : Type := nat -> nat -> nat -> K.
Definition tensor4 : Type := nat -> nat -> nat -> nat -> K.
Definition tensor5 : Type := nat -> nat -> nat -> nat -> nat -> K.

(** [scores = (terms, rules, roots)] with the shapes [_dp] reads off them:
    [terms : batch x N x T], [rules : batch x NT x S x S] with
    [S = NT + T], [roots : batch x NT]. *)
Record potentials : Type := {
  batch : nat;
  N : nat;
  T : nat;
  NT : nat;
  terms : tensor3;
  rules : tensor4;
  roots : tensor2
}.

(** The retained tensors [term_use], [rule_use[w]] and [top] are the nodes
    [marginals] differentiates the total against.  A [tape] replaces the
    value of such a node at the point where the engine has produced it;
    the engine itself runs on [id_tape]. *)
Record tape : Type := {
  on_term_use : tensor3 -> tensor3;
  on_rule_use : nat -> tensor5 -> tensor5;
  on_top : tensor2 -> tensor2
}.

Definition id_tape : tape :=
  {| on_term_use := fun t => t;
     on_rule_use := fun _ t => t;
     on_top := fun t => t |}.

(** [beta = [beta[A], beta[B]]] and the list [rule_use], indexed by
    [w - 1]. *)
Record state : Type := {
  beta_A : tensor4;
  beta_B : tensor4;
  rule_use : nat -> tensor5
}.

Record dp_out : Type := {
  v : tensor1;             (* semiring.unconvert(log_Z) *)
  term_use_out : tensor3;
  rule_use_out : nat -> tensor5;
  top_out : tensor2;
  beta_out : state
}.

Definition in_slice (lo hi k : nat) : bool := (lo <=? k) && (k <? hi).

Section WithScores.
Variable sc : potentials.
Variable tp : tape.

Let S_ : nat := NT sc + T sc.

(** [rules.view(ssize, batch, 1, NT, S, S)[..., lo:, lo':]] *)
Definition X_Y_Z : tensor4 := fun b x y z => convert (rules sc b x y z).
Definition X_Y_Z1 : tensor4 :=
  fun b x y z => convert (rules sc b x y (NT sc + z)).
Definition X_Y1_Z : tensor4 :=
  fun b x y z => convert (rules sc b x (NT sc + y) z).
Definition X_Y1_Z1 : tensor4 :=
  fun b x y z => convert (rules sc b x (NT sc + y) (NT sc + z)).

(** [t[:, :, :, :, ylo:yhi, zlo:zhi] = val] *)
Definition set_block (ylo yhi zlo zhi : nat) (t val : tensor5) : tensor5 :=
  fun b i x y z =>
    if in_slice ylo yhi y && in_slice zlo zhi z
    then val b i x (y - ylo) (z - zlo)
    else t b i x y z.

(** Lines 42-60: the four blocks of [rule_use[w - 1]]. *)
Definition fill_rule_use (w : nat) (st : state) : tensor5 :=
  let n := N sc in
  let nt := NT sc in
  let ru := rule_use st (w - 1) in
  let Y := fun b i k y => beta_A st b i k y in
  let Z := fun b i k z => beta_B st b (i + w) (n - w + k) z in
  let ru :=
    set_block 0 nt 0 nt ru
      (fun b i x y z =>
         times
           (semiring_sum
              (map (fun k => times (Y b i k y) (Z b i k z)) (seq 0 w)))
           (X_Y_Z b x y z)) in
  let Y := fun b i y => beta_A st b i (w - 1) y in
  let Z := fun b i z => beta_B st b (i + w) (n - 1) (nt + z) in
  let ru :=
    set_block 0 nt nt S_ ru
      (fun b i x y z => times3 (Y b i y) (Z b i z) (X_Y_Z1 b x y z)) in
  let Y := fun b i y => beta_A st b i 0 (nt + y) in
  let Z := fun b i z => beta_B st b (i + w) (n - w) z in
  let ru :=
    set_block nt S_ 0 nt ru
      (fun b i x y z => times3 (Y b i y) (Z b i z) (X_Y1_Z b x y z)) in
  if w =? 1 then
    let Y := fun b i y => beta_A st b i (w - 1) (nt + y) in
    let Z := fun b i z => beta_B st b (i + w) (n - w) (nt + z) in
    set_block nt S_ nt S_ ru
      (fun b i x y z => times3 (Y b i y) (Z b i z) (X_Y1_Z1 b x y z))
  else ru.

(** Lines 62-63: [rulesmid = rule_use[w - 1].view(..., S * S)] and
    [span[w] = semiring.sum(rulesmid, dim=4)]. *)
Definition span_of (ru : tensor5) : tensor3 :=
  fun b i x =>
    semiring_sum
      (map (fun yz => ru b i x (yz / S_) (yz mod S_)) (seq 0 (S_ * S_))).

(** Lines 41-65: one pass of the loop body. *)
Definition step (st : state) (w : nat) : state :=
  let n := N sc in
  let nt := NT sc in
  let ru := on_rule_use tp (w - 1) (fill_rule_use w st) in
  let span_w := span_of ru in
  let bA : tensor4 :=
    fun b i k s =>
      if in_slice 0 (n - w) i && (k =? w) && in_slice 0 nt s
      then span_w b i s
      else beta_A st b i k s in
  let bB : tensor4 :=
    fun b j k s =>
      if in_slice w n j && (k =? n - w - 1) && in_slice 0 nt s
      then bA b (j - w) w s
      else beta_B st b j k s in
  {| beta_A := bA;
     beta_B := bB;
     rule_use := fun w' => if w' =? w - 1 then ru else rule_use st w' |}.

(** Lines 24-34: the fresh charts and the width-0 cells. *)
Definition init (term_use : tensor3) : state :=
  let n := N sc in
  let nt := NT sc in
  {| beta_A :=
       fun b i k s =>
         if (k =? 0) && in_slice nt S_ s then term_use b i (s - nt)
         else _make_chart (b, i, k, s);
     beta_B :=
       fun b i k s =>
         if (k =? n - 1) && in_slice nt S_ s then term_use b i (s - nt)
         else _make_chart (b, i, k, s);
     rule_use := fun w b i x y z => _make_chart (w, b, i, x, y, z) |}.

(** [for w in range(1, N)] *)
Definition loop (st : state) : state :=
  fold_left step (range 1 (N sc)) st.

(** Lines 67-69: one row [beta[A][:, i, 0, l - 1, :NT]] per entry of
    [lengths], stacked and written into [top]. *)
Definition top_rows (bA : tensor4) (lengths : list Z)
  : result (list tensor1) :=
  for_ (combine (seq 0 (length lengths)) lengths)
    (fun il =>
       let '(i, l) := il in
       (if i <? batch sc then Ok tt else Raise IndexError) ;;;
       py_index (N sc) 0 ;;;
       j <- py_index (N sc) (l - 1) ;;
       Ok [fun x => bA i 0 j x]).

Definition stack_top (rows : list tensor1) : result tensor2 :=
  match rows with
  | [] => Raise RuntimeError
  | r0 :: _ =>
      if length rows =? batch sc then Ok (fun b => nth b rows r0)
      else if length rows =? 1 then Ok (fun _ => r0)
      else Raise RuntimeError
  end.

Definition _dp_on (lengths : option (list Z)) : result dp_out :=
  let n := N sc in
  let lengths :=
    match lengths with
    | None => repeat (Z.of_nat n) (batch sc)
    | Some ls => ls
    end in
  (* term_use[:] = terms + 0.0 *)
  let term_use := on_term_use tp (fun b i t => convert (terms sc b i t)) in
  (* beta[B][:, :, :, N - 1, NT:] needs the index N - 1 to exist *)
  py_index n (Z.of_nat n - 1) ;;;
  let st := loop (init term_use) in
  rows <- top_rows (beta_A st) lengths ;;
  top0 <- stack_top rows ;;
  let top := on_top tp top0 in
  let log_Z : tensor1 :=
    fun b =>
      semiring_dot (NT sc) (top b) (fun x => convert (roots sc b x)) in
  Ok {| v := fun b => unconvert (log_Z b);
        term_use_out := term_use;
        rule_use_out := rule_use st;
        top_out := top;
        beta_out := st |}.

(** *** The chart as a function of the potentials alone

    [fill_blocks] is [fill_rule_use] with the two views of the chart
    passed in: [L b i k y] is the cell of width index [k] starting at
    [i], [R b i k z] the cell that completes it to width index [w].
    [inside w] holds every cell of width index at most [w], and does not
    mention [N]. *)
Definition fill_blocks (w : nat) (ru : tensor5) (L R : tensor4) : tensor5 :=
  let nt := NT sc in
  let ru :=
    set_block 0 nt 0 nt ru
      (fun b i x y z =>
         times
           (semiring_sum
              (map (fun k => times (L b i k y) (R b i k z)) (seq 0 w)))
           (X_Y_Z b x y z)) in
  let ru :=
    set_block 0 nt nt S_ ru
      (fun b i x y z =>
         times3 (L b i (w - 1) y) (R b i (w - 1) (nt + z)) (X_Y_Z1 b x y z)) in
  let ru :=
    set_block nt S_ 0 nt ru
      (fun b i x y z =>
         times3 (L b i 0 (nt + y)) (R b i 0 z) (X_Y1_Z b x y z)) in
  if w =? 1 then
    set_block nt S_ nt S_ ru
      (fun b i x y z =>
         times3 (L b i (w - 1) (nt + y)) (R b i 0 (nt + z))
           (X_Y1_Z1 b x y z))
  else ru.

Fixpoint inside (w : nat) : tensor4 :=
  match w with
  | O =>
      fun b i k s =>
        if (k =? 0) && in_slice (NT sc) S_ s
        then convert (terms sc b i (s - NT sc))
        else zero
  | S w' =>
      let prev := inside w' in
      fun b i k s =>
        if (k =? S w') && in_slice 0 (NT sc) s
        then span_of
               (fill_blocks (S w') (fun _ _ _ _ _ => zero) prev
                  (fun b i k z => prev b (i + k + 1) (w' - k) z))
               b i s
        else prev b i k s
  end.
End WithScores.

(** [CKY._dp(scores, lengths)].  [force_grad] only asks [_make_chart] to
    track gradients and changes no value. *)
Definition _dp (sc : potentials) (lengths : option (list Z))
  : result dp_out :=
  _dp_on sc id_tape lengths.

(** *** [CKY.enumerate]: brute-force enumeration of the derivations *)

Inductive part : Type :=
| Leaf (start : nat) (t : Z)
| Rule (x start w end_ : nat).

(** The inner generator [enumerate(x, start, end)].  Its recursion is on
    [end - start]; [fuel] bounds the depth. *)
Fixpoint enumerate_gen (sc : potentials) (fuel : nat) (x start end_ : nat)
  : result (list (tensor1 * list part)) :=
  match fuel with
  | O => Raise OutOfFuel
  | S fuel' =>
      let nt := NT sc in
      if start + 1 =? end_ then
        i <- py_index (N sc) (Z.of_nat start) ;;
        t <- py_index (T sc) (Z.of_nat x - Z.of_nat nt) ;;
        Ok [(fun b => terms sc b i t,
             [Leaf start (Z.of_nat x - Z.of_nat nt)])]
      else
        for_ (range (start + 1) end_) (fun w =>
          for_ (if negb (w =? start + 1) then range 0 nt
                else range nt (nt + T sc)) (fun y =>
            for_ (if negb (w =? end_ - 1) then range 0 nt
                  else range nt (nt + T sc)) (fun z =>
              for_gen (enumerate_gen sc fuel' y start w) (fun my =>
                for_gen (enumerate_gen sc fuel' z w end_) (fun mz =>
                  let '(m1, y1) := my in
                  let '(m2, z1) := mz in
                  Ok [(fun b => times (times (m1 b) (m2 b)) (rules sc b x y z),
                       Rule x start w end_ :: y1 ++ z1)])))))
  end.

(** The list [ls] of root-weighted scores, one per derivation. *)
Definition enumerate_scores (sc : potentials) : result (list tensor1) :=
  for_ (range 0 (NT sc)) (fun nt =>
    l <- enumerate_gen sc (S (N sc)) nt 0 (N sc) ;;
    Ok (map (fun sp : tensor1 * list part =>
               let '(s, _) := sp in
               fun b => times (s b) (roots sc b nt)) l)).

(** [torch.stack(ls, dim=-1)] refuses an empty list. *)
Definition stack_sum (ls : list tensor1) : result tensor1 :=
  match ls with
  | [] => Raise RuntimeError
  | _ => Ok (fun b => semiring_sum (map (fun s : tensor1 => s b) ls))
  end.

Definition enumerate (sc : potentials) : result tensor1 :=
  ls <- enumerate_scores sc ;; stack_sum ls.

End Engine.

(** *** [CKY.to_parts] and [CKY.from_parts]: the structure codec

  Dense labels and parts are integer-valued tensors that carry their
  shape; an index is the list of its coordinates. *)

Record tensor : Type := {
shape : list nat;
data : list nat -> Z
}.

(** [torch.zeros] of a shape *)
Definition zeros (sh : list nat) : tensor :=
{| shape := sh; data := fun _ => 0%Z |}.

(** [spans[b].nonzero()]: the indices [(i, j, A)] of the entries that are
  not [0], in row-major order. *)
Definition nonzero (n1 n2 n3 : nat) (f : nat -> nat -> nat -> Z)
: list (nat * nat * nat) :=
flat_map (fun i =>
  flat_map (fun j =>
    flat_map (fun a => if (f i j a =? 0)%Z then [] else [(i, j, a)])
      (seq 0 n3))
    (seq 0 n2))
  (seq 0 n1).

(** An entry [(label, other end, width)] of [left[i]] or [right[j]]. *)
Definition entry : Type := (nat * nat * Z)%type.

(** [d[k].append(e)] *)
Definition append_at (d : nat -> list entry) (k : nat) (e : entry)
: nat -> list entry :=
fun k' => if k' =? k then d k' ++ [e] else d k'.

(** Lines 133-138: [left] and [right] have the keys [range(N)]. *)
Definition left_right (n : nat) (cover : list (nat * nat * nat))
: result ((nat -> list entry) * (nat -> list entry)) :=
fold_left
  (fun acc ija =>
     lr <- acc ;;
     let '(left_, right_) := lr in
     let '(i, j, a) := ija in
     let width := (Z.of_nat j - Z.of_nat i + 1)%Z in
     if (i <? n) && (j <? n)
     then Ok (append_at left_ i (a, j, width), append_at right_ j (a, i, width))
     else Raise KeyError)
  cover (Ok (fun _ => [], fun _ => [])).

(** Lines 143-146: the inner loop stops at the first [right[j]] entry that
  fits. *)
Definition inner_match (k : nat) (a_span width : Z) (rs : list entry)
: option nat :=
match
  find (fun e : entry =>
          let '(_, k_2, b_span) := e in
          (k_2 =? k + 1) && (a_span + b_span =? width)%Z) rs
with
| Some (c_p, _, _) => Some c_p
| None => None
end.

(** Lines 141-146: [B, C] after both loops; the outer loop runs to its end,
  so the last [left[i]] entry with a fitting partner wins. *)
Definition find_split (ls rs : list entry) (width : Z) : option (nat * nat) :=
fold_left
  (fun bc (e : entry) =>
     let '(b_p, k, a_span) := e in
     match inner_match k a_span width rs with
     | Some c_p => Some (b_p, c_p)
     | None => bc
     end)
  ls None.

(** [rules[b, A, B, C] += 1] on a tensor of shape [batch x NT x S x S]. *)
Definition count_rule (nt : nat) (rules : tensor) (b a y z : nat)
: result tensor :=
if a <? nt then
  Ok {| shape := shape rules;
        data := fun ix =>
          match ix with
          | [b'; a'; y'; z'] =>
              if (b' =? b) && (a' =? a) && (y' =? y) && (z' =? z)
              then (data rules ix + 1)%Z else data rules ix
          | _ => data rules ix
          end |}
else Raise IndexError.

(** Lines 139-149. *)
Definition count_rules (nt : nat) (left_ right_ : nat -> list entry) (b : nat)
(cover : list (nat * nat * nat)) (rules : tensor) : result tensor :=
fold_left
  (fun acc ija =>
     rules <- acc ;;
     let '(i, j, a) := ija in
     let bc :=
       find_split (left_ i) (right_ j) (Z.of_nat j - Z.of_nat i + 1) in
     if i <? j then
       match bc with
       | None => Raise AssertionError
       | Some (y, z) => count_rule nt rules b a y z
       end
     else Ok rules)
  cover (Ok rules).

(** Lines 128-149: the body of [for b in range(batch)]. *)
Definition to_parts_batch (spans : tensor) (nt t n1 n : nat)
(lengths : option (list Z)) (acc : tensor * tensor * tensor) (b : nat)
: result (tensor * tensor * tensor) :=
let '(terms, rules, roots) := acc in
ls <- match lengths with
      | None => Raise TypeError
      | Some ls => Ok ls
      end ;;
len <- match nth_error ls b with
       | None => Raise IndexError
       | Some l => Ok l
       end ;;
(* roots[b, :] = spans[b, 0, lengths[b] - 1, :NT] *)
py_index n1 0 ;;;
jr <- py_index n (len - 1) ;;
let roots :=
  {| shape := shape roots;
     data := fun ix =>
       match ix with
       | [b'; a] =>
           if (b' =? b) && (a <? nt) then data spans [b; 0; jr; a]
           else data roots ix
       | _ => data roots ix
       end |} in
(* terms[b, :lengths[b]] = spans[b, arange(len), arange(len), NT:] *)
(if (len <? 0)%Z then Raise RuntimeError else Ok tt) ;;;
(if (Z.to_nat len <=? n1) && (Z.to_nat len <=? n) then Ok tt
 else Raise IndexError) ;;;
let terms :=
  {| shape := shape terms;
     data := fun ix =>
       match ix with
       | [b'; i; t'] =>
           if (b' =? b) && (i <? Z.to_nat len) && (t' <? t)
           then data spans [b; i; i; nt + t']
           else data terms ix
       | _ => data terms ix
       end |} in
let cover := nonzero n1 n (nt + t) (fun i j a => data spans [b; i; j; a]) in
lr <- left_right n cover ;;
let '(left_, right_) := lr in
rules <- count_rules nt left_ right_ b cover rules ;;
Ok (terms, rules, roots).

(** [CKY.to_parts(spans, extra, lengths)]; [batch, N, N, S = spans.shape]
  binds [N] to the third axis. *)
Definition to_parts (spans : tensor) (extra : nat * nat)
(lengths : option (list Z)) : result (tensor * tensor * tensor) :=
let '(nt, t) := extra in
match shape spans with
| [batch; n1; n; s] =>
    (if s =? nt + t then Ok tt else Raise AssertionError) ;;;
    fold_left
      (fun acc b => a <- acc ;; to_parts_batch spans nt t n1 n lengths a b)
      (range 0 batch)
      (Ok (zeros [batch; n; t], zeros [batch; nt; s; s], zeros [batch; nt]))
| _ => Raise ValueError
end.

(** [rules.sum(dim=-1).sum(dim=-1)] *)
Definition sum_last_two (s1 s : nat) (rules : tensor) (b n i a : nat) : Z :=
fold_right Z.add 0%Z
  (map (fun y =>
          fold_right Z.add 0%Z
            (map (fun z => data rules [b; n; i; a; y; z]) (seq 0 s)))
     (seq 0 s1)).

(** [CKY.from_parts(chart)]; [batch, N, N, NT, S, S = rules.shape] needs six
  axes.  Shapes that only fit after broadcasting are rejected here. *)
Definition from_parts (chart : tensor * tensor * tensor)
: result (tensor * (nat * nat)) :=
let '(terms, rules, roots) := chart in
match shape rules with
| [batch; n1; n; nt; s1; s] =>
    match shape terms with
    | _ :: tn :: _ =>
        (if tn =? n then Ok tt else Raise AssertionError) ;;;
        let rules2 := sum_last_two s1 s rules in
        (* rules[:, n', ...] for n' in range(N) on an axis of size n1 *)
        (if n <=? n1 then Ok tt else Raise IndexError) ;;;
        (if nt <=? s then Ok tt else Raise RuntimeError) ;;;
        (if list_eq_dec Nat.eq_dec (shape terms) [batch; n; s - nt]
         then Ok tt else Raise RuntimeError) ;;;
        let spans :=
          fold_left
            (fun (sp : list nat -> Z) n' =>
               fun ix =>
                 match ix with
                 | [b; i; j; a] =>
                     if (i <? n - n' - 1) && (j =? i + n' + 1) && (a <? nt)
                     then rules2 b n' i a
                     else sp ix
                 | _ => sp ix
                 end)
            (range 0 n) (fun _ => 0%Z) in
        let spans :=
          fun ix =>
            match ix with
            | [b; i; j; a] =>
                if (i <? n) && (j =? i) && (nt <=? a) && (a <? s)
                then data terms [b; i; a - nt]
                else spans ix
            | _ => spans ix
            end in
        Ok ({| shape := [batch; n; n; s]; data := spans |}, (nt, s - nt))
    | _ => Raise IndexError
    end
| _ => Raise ValueError
end.

(** *** Binary trees and their encodings *)

Inductive tree : Type :=
| TLeaf (t : nat)
| TNode (a : nat) (l r : tree).

Fixpoint leaves (tr : tree) : nat :=
match tr with
| TLeaf _ => 1
| TNode _ l r => leaves l + leaves r
end.

(** The state of the root of a tree, in the combined index. *)
Definition label (nt : nat) (tr : tree) : nat :=
match tr with
| TLeaf t => nt + t
| TNode a _ _ => a
end.

Fixpoint well_formed (nt t : nat) (tr : tree) : Prop :=
match tr with
| TLeaf x => x < t
| TNode a l r => a < nt /\ well_formed nt t l /\ well_formed nt t r
end.

(** The labelled spans [(i, j, A)] of a tree whose first leaf is at
  [start]; [j] is the last leaf of the span. *)
Fixpoint spans_of (nt start : nat) (tr : tree) : list (nat * nat * nat) :=
match tr with
| TLeaf t => [(start, start, nt + t)]
| TNode a l r =>
    (start, start + leaves tr - 1, a)
      :: spans_of nt start l ++ spans_of nt (start + leaves l) r
end.

(** The rule applications [(width index, start, A, B, C)] of a tree. *)
Fixpoint rules_of (nt start : nat) (tr : tree)
: list (nat * nat * nat * nat * nat) :=
match tr with
| TLeaf _ => []
| TNode a l r =>
    (leaves tr - 2, start, a, label nt l, label nt r)
      :: rules_of nt start l ++ rules_of nt (start + leaves l) r
end.

Definition triple_eqb (x y : nat * nat * nat) : bool :=
let '(a, b, c) := x in
let '(a', b', c') := y in
(a =? a') && (b =? b') && (c =? c').

Definition rule_eqb (w i a y z : nat) (r : nat * nat * nat * nat * nat) : bool :=
let '(w', i', a', y', z') := r in
(w =? w') && (i =? i') && (a =? a') && (y =? y') && (z =? z').

Definition indicator (b : bool) : Z := if b then 1%Z else 0%Z.

(** The dense labelling of one tree, padded to [n] positions. *)
Definition dense_labels (nt t n : nat) (tr : tree) : tensor :=
{| shape := [1; n; n; nt + t];
   data := fun ix =>
     match ix with
     | [_; i; j; a] =>
         indicator (existsb (triple_eqb (i, j, a)) (spans_of nt 0 tr))
     | _ => 0%Z
     end |}.

(** The position-indexed parts of one tree, padded to [n] positions: the
  shape [CKY.marginals] returns and [from_parts] reads. *)
Definition tree_parts (nt t n : nat) (tr : tree) : tensor * tensor * tensor :=
({| shape := [1; n; t];
    data := fun ix =>
      match ix with
      | [_; i; x] =>
          indicator (existsb (triple_eqb (i, i, nt + x)) (spans_of nt 0 tr))
      | _ => 0%Z
      end |},
 {| shape := [1; n; n; nt; nt + t; nt + t];
    data := fun ix =>
      match ix with
      | [_; w; i; a; y; z] =>
          indicator (existsb (rule_eqb w i a y z) (rules_of nt 0 tr))
      | _ => 0%Z
      end |},
 {| shape := [1; nt];
    data := fun ix =>
      match ix with
      | [_; a] => indicator (a =? label nt tr)
      | _ => 0%Z
      end |}).

(** Two tensors with the same shape and the same entries. *)
Definition tensor_eq (x y : tensor) : Prop :=
shape x = shape y /\ forall ix, data x ix = data y ix.

(** *** [score]: the score of a structure

  The potentials are real-valued here; the parts are the integer tensors
  of the codec, cast to the type of the potentials. *)

Definition rsum (l : list R) : R := fold_right Rplus 0%R l.

(** [m_rule.sum(dim=1).sum(dim=1)] *)
Definition sum_positions (n1 n2 : nat) (m_rule : tensor) (b a y z : nat) : Z :=
fold_right Z.add 0%Z
  (map (fun w =>
          fold_right Z.add 0%Z
            (map (fun i => data m_rule [b; w; i; a; y; z]) (seq 0 n2)))
     (seq 0 n1)).

(** [score(potentials, parts)].  Each [mul] is taken between tensors of
  the same shape; shapes that only fit after broadcasting are rejected
  here. *)
Definition score (sc : potentials (K := R)) (parts : tensor * tensor * tensor)
: result (nat -> R) :=
let '(m_term, m_rule, m_root) := parts in
let s := NT sc + T sc in
match shape m_term with
| [] => Raise IndexError
| _ :: _ =>
    (if list_eq_dec Nat.eq_dec (shape m_term) [batch sc; N sc; T sc]
     then Ok tt else Raise RuntimeError) ;;;
    match shape m_rule with
    | [] | [_] | [_; _] => Raise IndexError
    | [b'; n1; n2; nt; s1; s2] =>
        (if list_eq_dec Nat.eq_dec [b'; nt; s1; s2] [batch sc; NT sc; s; s]
         then Ok tt else Raise RuntimeError) ;;;
        (if list_eq_dec Nat.eq_dec (shape m_root) [batch sc; NT sc]
         then Ok tt else Raise RuntimeError) ;;;
        Ok (fun b =>
              (rsum
                 (map (fun i =>
                         rsum
                           (map (fun x =>
                                   IZR (data m_term [b; i; x])
                                   * terms sc b i x)
                              (seq 0 (T sc))))
                    (seq 0 (N sc)))
               + rsum
                   (map (fun a =>
                           rsum
                             (map (fun y =>
                                     rsum
                                       (map (fun z =>
                                               IZR (sum_positions n1 n2 m_rule
                                                      b a y z)
                                               * rules sc b a y z)
                                          (seq 0 s)))
                                (seq 0 s)))
                      (seq 0 (NT sc)))
               + rsum
                   (map (fun a => IZR (data m_root [b; a]) * roots sc b a)
                      (seq 0 (NT sc))))%R)
    | _ => Raise RuntimeError
    end
end.

(** *** [_intermediary]: the split of every span *)

(** All the indices of a tensor of shape [sh], in row-major order. *)
Fixpoint indices (sh : list nat) : list (list nat) :=
match sh with
| [] => [[]]
| n :: sh' => flat_map (fun i => map (cons i) (indices sh')) (seq 0 n)
end.

(** [spans.nonzero()]: one row per entry that is not [0]. *)
Definition nonzero_rows (t : tensor) : list (list nat) :=
filter (fun ix => negb (data t ix =? 0)%Z) (indices (shape t)).

(** [b, i, j, A = cover[k].tolist()] *)
Definition unpack4 (row : list nat) : result (nat * nat * nat * nat) :=
match row with
| [b; i; j; a] => Ok (b, i, j, a)
| _ => Raise ValueError
end.

(** The dictionaries [left] and [right], keyed by [(b, i)]; they are only
  read with [get(key, [])], so a missing key is the empty list. *)
Definition pair_dict : Type := nat -> nat -> list entry.

(** [d.setdefault((b, i), []); d[b, i].append(e)] *)
Definition append_key (d : pair_dict) (b i : nat) (e : entry) : pair_dict :=
fun b' i' => if (b' =? b) && (i' =? i) then d b' i' ++ [e] else d b' i'.

(** Lines 173-178. *)
Definition intermediary_left_right (cover : list (list nat))
: result (pair_dict * pair_dict) :=
fold_left
  (fun acc row =>
     lr <- acc ;;
     let '(left_, right_) := lr in
     r <- unpack4 row ;;
     let '(b, i, j, a) := r in
     let width := (Z.of_nat j - Z.of_nat i + 1)%Z in
     Ok (append_key left_ b i (a, j, width),
         append_key right_ b j (a, i, width)))
  cover (Ok (fun _ _ => [], fun _ _ => [])).

(** Lines 187-197: the first [left] entry, not beyond [j], that has a
  fitting [right] entry, with the first such [right] entry. *)
Fixpoint first_split (j : nat) (width : Z) (ls rs : list entry)
: option (nat * nat * nat) :=
match ls with
| [] => None
| (b_p, k, a_span) :: ls' =>
    if j <? k then first_split j width ls' rs
    else
      match
        find (fun e : entry =>
                let '(_, k_2, b_span) := e in
                (k_2 =? k + 1) && (a_span + b_span =? width)%Z) rs
      with
      | Some (c_p, _, _) => Some (k, b_p, c_p)
      | None => first_split j width ls' rs
      end
end.

(** The dictionary [splits], in insertion order. *)
Definition splits_dict : Type := list ((nat * nat * nat) * (nat * nat * nat)).

Definition dict_get (d : splits_dict) (key : nat * nat * nat)
: option (nat * nat * nat) :=
match find (fun kv => triple_eqb (fst kv) key) d with
| Some (_, v) => Some v
| None => None
end.

(** [d[key] = v] *)
Fixpoint dict_set (d : splits_dict) (key v : nat * nat * nat) : splits_dict :=
match d with
| [] => [(key, v)]
| (key', v') :: d' =>
    if triple_eqb key' key then (key', v) :: d'
    else (key', v') :: dict_set d' key v
end.

(** [_intermediary(spans)] *)
Definition _intermediary (spans : tensor) : result splits_dict :=
(* batch, N = spans.shape[:2] *)
match shape spans with
| [] | [_] => Raise ValueError
| _ => Ok tt
end ;;;
let cover := nonzero_rows spans in
lr <- intermediary_left_right cover ;;
let '(left_, right_) := lr in
fold_left
  (fun acc row =>
     splits <- acc ;;
     r <- unpack4 row ;;
     let '(b, i, j, a) := r in
     if i =? j then Ok splits
     else
       match
         first_split j (Z.of_nat j - Z.of_nat i + 1) (left_ b i) (right_ b j)
       with
       | None => Raise AssertionError
       | Some kbc => Ok (dict_set splits (b, i, j) kbc)
       end)
  cover (Ok []).

End CKY.

(* ================================================================== *)
(** ** [cky_crf.py]: the 0th-order span parser *)

Module CKY_CRF.
Section Engine.
Context {K : Type} {SR : Semiring K}.

Definition tensor1 : Type := nat -> K.
Definition tensor2 : Type := nat -> nat -> K.
Definition tensor3 : Type := nat -> nat -> nat -> K.
Definition tensor4 : Type := nat -> nat -> nat -> nat -> K.

(** [scores : batch x N x N x NT]. *)
Record potentials : Type := {
  batch : nat;
  N : nat;
  NT : nat;
  scores : tensor4
}.

Record state : Type := {
  beta_A : tensor3;
  beta_B : tensor3
}.

Record dp_out : Type := {
  log_Z : tensor1;
  beta_out : state
}.

Definition in_slice (lo hi k : nat) : bool := (lo <=? k) && (k <? hi).

Section WithScores.
Variable sc : potentials.

(** [reduced_scores = semiring.sum(scores)], over the label axis. *)
Definition reduced_scores : tensor3 :=
  fun b i j =>
    semiring_sum (map (fun x => convert (scores sc b i j x)) (seq 0 (NT sc))).

(** [reduced_scores.diagonal(w, 2, 3)] *)
Definition diagonal (w : nat) : tensor2 :=
  fun b i => reduced_scores b i (i + w).

(** Lines 15-22. *)
Definition init : state :=
  let n := N sc in
  let rule_use := diagonal 0 in
  {| beta_A :=
       fun b i k =>
         if in_slice 0 n i && (k =? 0) then rule_use b i
         else _make_chart (b, i, k);
     beta_B :=
       fun b i k =>
         if in_slice 0 n i && (k =? n - 1) then rule_use b i
         else _make_chart (b, i, k) |}.

(** Lines 26-30. *)
Definition step (st : state) (w : nat) : state :=
  let n := N sc in
  let Y := fun b i k => beta_A st b i k in
  let Z := fun b i k => beta_B st b (i + w) (n - w + k) in
  let score := diagonal w in
  let bA : tensor3 :=
    fun b i k =>
      if in_slice 0 (n - w) i && (k =? w)
      then times (semiring_dot w (Y b i) (Z b i)) (score b i)
      else beta_A st b i k in
  let bB : tensor3 :=
    fun b j k =>
      if in_slice w n j && (k =? n - w - 1) then bA b (j - w) w
      else beta_B st b j k in
  {| beta_A := bA; beta_B := bB |}.

Definition loop (st : state) : state :=
  fold_left step (range 1 (N sc)) st.

(** [final[:, torch.arange(batch), lengths - 1]]: the two index tensors
    are broadcast against each other. *)
Definition gather (final : tensor2) (lengths : list Z) : result tensor1 :=
  idx <- for_ lengths (fun l => j <- py_index (N sc) (l - 1) ;; Ok [j]) ;;
  if length lengths =? batch sc then Ok (fun b => final b (nth b idx 0))
  else if length lengths =? 1 then Ok (fun b => final b (nth 0 idx 0))
  else if batch sc =? 1 then Ok (fun j => final 0 (nth j idx 0))
  else Raise IndexError.

Definition _dp (lengths : option (list Z)) : result dp_out :=
  let n := N sc in
  let lengths :=
    match lengths with
    | None => repeat (Z.of_nat n) (batch sc)
    | Some ls => ls
    end in
  (* beta[B][:, :, ns, N - 1] needs the index N - 1 to exist *)
  py_index n (Z.of_nat n - 1) ;;;
  let st := loop init in
  let final : tensor2 := fun b k => beta_A st b 0 k in
  lz <- gather final lengths ;;
  Ok {| log_Z := lz; beta_out := st |}.

(** The chart as a function of the scores alone: [inside w] holds every
    cell of width index at most [w]. *)
Fixpoint inside (w : nat) : tensor3 :=
  match w with
  | O => fun b i k => if k =? 0 then diagonal 0 b i else zero
  | S w' =>
      let prev := inside w' in
      fun b i k =>
        if k =? S w'
        then times
               (semiring_dot (S w') (prev b i)
                  (fun k' => prev b (i + k' + 1) (w' - k')))
               (diagonal (S w') b i)
        else prev b i k
  end.

(** *** [CKY_CRF.enumerate] *)

Inductive part : Type :=
| Leaf (start x : nat)
| Rule (x start w end_ : nat).

Fixpoint enumerate_gen (fuel : nat) (x start end_ : nat)
  : result (list (tensor1 * list part)) :=
  match fuel with
  | O => Raise OutOfFuel
  | S fuel' =>
      if start + 1 =? end_ then
        i <- py_index (N sc) (Z.of_nat start) ;;
        a <- py_index (NT sc) (Z.of_nat x) ;;
        Ok [(fun b => scores sc b i i a, [Leaf start x])]
      else
        for_ (range (start + 1) end_) (fun w =>
          for_ (range 0 (NT sc)) (fun y =>
            for_ (range 0 (NT sc)) (fun z =>
              for_gen (enumerate_gen fuel' y start w) (fun my =>
                for_gen (enumerate_gen fuel' z w end_) (fun mz =>
                  let '(m1, y1) := my in
                  let '(m2, z1) := mz in
                  Ok [(fun b =>
                         times3 (m1 b) (m2 b)
                           (scores sc b start (end_ - 1) x),
                       Rule x start w end_ :: y1 ++ z1)])))))
  end.

Definition enumerate_scores : result (list tensor1) :=
  for_ (range 0 (NT sc)) (fun nt =>
    l <- enumerate_gen (S (N sc)) nt 0 (N sc) ;;
    Ok (map (fun sp : tensor1 * list part => let '(s, _) := sp in s) l)).

Definition stack_sum (ls : list tensor1) : result tensor1 :=
  match ls with
  | [] => Raise RuntimeError
  | _ => Ok (fun b => semiring_sum (map (fun s : tensor1 => s b) ls))
  end.

Definition enumerate : result tensor1 :=
  ls <- enumerate_scores ;; stack_sum ls.
End WithScores.
End Engine.
End CKY_CRF.

(* ================================================================== *)
(** ** Scores and the Log and Max semirings

    Modelled from the spec: [semirings.py] is not among the sources.  Log
    has [sum] = log-sum-exp and [times] = addition, Max has [sum] = max and
    [times] = addition; [zero] is the identity of [sum] (minus infinity)
    and [one] the identity of [times]. *)

Inductive lg : Type :=
| NegInf
| Fin (r : R).

(** Addition of two scores. *)
Definition lg_add (a b : lg) : lg :=
  match a, b with
  | Fin x, Fin y => Fin (x + y)
  | _, _ => NegInf
  end.

(** [log(exp a + exp b)] *)
Definition logaddexp (a b : lg) : lg :=
  match a, b with
  | NegInf, _ => b
  | _, NegInf => a
  | Fin x, Fin y => Fin (ln (exp x + exp y))
  end.

Definition lg_max (a b : lg) : lg :=
  match a, b with
  | NegInf, _ => b
  | _, NegInf => a
  | Fin x, Fin y => Fin (Rmax x y)
  end.

Definition LogSemiring : Semiring lg :=
  {| zero := NegInf; one := Fin 0; oplus := logaddexp; times := lg_add |}.

Definition MaxSemiring : Semiring lg :=
  {| zero := NegInf; one := Fin 0; oplus := lg_max; times := lg_add |}.

(** The closed forms the specification speaks of: the log of a sum of
    exponentials, and the largest of a list of scores. *)
Definition expE (a : lg) : R :=
  match a with
  | NegInf => 0
  | Fin r => exp r
  end.

Definition lnE (x : R) : lg :=
  if Rle_dec x 0 then NegInf else Fin (ln x).

Definition log_sum_exp (xs : list lg) : lg :=
  lnE (fold_right Rplus 0%R (map expE xs)).

Definition lg_le (a b : lg) : Prop :=
  match a, b with
  | NegInf, _ => True
  | Fin _, NegInf => False
  | Fin x, Fin y => (x <= y)%R
  end.

(** [m] is the maximum of the non-empty list [xs]. *)
Definition is_max (xs : list lg) (m : lg) : Prop :=
  In m xs /\ forall x, In x xs -> lg_le x m.

(* ================================================================== *)
(** ** [CKY.marginals]: differentiation of the total

    [torch.autograd.grad] is the host's; it is read as the derivative of
    [v.sum(dim=0)] with respect to one entry of a retained tensor, the
    other entries held fixed. *)

Module Autograd.

Definition bump (eps : R) (x : lg) : lg :=
  match x with
  | NegInf => NegInf
  | Fin r => Fin (r + eps)
  end.

Definition bump_term (b i t : nat) (eps : R) : CKY.tape (K := lg) :=
  {| CKY.on_term_use := fun tu b' i' t' =>
       if (b' =? b) && (i' =? i) && (t' =? t)
       then bump eps (tu b' i' t') else tu b' i' t';
     CKY.on_rule_use := fun _ ru => ru;
     CKY.on_top := fun tp => tp |}.

Definition bump_rule (w b i x y z : nat) (eps : R) : CKY.tape (K := lg) :=
  {| CKY.on_term_use := fun tu => tu;
     CKY.on_rule_use := fun w' ru b' i' x' y' z' =>
       if (w' =? w) && (b' =? b) && (i' =? i) && (x' =? x)
          && (y' =? y) && (z' =? z)
       then bump eps (ru b' i' x' y' z') else ru b' i' x' y' z';
     CKY.on_top := fun tp => tp |}.

Definition bump_top (b x : nat) (eps : R) : CKY.tape (K := lg) :=
  {| CKY.on_term_use := fun tu => tu;
     CKY.on_rule_use := fun _ ru => ru;
     CKY.on_top := fun tp b' x' =>
       if (b' =? b) && (x' =? x) then bump eps (tp b' x') else tp b' x' |}.

(** [v.sum(dim=0)] of the run on a tape. *)
Definition objective (SR : Semiring lg) (sc : CKY.potentials)
  (lengths : option (list Z)) (tp : CKY.tape) : result lg :=
  r <- CKY._dp_on sc tp lengths ;;
  Ok (fold_right lg_add (Fin 0) (map (CKY.v r) (seq 0 (CKY.batch sc)))).

(** [g] is the derivative at [0] of a finite-valued [f]. *)
Definition grad (f : R -> result lg) (g : R) : Prop :=
  exists h : R -> R,
    (forall eps, f eps = Ok (Fin (h eps))) /\ derivable_pt_lim h 0 g.

(** [(term_marg, rules, root_marg)] *)
Record marginals_out : Type := {
  term_marg : nat -> nat -> nat -> R;
  rules_marg : nat -> nat -> nat -> nat -> nat -> nat -> R;
  root_marg : nat -> nat -> R
}.

(** [CKY.marginals(scores, lengths)] on its default path
    ([_autograd=True]): [rules[:, w, :N - w - 1]] holds the gradient with
    respect to [rule_use[w]], the rest of [rules] stays [0]. *)
Definition marginals (SR : Semiring lg) (sc : CKY.potentials)
  (lengths : option (list Z)) (m : marginals_out) : Prop :=
  let n := CKY.N sc in
  let nt := CKY.NT sc in
  let s := (nt + CKY.T sc)%nat in
  (forall b i t, b < CKY.batch sc -> i < n -> t < CKY.T sc ->
     grad (fun eps => objective SR sc lengths (bump_term b i t eps))
          (term_marg m b i t))
  /\ (forall b w i x y z,
        b < CKY.batch sc -> w < n - 1 -> i < n - w - 1 ->
        x < nt -> y < s -> z < s ->
        grad (fun eps => objective SR sc lengths (bump_rule w b i x y z eps))
             (rules_marg m b w i x y z))
  /\ (forall b w i x y z,
        ~ (w < n - 1 /\ i < n - w - 1) -> rules_marg m b w i x y z = 0%R)
  /\ (forall b x, b < CKY.batch sc -> x < nt ->
        grad (fun eps => objective SR sc lengths (bump_top b x eps))
             (root_marg m b x)).

End Autograd.

(* ================================================================== *)
(** ** [distributions.py]: the events of [SentCFG]

    [SentCFG] sets [struct = CKY]; its [to_event] and [from_event] are the
    ones of [StructDistribution]. *)

Module SentCFG.

(** [to_event(sequence, extra, lengths=None)] hands [lengths=None] to
    [to_parts], whatever it was given. *)
Definition to_event (sequence : CKY.tensor) (extra : nat * nat)
  (lengths : option (list Z)) : result (CKY.tensor * CKY.tensor * CKY.tensor) :=
  CKY.to_parts sequence extra None.

Definition from_event (event : CKY.tensor * CKY.tensor * CKY.tensor)
  : result (CKY.tensor * (nat * nat)) :=
  CKY.from_parts event.

End SentCFG.

(** ** [distributions.py]: [StructDistribution.sample]

    [MultiSampledSemiring] and the [marginals] of the struct under it are
    not among the sources.  The sampler is taken as a parameter:
    [marginals c] is what the call number [c] (from [0]) of
    [self.struct(MultiSampledSemiring).marginals(...)] returns, and
    [to_discrete] is [MultiSampledSemiring.to_discrete]. *)

Module StructDistribution.
Section Sample.
Variables Draw Sample : Type.
Variable marginals : nat -> Draw.
Variable to_discrete : Draw -> nat -> Sample.

(** The variables of the loop: [sample] (unbound before the first draw),
    the number of draws made, and [samples]. *)
Definition sample_state : Type := (option Draw * nat * list Sample)%type.

(** Lines 143-150: the body of [for k in range(nsamples)].  A read of
    [sample] while it is unbound is a [RuntimeError] here. *)
Definition sample_step (acc : result sample_state) (k : nat)
  : result sample_state :=
  st <- acc ;;
  let '(cur, calls, samples) := st in
  let '(cur, calls) :=
    if k mod 10 =? 0 then (Some (marginals calls), S calls)
    else (cur, calls) in
  match cur with
  | None => Raise RuntimeError
  | Some s =>
      let tmp_sample := to_discrete s (k mod 10 + 1) in
      Ok (cur, calls, samples ++ [tmp_sample])
  end.

(** [sample(sample_shape)]; [torch.stack] refuses an empty list. *)
Definition sample (sample_shape : list nat) : result (list Sample) :=
  (if length sample_shape =? 1 then Ok tt else Raise AssertionError) ;;;
  let nsamples := hd 0 sample_shape in
  st <- fold_left sample_step (range 0 nsamples) (Ok (None, 0, [])) ;;
  let '(_, _, samples) := st in
  match samples with
  | [] => Raise RuntimeError
  | _ => Ok samples
  end.
End Sample.
End StructDistribution.

(* ================================================================== *)
(** * What the proofs speak about

    The definitions below are not in the sources.  They name the objects
    the statements need: the state of a loop after some of its
    iterations, the invariant of the chart, the list a generator yields,
    the covers and splits [to_parts] looks for, and a few concrete
    inputs. *)

(** ** The chart of [CKY._dp] *)

Section ChartSpec.
Context {K : Type} {SR : Semiring K}.

(** Two grammars of the same shape whose rules agree on batch element
    [b] fill the same blocks from the same cells. *)
Definition same_grammar (sc sc' : CKY.potentials (K := K)) (b : nat) : Prop :=
  CKY.NT sc = CKY.NT sc' /\ CKY.T sc = CKY.T sc'
  /\ (forall x y z, CKY.rules sc b x y z = CKY.rules sc' b x y z)
  /\ (forall x, CKY.roots sc b x = CKY.roots sc' b x).

Variable sc : CKY.potentials (K := K).

(** The state of the loop after the widths [1 .. w]. *)
Definition run (w : nat) : CKY.state :=
  fold_left (CKY.step sc CKY.id_tape) (seq 1 w)
    (CKY.init sc (fun b i t => convert (CKY.terms sc b i t))).

(** After the widths [1 .. w] both orientations hold the inside values
    of every span narrower than [w + 1], and the blocks of the wider
    ones are untouched. *)
Record chart_inv (w : nat) (st : CKY.state) : Prop := {
  inv_A : forall b i k s,
      i + k < CKY.N sc -> CKY.beta_A st b i k s = CKY.inside sc w b i k s;
  inv_B : forall b j k s,
      k <= j -> j < CKY.N sc ->
      CKY.beta_B st b j (CKY.N sc - 1 - k) s
      = CKY.inside sc w b (j - k) k s;
  inv_rule_use : forall w' b i x y z,
      w <= w' -> CKY.rule_use st w' b i x y z = zero
}.

(** The total for batch element [b] when the row [lengths[b] - 1]
    resolves to the width index [j]. *)
Definition total_at (b j : nat) : K :=
  semiring_dot (CKY.NT sc)
    (fun x => CKY.inside sc j b 0 j x)
    (fun x => convert (CKY.roots sc b x)).

(** The recurrence in one piece: every pair of child states and every
    split point, the combinations that cannot occur weighing [zero]. *)
Definition uniform (L R : CKY.tensor4) (w b i x : nat) : K :=
  semiring_sum
    (map (fun y =>
            semiring_sum
              (map (fun z =>
                      semiring_sum
                        (map (fun k =>
                                times (times (L b i k y) (R b i k z))
                                  (CKY.rules sc b x y z))
                           (seq 0 w)))
                 (seq 0 (CKY.NT sc + CKY.T sc))))
       (seq 0 (CKY.NT sc + CKY.T sc))).

(** What a call of the generator yields (nothing when it raises). *)
Definition gen (fuel x s e : nat) : list (CKY.tensor1 * list CKY.part) :=
  match CKY.enumerate_gen sc fuel x s e with
  | Ok l => l
  | Raise _ => []
  end.

(** The semiring sum, at batch element [b], of the scores of a list of
    derivations. *)
Definition score_sum (b : nat) (l : list (CKY.tensor1 (K := K) * list CKY.part))
  : K :=
  semiring_sum (map (fun m => fst m b) l).

(** The states the generator tries for the left and for the right child
    of a node split at [w]. *)
Definition left_states (s w : nat) : list nat :=
  if negb (w =? s + 1) then range 0 (CKY.NT sc)
  else range (CKY.NT sc) (CKY.NT sc + CKY.T sc).

Definition right_states (e w : nat) : list nat :=
  if negb (w =? e - 1) then range 0 (CKY.NT sc)
  else range (CKY.NT sc) (CKY.NT sc + CKY.T sc).

(** The derivation the generator yields from two child derivations. *)
Definition item (x s w e y z : nat) (my mz : CKY.tensor1 * list CKY.part)
  : CKY.tensor1 * list CKY.part :=
  (fun b => times (times (fst my b) (fst mz b)) (CKY.rules sc b x y z),
   CKY.Rule x s w e :: snd my ++ snd mz).

(** All the derivations of a node, its children generated with fuel
    [f]. *)
Definition node_items (f x s e : nat) : list (CKY.tensor1 * list CKY.part) :=
  flat_map (fun w =>
    flat_map (fun y =>
      flat_map (fun z =>
        flat_map (fun my =>
          flat_map (fun mz => [item x s w e y z my mz]) (gen f z w e))
          (gen f y s w))
        (right_states e w))
      (left_states s w))
    (range (s + 1) e).

End ChartSpec.

(** The width index that [lengths[b] - 1] resolves to. *)
Definition row_of_length (n : nat) (l : Z) : nat :=
  match py_index n (l - 1) with
  | Ok j => j
  | Raise _ => 0
  end.

(** ** The chart of [CKY_CRF._dp] *)

Section CrfSpec.
Context {K : Type} {SR : Semiring K}.
Variable sc : CKY_CRF.potentials (K := K).

(** The state of the loop after the widths [1 .. w]. *)
Definition crf_run (w : nat) : CKY_CRF.state :=
  fold_left (CKY_CRF.step sc) (seq 1 w) (CKY_CRF.init sc).

Record crf_inv (w : nat) (st : CKY_CRF.state) : Prop := {
  crf_inv_A : forall b i k,
      i + k < CKY_CRF.N sc
      -> CKY_CRF.beta_A st b i k = CKY_CRF.inside sc w b i k;
  crf_inv_B : forall b j k,
      k <= j -> j < CKY_CRF.N sc ->
      CKY_CRF.beta_B st b j (CKY_CRF.N sc - 1 - k)
      = CKY_CRF.inside sc w b (j - k) k
}.

(** What a call of the generator yields (nothing when it raises). *)
Definition crf_gen (fuel x s e : nat)
  : list (CKY_CRF.tensor1 * list CKY_CRF.part) :=
  match CKY_CRF.enumerate_gen sc fuel x s e with
  | Ok l => l
  | Raise _ => []
  end.

Definition crf_score_sum (b : nat)
  (l : list (CKY_CRF.tensor1 (K := K) * list CKY_CRF.part)) : K :=
  semiring_sum (map (fun m => fst m b) l).

Definition crf_item (x s w e : nat)
  (my mz : CKY_CRF.tensor1 * list CKY_CRF.part)
  : CKY_CRF.tensor1 * list CKY_CRF.part :=
  (fun b => times3 (fst my b) (fst mz b) (CKY_CRF.scores sc b s (e - 1) x),
   CKY_CRF.Rule x s w e :: snd my ++ snd mz).

Definition crf_node_items (f x s e : nat)
  : list (CKY_CRF.tensor1 * list CKY_CRF.part) :=
  flat_map (fun w =>
    flat_map (fun y =>
      flat_map (fun z =>
        flat_map (fun my =>
          flat_map (fun mz => [crf_item x s w e my mz]) (crf_gen f z w e))
          (crf_gen f y s w))
        (range 0 (CKY_CRF.NT sc)))
      (range 0 (CKY_CRF.NT sc)))
    (range (s + 1) e).

End CrfSpec.

(** ** Covers and splits in [to_parts] *)

(** The lists [left[i]] and [right[j]] after the first loop. *)
Definition left_of (cover : list (nat * nat * nat)) (i : nat) : list CKY.entry :=
  flat_map (fun ija : nat * nat * nat =>
              let '(i', j, a) := ija in
              if i' =? i then [(a, j, (Z.of_nat j - Z.of_nat i' + 1)%Z)] else [])
    cover.

Definition right_of (cover : list (nat * nat * nat)) (j : nat) : list CKY.entry :=
  flat_map (fun ija : nat * nat * nat =>
              let '(i, j', a) := ija in
              if j' =? j then [(a, i, (Z.of_nat j' - Z.of_nat i + 1)%Z)] else [])
    cover.

(** A span of the cover that two other spans of the cover tile. *)
Definition splits (cover : list (nat * nat * nat)) (i j : nat) : Prop :=
  exists k y z, In (i, k, y) cover /\ In (k + 1, j, z) cover.

(** The entries of batch element [b] that are not [0]. *)
Definition cover_of (spans : CKY.tensor) (n s b : nat) : list (nat * nat * nat) :=
  CKY.nonzero n n s (fun i j a => CKY.data spans [b; i; j; a]).

(** What [to_parts] expects of a labelling: a square tensor of the declared
    alphabet, a length in [0 .. N] for every batch element, a nonterminal
    on every span wider than one position, and no entry below the diagonal
    (a span [(i, j)] has [i <= j]). *)
Record labelling_ok (spans : CKY.tensor) (nt t batch n : nat) (ls : list Z)
  : Prop := {
  lo_shape : CKY.shape spans = [batch; n; n; nt + t];
  lo_n : 1 <= n;
  lo_len : batch <= length ls;
  lo_range : Forall (fun l => (0 <= l <= Z.of_nat n)%Z) ls;
  lo_wide : forall b i j a,
      b < batch -> i < j -> j < n -> a < nt + t ->
      CKY.data spans [b; i; j; a] <> 0%Z -> a < nt;
  lo_upper : forall b i j a,
      b < batch -> j < i -> i < n -> a < nt + t ->
      CKY.data spans [b; i; j; a] = 0%Z
}.

(** Span [(i, j)] of batch element [b] carries the label [a]. *)
Definition labelled (spans : CKY.tensor) (b i j a : nat) : Prop :=
  CKY.data spans [b; i; j; a] <> 0%Z.

(** There are a split point [k] inside the span, [i <= k < j], and child
    labels [y], [z] such that the spans [(i, k)] and [(k + 1, j)] carry
    them. *)
Definition has_split (spans : CKY.tensor) (s b i j : nat) : Prop :=
  exists k y z,
    i <= k < j /\ y < s /\ z < s
    /\ labelled spans b i k y /\ labelled spans b (k + 1) j z.

(** Some labelled span wider than one position has no split. *)
Definition unsplit_span (spans : CKY.tensor) (batch n s : nat) : Prop :=
  exists b i j a,
    b < batch /\ i < j /\ j < n /\ a < s
    /\ labelled spans b i j a /\ ~ has_split spans s b i j.

(** The sum of a list of integers, as [rules.sum(dim=-1)] takes it. *)
Definition zsum (l : list Z) : Z := fold_right Z.add 0%Z l.

(** ** Concrete inputs *)

(** A grammar with every score equal to [x]. *)
Definition constant_grammar (batch n nt t : nat) (x : R) : CKY.potentials :=
  {| CKY.batch := batch; CKY.N := n; CKY.T := t; CKY.NT := nt;
     CKY.terms := fun _ _ _ => Fin x;
     CKY.rules := fun _ _ _ _ => Fin x;
     CKY.roots := fun _ _ => Fin x |}.

(** A single leaf: [batch = 1], [N = 1], [NT = 1], [T = 1], all scores [0]. *)
Definition single_leaf : CKY.potentials := constant_grammar 1 1 1 1 0.

(** Two leaves: [batch = 1], [N = 2], [NT = 1], [T = 1]. *)
Definition two_leaves (x : R) : CKY.potentials := constant_grammar 1 2 1 1 x.

(** [two_leaves 0] with the terminal score at position [1] set to [x]. *)
Definition two_leaves_padded (x : R) : CKY.potentials :=
  {| CKY.batch := 1; CKY.N := 2; CKY.T := 1; CKY.NT := 1;
     CKY.terms := fun _ i _ => if i =? 1 then Fin x else Fin 0;
     CKY.rules := fun _ _ _ _ => Fin 0;
     CKY.roots := fun _ _ => Fin 0 |}.

(** Span scores all equal to [x]. *)
Definition constant_spans (batch n nt : nat) (x : R) : CKY_CRF.potentials :=
  {| CKY_CRF.batch := batch; CKY_CRF.N := n; CKY_CRF.NT := nt;
     CKY_CRF.scores := fun _ _ _ _ => Fin x |}.

(** The marginals of the two-leaf scenario: one for the edges of its only
    derivation, zero elsewhere. *)
Definition two_leaf_marginals : Autograd.marginals_out :=
  {| Autograd.term_marg := fun _ _ _ => 1%R;
     Autograd.rules_marg := fun _ w i _ y z =>
       if (w =? 0) && (i =? 0) && (y =? 1) && (z =? 1) then 1%R else 0%R;
     Autograd.root_marg := fun _ _ => 1%R |}.

(** A tree over three positions, with [NT = 2] and [T = 2]:
    [0 -> t0 (1 -> t1 t0)]. *)
Definition example_tree : CKY.tree :=
  CKY.TNode 0 (CKY.TLeaf 0) (CKY.TNode 1 (CKY.TLeaf 1) (CKY.TLeaf 0)).

(** A labelling of two positions whose only label is a nonterminal on the
    span [(0, 1)]: the leaves are missing. *)
Definition leafless : CKY.tensor :=
  {| CKY.shape := [1; 2; 2; 2];
     CKY.data := fun ix =>
       match ix with
       | [_; 0; 1; 0] => 1%Z
       | _ => 0%Z
       end |}.

(** A labelling of three positions with the nonterminal [0] on the span
    [(0, 1)] and one more entry, below the diagonal, at [(2, 1)]. *)
Definition lowtri : CKY.tensor :=
  {| CKY.shape := [1; 3; 3; 2];
     CKY.data := fun ix =>
       match ix with
       | [_; 0; 1; 0] => 1%Z
       | [_; 2; 1; 0] => 1%Z
       | _ => 0%Z
       end |}.

(** ** Further objects the statements speak about *)

(** The grammar cut down to its first [l] positions: [terms[:, :l]]. *)
Definition first_words {K : Type} (sc : CKY.potentials (K := K)) (l : nat)
  : CKY.potentials :=
  {| CKY.batch := CKY.batch sc; CKY.N := l; CKY.T := CKY.T sc;
     CKY.NT := CKY.NT sc; CKY.terms := CKY.terms sc;
     CKY.rules := CKY.rules sc; CKY.roots := CKY.roots sc |}.

(** The span scores cut down to the first [l] positions:
    [scores[:, :l, :l]]. *)
Definition first_spans {K : Type} (sc : CKY_CRF.potentials (K := K)) (l : nat)
  : CKY_CRF.potentials :=
  {| CKY_CRF.batch := CKY_CRF.batch sc; CKY_CRF.N := l;
     CKY_CRF.NT := CKY_CRF.NT sc; CKY_CRF.scores := CKY_CRF.scores sc |}.

(** The positions of the leaves a derivation lists, in the order it lists
    them, and the number of rules it applies. *)
Definition leaf_positions (ps : list CKY.part) : list nat :=
  flat_map (fun p => match p with
                     | CKY.Leaf s _ => [s]
                     | CKY.Rule _ _ _ _ => []
                     end) ps.

Definition rule_count (ps : list CKY.part) : nat :=
  length (filter (fun p => match p with
                           | CKY.Leaf _ _ => false
                           | CKY.Rule _ _ _ _ => true
                           end) ps).

Definition crf_leaf_positions (ps : list CKY_CRF.part) : list nat :=
  flat_map (fun p => match p with
                     | CKY_CRF.Leaf s _ => [s]
                     | CKY_CRF.Rule _ _ _ _ => []
                     end) ps.

Definition crf_rule_count (ps : list CKY_CRF.part) : nat :=
  length (filter (fun p => match p with
                           | CKY_CRF.Leaf _ _ => false
                           | CKY_CRF.Rule _ _ _ _ => true
                           end) ps).

(** The number of nodes of a tree that apply the rule [a -> y z]. *)
Fixpoint rule_uses (nt a y z : nat) (tr : CKY.tree) : nat :=
  match tr with
  | CKY.TLeaf _ => 0
  | CKY.TNode a' l r =>
      (if (a' =? a) && (CKY.label nt l =? y) && (CKY.label nt r =? z)
       then 1 else 0)
      + rule_uses nt a y z l + rule_uses nt a y z r
  end.

(** The terminals of a tree, from left to right. *)
Fixpoint leaf_labels (tr : CKY.tree) : list nat :=
  match tr with
  | CKY.TLeaf t => [t]
  | CKY.TNode _ l r => leaf_labels l ++ leaf_labels r
  end.

(** The cover entries [to_parts] counts for the rule [a -> y z]: the spans
    wider than one position that carry [a] and whose split has the child
    labels [y] and [z]. *)
Definition counted (lf rt : nat -> list CKY.entry) (a y z : nat)
  (ija : nat * nat * nat) : bool :=
  let '(i, j, a') := ija in
  (i <? j) && (a' =? a)
  && match CKY.find_split (lf i) (rt j) (Z.of_nat j - Z.of_nat i + 1) with
     | Some (y', z') => (y' =? y) && (z' =? z)
     | None => false
     end.

(** The rule applications of a tree that use the rule [a -> y z]. *)
Definition uses_rule (a y z : nat) (r : nat * nat * nat * nat * nat) : bool :=
  let '(_, _, a', y', z') := r in (a' =? a) && (y' =? y) && (z' =? z).

(** The span a rule application stands on. *)
Definition span_of_rule (r : nat * nat * nat * nat * nat) : nat * nat * nat :=
  let '(w, i, a, _, _) := r in (i, i + w + 1, a).

(** The potentials a tree collects: the terminal scores of its leaves, the
    scores of the rules at its nodes, and the score of its root. *)
Fixpoint leaf_score (terms : nat -> nat -> R) (s : nat) (tr : CKY.tree) : R :=
  match tr with
  | CKY.TLeaf x => terms s x
  | CKY.TNode _ l r =>
      leaf_score terms s l + leaf_score terms (s + CKY.leaves l) r
  end.

Fixpoint rule_score (nt : nat) (rules : nat -> nat -> nat -> R)
  (tr : CKY.tree) : R :=
  match tr with
  | CKY.TLeaf _ => 0
  | CKY.TNode a l r =>
      rules a (CKY.label nt l) (CKY.label nt r)
      + rule_score nt rules l + rule_score nt rules r
  end.

Definition root_score (roots : nat -> R) (tr : CKY.tree) : R :=
  match tr with
  | CKY.TLeaf _ => 0
  | CKY.TNode a _ _ => roots a
  end.

(** A real-valued grammar with every score equal to [x]. *)
Definition constant_scores (batch n nt t : nat) (x : R)
  : CKY.potentials (K := R) :=
  {| CKY.batch := batch; CKY.N := n; CKY.T := t; CKY.NT := nt;
     CKY.terms := fun _ _ _ => x;
     CKY.rules := fun _ _ _ _ => x;
     CKY.roots := fun _ _ => x |}.

(** A sum over the rules [a -> y z]. *)
Definition rsum3 (na ns : nat) (f : nat -> nat -> nat -> R) : R :=
  CKY.rsum
    (map (fun a =>
            CKY.rsum
              (map (fun y => CKY.rsum (map (fun z => f a y z) (seq 0 ns)))
                 (seq 0 ns)))
       (seq 0 na)).

Definition tree_score (sc : CKY.potentials (K := R)) (b : nat) (tr : CKY.tree)
  : R :=
  leaf_score (CKY.terms sc b) 0 tr
  + rule_score (CKY.NT sc) (CKY.rules sc b) tr
  + root_score (CKY.roots sc b) tr.

(** The rows of a cover that start at [(b, i)], and those that end at
    [(b, j)], as [left] and [right] hold them. *)
Definition left_rows (cover : list (list nat)) (b i : nat) : list CKY.entry :=
  flat_map (fun row =>
              match row with
              | [b'; i'; j; a] =>
                  if (b' =? b) && (i' =? i)
                  then [(a, j, (Z.of_nat j - Z.of_nat i' + 1)%Z)] else []
              | _ => []
              end) cover.

Definition right_rows (cover : list (list nat)) (b j : nat) : list CKY.entry :=
  flat_map (fun row =>
              match row with
              | [b'; i; j'; a] =>
                  if (b' =? b) && (j' =? j)
                  then [(a, i, (Z.of_nat j' - Z.of_nat i + 1)%Z)] else []
              | _ => []
              end) cover.

(** Entry [(b, i, j, a)] of a labelling is not [0]. *)
Definition labelled4 (spans : CKY.tensor) (b i j a : nat) : Prop :=
  match CKY.shape spans with
  | [batch; n1; n2; s] =>
      b < batch /\ i < n1 /\ j < n2 /\ a < s
      /\ CKY.data spans [b; i; j; a] <> 0%Z
  | _ => False
  end.

(** Span [(i, j)] of batch element [b] has a split point not beyond [j]. *)
Definition splits_within (spans : CKY.tensor) (b i j : nat) : Prop :=
  exists k y z,
    k <= j /\ labelled4 spans b i k y /\ labelled4 spans b (k + 1) j z.

(** The weight of the root [x] for batch element [b] in the total:
    [exp (top[b, x] + roots[b, x])]. *)
Definition root_weight (sc : CKY.potentials (K := lg)) (r : CKY.dp_out)
  (b x : nat) : R :=
  expE (lg_add (CKY.top_out r b x) (CKY.roots sc b x)).

(** The sum of the root weights of batch element [b]. *)
Definition root_mass (sc : CKY.potentials (K := lg)) (r : CKY.dp_out)
  (b : nat) : R :=
  CKY.rsum (map (root_weight sc r b) (seq 0 (CKY.NT sc))).

(* ================================================================== *)
(** * Proofs *)

(** Case analysis on the boolean tests of a slice. *)
Ltac slice_cases :=
  repeat match goal with
    | |- context [Nat.eqb ?a ?b] =>
        let E := fresh "E" in
        destruct (Nat.eqb a b) eqn:E;
        [apply Nat.eqb_eq in E | apply Nat.eqb_neq in E]
    | |- context [Nat.leb ?a ?b] =>
        let E := fresh "E" in
        destruct (Nat.leb a b) eqn:E;
        [apply Nat.leb_le in E | apply Nat.leb_gt in E]
    | |- context [Nat.ltb ?a ?b] =>
        let E := fresh "E" in
        destruct (Nat.ltb a b) eqn:E;
        [apply Nat.ltb_lt in E | apply Nat.ltb_ge in E]
    end;
  simpl.

(** Settle the boolean tests that linear arithmetic decides. *)
Ltac bool_lia :=
  repeat match goal with
    | |- context [Nat.leb ?a ?b] =>
        first [ replace (Nat.leb a b) with true
                  by (symmetry; apply Nat.leb_le; lia)
              | replace (Nat.leb a b) with false
                  by (symmetry; apply Nat.leb_gt; lia) ]
    | |- context [Nat.ltb ?a ?b] =>
        first [ replace (Nat.ltb a b) with true
                  by (symmetry; apply Nat.ltb_lt; lia)
              | replace (Nat.ltb a b) with false
                  by (symmetry; apply Nat.ltb_ge; lia) ]
    | |- context [Nat.eqb ?a ?b] =>
        first [ replace (Nat.eqb a b) with true
                  by (symmetry; apply Nat.eqb_eq; lia)
              | replace (Nat.eqb a b) with false
                  by (symmetry; apply Nat.eqb_neq; lia) ]
    end;
  rewrite ?Bool.andb_false_r;
  cbn [andb orb negb].

(* ================================================================== *)
(** ** Lemmas: the error monad and loops *)

Lemma for__ok {A B : Type} (l : list A) (body : A -> result (list B))
  (g : A -> list B) :
  (forall a, In a l -> body a = Ok (g a)) ->
  for_ l body = Ok (flat_map g l).
Proof.
  induction l as [|a l IH]; intros H; simpl.
  - reflexivity.
  - rewrite (H a (or_introl eq_refl)). simpl.
    rewrite IH by (intros; apply H; right; assumption).
    reflexivity.
Qed.

Lemma py_index_nat (n k : nat) :
  k < n -> py_index n (Z.of_nat k) = Ok k.
Proof.
  intros H. unfold py_index.
  replace (0 <=? Z.of_nat k)%Z with true by (symmetry; apply Z.leb_le; lia).
  replace (Z.of_nat k <? Z.of_nat n)%Z with true by (symmetry; apply Z.ltb_lt; lia).
  simpl. now rewrite Nat2Z.id.
Qed.

Lemma py_index_pred (n k : nat) :
  1 <= k <= n -> py_index n (Z.of_nat k - 1) = Ok (k - 1).
Proof.
  intros H. replace (Z.of_nat k - 1)%Z with (Z.of_nat (k - 1)) by lia.
  apply py_index_nat. lia.
Qed.

Lemma py_index_valid (n : nat) (l : Z) :
  (- Z.of_nat n < l <= Z.of_nat n)%Z ->
  exists j, py_index n (l - 1) = Ok j.
Proof.
  intros H. unfold py_index.
  destruct ((0 <=? l - 1)%Z && (l - 1 <? Z.of_nat n)%Z) eqn:E1; [eauto|].
  destruct ((- Z.of_nat n <=? l - 1)%Z && (l - 1 <? 0)%Z) eqn:E2; [eauto|].
  apply Bool.andb_false_iff in E1, E2.
  rewrite Z.leb_gt, Z.ltb_ge in E1, E2. lia.
Qed.

Lemma in_range (lo hi k : nat) : In k (range lo hi) <-> lo <= k < hi.
Proof. unfold range. rewrite in_seq. lia. Qed.

Lemma range_S (lo hi : nat) :
  lo <= hi -> range lo (S hi) = range lo hi ++ [hi].
Proof.
  intros H. unfold range. replace (S hi - lo) with ((hi - lo) + 1) by lia.
  rewrite seq_app. simpl. do 2 f_equal. lia.
Qed.

(* ================================================================== *)
(** ** Lemmas: sums in a semiring *)

Section Sums.
Context {K : Type} {SR : Semiring K} {LW : SemiringLaws SR}.

Lemma oplus_zero_r (a : K) : oplus a zero = a.
Proof. rewrite oplus_comm. apply oplus_zero_l. Qed.

Lemma sum_nil : semiring_sum (@nil K) = zero.
Proof. reflexivity. Qed.

Lemma sum_cons (a : K) (l : list K) :
  semiring_sum (a :: l) = oplus a (semiring_sum l).
Proof. reflexivity. Qed.

Lemma sum_one (a : K) : semiring_sum [a] = a.
Proof. simpl. apply oplus_zero_r. Qed.

Lemma sum_app (l1 l2 : list K) :
  semiring_sum (l1 ++ l2) = oplus (semiring_sum l1) (semiring_sum l2).
Proof.
  induction l1 as [|a l1 IH]; simpl.
  - now rewrite oplus_zero_l.
  - fold (semiring_sum (l1 ++ l2)). fold (semiring_sum l1).
    now rewrite IH, oplus_assoc.
Qed.

Lemma sum_flat_map {A : Type} (f : A -> list K) (l : list A) :
  semiring_sum (flat_map f l)
  = semiring_sum (map (fun a => semiring_sum (f a)) l).
Proof.
  induction l as [|a l IH]; simpl; [reflexivity|].
  fold (semiring_sum (map (fun a => semiring_sum (f a)) l)).
  now rewrite sum_app, IH.
Qed.

Lemma sum_ext {A : Type} (f g : A -> K) (l : list A) :
  (forall a, In a l -> f a = g a) ->
  semiring_sum (map f l) = semiring_sum (map g l).
Proof.
  intros H. f_equal. apply map_ext_in. exact H.
Qed.

Lemma sum_all_zero {A : Type} (f : A -> K) (l : list A) :
  (forall a, In a l -> f a = zero) -> semiring_sum (map f l) = zero.
Proof.
  induction l as [|a l IH]; intros H; simpl; [reflexivity|].
  fold (semiring_sum (map f l)).
  rewrite IH by (intros; apply H; now right).
  rewrite (H a) by now left. apply oplus_zero_l.
Qed.

Lemma sum_map_oplus {A : Type} (f g : A -> K) (l : list A) :
  semiring_sum (map (fun a => oplus (f a) (g a)) l)
  = oplus (semiring_sum (map f l)) (semiring_sum (map g l)).
Proof.
  induction l as [|a l IH]; simpl.
  - now rewrite oplus_zero_l.
  - fold (semiring_sum (map (fun a => oplus (f a) (g a)) l)).
    fold (semiring_sum (map f l)). fold (semiring_sum (map g l)).
    rewrite IH.
    rewrite <- !oplus_assoc. f_equal.
    rewrite !oplus_assoc. f_equal. apply oplus_comm.
Qed.

Lemma sum_exchange {A B : Type} (f : A -> B -> K) (la : list A) (lb : list B) :
  semiring_sum (map (fun a => semiring_sum (map (fun b => f a b) lb)) la)
  = semiring_sum (map (fun b => semiring_sum (map (fun a => f a b) la)) lb).
Proof.
  induction la as [|a la IH]; simpl.
  - symmetry. apply sum_all_zero. reflexivity.
  - fold (semiring_sum
            (map (fun a => semiring_sum (map (fun b => f a b) lb)) la)).
    rewrite IH. rewrite <- sum_map_oplus. reflexivity.
Qed.

Lemma sum_times_r {A : Type} (f : A -> K) (c : K) (l : list A) :
  times (semiring_sum (map f l)) c
  = semiring_sum (map (fun a => times (f a) c) l).
Proof.
  induction l as [|a l IH]; simpl.
  - apply times_zero_l.
  - fold (semiring_sum (map f l)).
    fold (semiring_sum (map (fun a => times (f a) c) l)).
    now rewrite times_oplus_r, IH.
Qed.

Lemma sum_times_l {A : Type} (f : A -> K) (c : K) (l : list A) :
  times c (semiring_sum (map f l))
  = semiring_sum (map (fun a => times c (f a)) l).
Proof.
  induction l as [|a l IH]; simpl.
  - apply times_zero_r.
  - fold (semiring_sum (map f l)).
    fold (semiring_sum (map (fun a => times c (f a)) l)).
    now rewrite times_oplus_l, IH.
Qed.

(** A sum with a single entry that is not [zero]. *)
Lemma sum_single (f : nat -> K) (lo n k0 : nat) :
  lo <= k0 < lo + n ->
  (forall k, lo <= k < lo + n -> k <> k0 -> f k = zero) ->
  semiring_sum (map f (seq lo n)) = f k0.
Proof.
  revert lo. induction n as [|n IH]; intros lo Hk Hz; [lia|].
  simpl. fold (semiring_sum (map f (seq (S lo) n))).
  destruct (Nat.eq_dec lo k0) as [->|Hne].
  - rewrite sum_all_zero; [apply oplus_zero_r|].
    intros k Hin. apply in_seq in Hin. apply Hz; lia.
  - rewrite (Hz lo) by lia. rewrite oplus_zero_l.
    apply IH; [lia|]. intros k Hk' Hk0. apply Hz; lia.
Qed.

Lemma sum_seq_app (f : nat -> K) (lo n m : nat) :
  semiring_sum (map f (seq lo (n + m)))
  = oplus (semiring_sum (map f (seq lo n)))
          (semiring_sum (map f (seq (lo + n) m))).
Proof. now rewrite seq_app, map_app, sum_app. Qed.

Lemma sum_seq_shift (f : nat -> K) (lo n : nat) :
  semiring_sum (map f (seq lo n))
  = semiring_sum (map (fun k => f (lo + k)) (seq 0 n)).
Proof.
  f_equal. revert lo. induction n as [|n IH]; intros lo; simpl; [reflexivity|].
  rewrite Nat.add_0_r. f_equal.
  rewrite IH. rewrite <- seq_shift, map_map.
  apply map_ext. intros k. f_equal. lia.
Qed.

(** Widening a range by entries that are [zero]. *)
Lemma sum_widen_right (f : nat -> K) (n m : nat) :
  (forall k, n <= k < n + m -> f k = zero) ->
  semiring_sum (map f (seq 0 n)) = semiring_sum (map f (seq 0 (n + m))).
Proof.
  intros H. rewrite sum_seq_app. simpl.
  rewrite (sum_all_zero f (seq n m)); [now rewrite oplus_zero_r|].
  intros k Hin. apply in_seq in Hin. apply H. lia.
Qed.

Lemma sum_widen_left (f : nat -> K) (n m : nat) :
  (forall k, k < n -> f k = zero) ->
  semiring_sum (map f (seq n m)) = semiring_sum (map f (seq 0 (n + m))).
Proof.
  intros H. rewrite sum_seq_app. simpl.
  rewrite (sum_all_zero f (seq 0 n)); [now rewrite oplus_zero_l|].
  intros k Hin. apply in_seq in Hin. apply H. lia.
Qed.
End Sums.

Lemma seq_as_map (a m : nat) : seq a m = map (fun k => a + k) (seq 0 m).
Proof.
  revert a. induction m as [|m IH]; intros a; simpl; [reflexivity|].
  rewrite Nat.add_0_r. f_equal.
  rewrite IH. rewrite <- seq_shift, map_map.
  apply map_ext. intros k. lia.
Qed.

(** The flattened axis [S * S] of [rulesmid] runs over the pairs [(y, z)]
    in row-major order. *)
Lemma flatten_pairs {A : Type} (f : nat -> nat -> A) (s n : nat) :
  map (fun yz => f (yz / s) (yz mod s)) (seq 0 (n * s))
  = flat_map (fun y => map (f y) (seq 0 s)) (seq 0 n).
Proof.
  destruct (Nat.eq_dec s 0) as [->|Hs].
  { rewrite Nat.mul_0_r. simpl. induction (seq 0 n); simpl; auto. }
  induction n as [|n IH].
  - reflexivity.
  - replace (S n * s) with (n * s + s) by lia.
    rewrite seq_app, map_app, IH.
    replace (S n) with (n + 1) by lia.
    rewrite (seq_app n 1 0), flat_map_app. simpl.
    rewrite app_nil_r. f_equal.
    rewrite (seq_as_map (n * s) s), map_map.
    apply map_ext_in. intros k Hk. apply in_seq in Hk.
    rewrite Nat.div_add_l by assumption.
    rewrite Nat.div_small by lia.
    rewrite Nat.add_0_r. f_equal.
    rewrite Nat.add_comm, Nat.Div0.mod_add.
    apply Nat.mod_small. lia.
Qed.

(* ================================================================== *)
(** ** Lemmas: the chart after each width *)

Section ChartExt.
Context {K : Type} {SR : Semiring K}.

Lemma same_grammar_refl (sc : CKY.potentials (K := K)) (b : nat) : same_grammar sc sc b.
Proof. repeat split. Qed.

Lemma span_of_ext2 (sc sc' : CKY.potentials (K := K)) (ru ru' : CKY.tensor5)
  (b i x : nat) :
  same_grammar sc sc' b ->
  (forall y z, ru b i x y z = ru' b i x y z) ->
  CKY.span_of sc ru b i x = CKY.span_of sc' ru' b i x.
Proof.
  intros (Hnt & Ht & _) H. unfold CKY.span_of. rewrite Hnt, Ht.
  f_equal. apply map_ext. intros yz. apply H.
Qed.

Lemma fill_blocks_ext2 (sc sc' : CKY.potentials (K := K)) (w : nat)
  (ru ru' : CKY.tensor5) (L L' R R' : CKY.tensor4) (b i x y z : nat) :
  same_grammar sc sc' b ->
  1 <= w ->
  (forall k s, k < w -> L b i k s = L' b i k s) ->
  (forall k s, k < w -> R b i k s = R' b i k s) ->
  ru b i x y z = ru' b i x y z ->
  CKY.fill_blocks sc w ru L R b i x y z
  = CKY.fill_blocks sc' w ru' L' R' b i x y z.
Proof.
  intros (Hnt & Ht & Hr & _) Hw HL HR Hru.
  assert (Hsum : forall y z,
             semiring_sum (map (fun k => times (L b i k y) (R b i k z)) (seq 0 w))
             = semiring_sum (map (fun k => times (L' b i k y) (R' b i k z)) (seq 0 w))).
  { intros y0 z0. f_equal. apply map_ext_in. intros k Hk. apply in_seq in Hk.
    now rewrite HL, HR by lia. }
  unfold CKY.fill_blocks, CKY.set_block, CKY.in_slice,
    CKY.X_Y_Z, CKY.X_Y_Z1, CKY.X_Y1_Z, CKY.X_Y1_Z1.
  rewrite <- Hnt, <- Ht.
  destruct (w =? 1) eqn:Ew; slice_cases;
    rewrite ?Hsum, ?(HL (w - 1)), ?(HR (w - 1)), ?(HL 0), ?(HR 0), ?Hr by lia;
    auto.
Qed.
End ChartExt.

Section ChartInvariant.
Context {K : Type} {SR : Semiring K}.
Variable sc : CKY.potentials (K := K).

Local Abbreviation n := (CKY.N sc).
Local Abbreviation nt := (CKY.NT sc).
Local Abbreviation s_ := (CKY.NT sc + CKY.T sc).

Lemma span_of_ext (ru ru' : CKY.tensor5) (b i x : nat) :
  (forall y z, ru b i x y z = ru' b i x y z) ->
  CKY.span_of sc ru b i x = CKY.span_of sc ru' b i x.
Proof. apply span_of_ext2, same_grammar_refl. Qed.

Lemma fill_blocks_ext (w : nat) (ru ru' : CKY.tensor5) (L L' R R' : CKY.tensor4)
  (b i x y z : nat) :
  1 <= w ->
  (forall k s, k < w -> L b i k s = L' b i k s) ->
  (forall k s, k < w -> R b i k s = R' b i k s) ->
  ru b i x y z = ru' b i x y z ->
  CKY.fill_blocks sc w ru L R b i x y z
  = CKY.fill_blocks sc w ru' L' R' b i x y z.
Proof. apply fill_blocks_ext2, same_grammar_refl. Qed.

Lemma fill_rule_use_blocks (w : nat) (st : CKY.state) (b i x y z : nat) :
  1 <= w <= n ->
  CKY.fill_rule_use sc w st b i x y z
  = CKY.fill_blocks sc w (CKY.rule_use st (w - 1)) (CKY.beta_A st)
      (fun b i k z => CKY.beta_B st b (i + w) (n - w + k) z) b i x y z.
Proof.
  intros Hw. unfold CKY.fill_rule_use, CKY.fill_blocks. fold n.
  replace (n - w + (w - 1)) with (n - 1) by lia.
  rewrite Nat.add_0_r. reflexivity.
Qed.

Lemma inside_above (w k b i s : nat) :
  w < k -> CKY.inside sc w b i k s = zero.
Proof.
  induction w as [|w IH]; intros Hk; simpl.
  - destruct k; [lia|]. reflexivity.
  - replace (k =? S w) with false by (symmetry; apply Nat.eqb_neq; lia).
    simpl. apply IH. lia.
Qed.

(** A cell, once written, keeps its value. *)
Lemma inside_stable (w k b i s : nat) :
  k <= w -> CKY.inside sc w b i k s = CKY.inside sc k b i k s.
Proof.
  induction w as [|w IH]; intros Hk.
  - replace k with 0 by lia. reflexivity.
  - destruct (Nat.eq_dec k (S w)) as [->|Hne]; [reflexivity|].
    simpl. replace (k =? S w) with false by (symmetry; apply Nat.eqb_neq; lia).
    simpl. apply IH. lia.
Qed.

Lemma run_S (w : nat) : run sc (S w) = CKY.step sc CKY.id_tape (run sc w) (S w).
Proof.
  unfold run. rewrite seq_S, fold_left_app. reflexivity.
Qed.

Lemma chart_inv_init : chart_inv sc 0 (run sc 0).
Proof.
  split; unfold run; simpl.
  - reflexivity.
  - intros b j k s Hk Hj. fold n. unfold CKY.in_slice.
    destruct k as [|k].
    + rewrite Nat.sub_0_r, Nat.eqb_refl. simpl. rewrite Nat.sub_0_r. reflexivity.
    + replace (n - 1 - S k =? n - 1) with false
        by (symmetry; apply Nat.eqb_neq; lia).
      reflexivity.
  - reflexivity.
Qed.

Lemma chart_inv_step (w : nat) (st : CKY.state) :
  S w < n ->
  chart_inv sc w st ->
  chart_inv sc (S w) (CKY.step sc CKY.id_tape st (S w)).
Proof.
  intros Hw [IA IB IR].
  assert (Hspan : forall b i x,
             i < n - S w ->
             CKY.span_of sc (CKY.fill_rule_use sc (S w) st) b i x
             = CKY.span_of sc
                 (CKY.fill_blocks sc (S w) (fun _ _ _ _ _ => zero)
                    (CKY.inside sc w)
                    (fun b i k z => CKY.inside sc w b (i + k + 1) (w - k) z))
                 b i x).
  { intros b i x Hi. apply span_of_ext. intros y z.
    rewrite fill_rule_use_blocks by (fold n; lia).
    apply fill_blocks_ext.
    - lia.
    - intros k s Hk. apply IA. lia.
    - intros k s Hk.
      replace (n - S w + k) with (n - 1 - (w - k)) by lia.
      rewrite IB by lia. f_equal. lia.
    - apply IR. simpl. lia. }
  assert (IA' : forall b i k s,
             i + k < n ->
             CKY.beta_A (CKY.step sc CKY.id_tape st (S w)) b i k s
             = CKY.inside sc (S w) b i k s).
  { intros b i k s Hik. simpl. fold n. fold nt. unfold CKY.in_slice.
    destruct (k =? S w) eqn:Ek.
    - apply Nat.eqb_eq in Ek. subst k.
      replace (i <? n - S w) with true by (symmetry; apply Nat.ltb_lt; lia).
      simpl. destruct (s <? nt) eqn:Es; simpl.
      + apply Hspan. lia.
      + apply IA. exact Hik.
    - rewrite Bool.andb_false_r. simpl. apply IA. exact Hik. }
  split.
  - exact IA'.
  - intros b j k s Hk Hj.
    change (CKY.beta_B (CKY.step sc CKY.id_tape st (S w)) b j (n - 1 - k) s)
      with (if CKY.in_slice (S w) n j && (n - 1 - k =? n - S w - 1)
               && CKY.in_slice 0 nt s
            then CKY.beta_A (CKY.step sc CKY.id_tape st (S w)) b (j - S w) (S w) s
            else CKY.beta_B st b j (n - 1 - k) s).
    unfold CKY.in_slice.
    destruct (Nat.eq_dec k (S w)) as [->|Hne].
    + replace (S w <=? j) with true by (symmetry; apply Nat.leb_le; lia).
      replace (j <? n) with true by (symmetry; apply Nat.ltb_lt; lia).
      replace (n - 1 - S w =? n - S w - 1) with true
        by (symmetry; apply Nat.eqb_eq; lia).
      destruct (s <? nt) eqn:Es; cbn [Nat.leb andb].
      * apply IA'. lia.
      * rewrite IB by lia. cbn [CKY.inside].
        replace (S w =? S w) with true by (symmetry; apply Nat.eqb_refl).
        unfold CKY.in_slice. fold nt. rewrite Es. reflexivity.
    + replace (n - 1 - k =? n - S w - 1) with false
        by (symmetry; apply Nat.eqb_neq; lia).
      rewrite Bool.andb_false_r. simpl.
      rewrite IB by lia.
      replace (k =? S w) with false by (symmetry; apply Nat.eqb_neq; lia).
      reflexivity.
  - intros w' b i x y z Hw'. simpl.
    replace (w' =? w - 0) with false by (symmetry; apply Nat.eqb_neq; lia).
    apply IR. lia.
Qed.

Lemma chart_inv_run (w : nat) : w < n -> chart_inv sc w (run sc w).
Proof.
  induction w as [|w IH]; intros Hw.
  - apply chart_inv_init.
  - rewrite run_S. apply chart_inv_step; [exact Hw|]. apply IH. lia.
Qed.

Lemma loop_run :
  CKY.loop sc CKY.id_tape
    (CKY.init sc (fun b i t => convert (CKY.terms sc b i t)))
  = run sc (n - 1).
Proof. unfold CKY.loop, run, range. reflexivity. Qed.
End ChartInvariant.

(* ================================================================== *)
(** ** Lemmas: what [_dp] returns *)

Lemma in_combine_seq {A : Type} (ls : list A) (a i : nat) (l d : A) :
  In (i, l) (combine (seq a (length ls)) ls) ->
  a <= i < a + length ls /\ nth (i - a) ls d = l.
Proof.
  revert a. induction ls as [|x ls IH]; intros a H; simpl in *; [tauto|].
  destruct H as [H|H].
  - inversion H; subst. split; [lia|]. now rewrite Nat.sub_diag.
  - apply IH in H. destruct H as [H1 H2]. split; [lia|].
    replace (i - a) with (S (i - S a)) by lia. exact H2.
Qed.

Lemma nth_rows {A B : Type} (h : nat -> A -> B) (ls : list A) (b : nat) (d : B)
  (da : A) :
  b < length ls ->
  nth b (flat_map (fun il : nat * A => [h (fst il) (snd il)])
           (combine (seq 0 (length ls)) ls)) d
  = h b (nth b ls da).
Proof.
  intros Hb.
  assert (G : forall a b,
             b < length ls ->
             nth b (flat_map (fun il : nat * A => [h (fst il) (snd il)])
                      (combine (seq a (length ls)) ls)) d
             = h (a + b) (nth b ls da)).
  { clear. induction ls as [|x ls IH]; intros a b Hb; simpl in *; [lia|].
    destruct b as [|b].
    - now rewrite Nat.add_0_r.
    - rewrite IH by lia. f_equal. lia. }
  now rewrite G.
Qed.

Lemma length_rows {A B : Type} (h : nat * A -> B) (ls : list A) (a : nat) :
  length (flat_map (fun il => [h il]) (combine (seq a (length ls)) ls))
  = length ls.
Proof.
  revert a. induction ls as [|x ls IH]; intros a; simpl; [reflexivity|].
  now rewrite IH.
Qed.

Section DpValue.
Context {K : Type} {SR : Semiring K}.
Variable sc : CKY.potentials (K := K).

Local Abbreviation n := (CKY.N sc).

Lemma _dp_some (ls : list Z) (jf : Z -> nat) :
  1 <= n ->
  1 <= CKY.batch sc ->
  length ls = CKY.batch sc ->
  (forall l, In l ls -> py_index n (l - 1) = Ok (jf l)) ->
  exists r,
    CKY._dp sc (Some ls) = Ok r
    /\ forall b, b < CKY.batch sc ->
         CKY.v r b = total_at sc b (jf (nth b ls 0%Z)).
Proof.
  intros Hn Hb Hlen Hidx.
  unfold CKY._dp, CKY._dp_on. fold n.
  rewrite py_index_pred by lia. cbn [bind].
  cbn [CKY.on_term_use CKY.on_top CKY.id_tape].
  rewrite loop_run. fold n.
  set (st := run sc (n - 1)).
  set (h := fun (i : nat) (l : Z) (x : nat) => CKY.beta_A st i 0 (jf l) x).
  unfold CKY.top_rows.
  rewrite for__ok with (g := fun il : nat * Z => [h (fst il) (snd il)]).
  2:{ intros [i l] Hin.
      destruct (in_combine_seq ls 0 i l 0%Z Hin) as [Hi Hl].
      replace (i <? CKY.batch sc) with true
        by (symmetry; apply Nat.ltb_lt; lia).
      cbn [bind]. fold n.
      replace (py_index n 0%Z) with (Ok 0)
        by (symmetry; apply (py_index_nat (n := n) (k := 0)); lia).
      cbn [bind].
      rewrite Hidx.
      - reflexivity.
      - rewrite <- Hl. apply nth_In. lia. }
  cbn [bind].
  unfold CKY.stack_top.
  remember (flat_map (fun il : nat * Z => [h (fst il) (snd il)])
              (combine (seq 0 (length ls)) ls)) as rows0 eqn:Hrows.
  assert (Hlr : length rows0 = CKY.batch sc).
  { subst rows0.
    rewrite (length_rows (fun il : nat * Z => h (fst il) (snd il))).
    exact Hlen. }
  destruct rows0 as [|r0 rest] eqn:Erows; [simpl in Hlr; lia|].
  eexists. split.
  { unfold CKY.tensor1 in *. rewrite Hlr, Nat.eqb_refl. cbn [bind]. reflexivity. }
  intros b Hbb. cbn [CKY.v]. unfold unconvert.
  unfold total_at. unfold semiring_dot. f_equal.
  apply map_ext_in. intros x Hx. apply in_seq in Hx. f_equal.
  rewrite Hrows.
  rewrite (nth_rows h ls r0 0%Z) by lia.
  unfold h, st.
  assert (Hj : jf (nth b ls 0%Z) < n).
  { assert (Hin : In (nth b ls 0%Z) ls) by (apply nth_In; lia).
    specialize (Hidx _ Hin). unfold py_index in Hidx.
    destruct ((0 <=? nth b ls 0%Z - 1)%Z && (nth b ls 0%Z - 1 <? Z.of_nat n)%Z) eqn:E1.
    - inversion Hidx. apply andb_prop in E1. destruct E1 as [E1 E2].
      apply Z.leb_le in E1. apply Z.ltb_lt in E2. lia.
    - destruct ((- Z.of_nat n <=? nth b ls 0%Z - 1)%Z && (nth b ls 0%Z - 1 <? 0)%Z) eqn:E2;
        [|discriminate].
      inversion Hidx. apply andb_prop in E2. destruct E2 as [E2 E3].
      apply Z.leb_le in E2. apply Z.ltb_lt in E3. lia. }
  rewrite (inv_A (chart_inv_run sc (w := n - 1) ltac:(fold n; lia))) by (fold n; lia).
  apply inside_stable. lia.
Qed.
End DpValue.

Section Locality.
Context {K : Type} {SR : Semiring K}.
Variables sc sc' : CKY.potentials (K := K).

(** A cell depends on the terminal scores under its span only. *)
Lemma inside_local (b w : nat) :
  same_grammar sc sc' b ->
  forall k i s,
    k <= w ->
    (forall i' t, i <= i' <= i + k -> CKY.terms sc b i' t = CKY.terms sc' b i' t) ->
    CKY.inside sc w b i k s = CKY.inside sc' w b i k s.
Proof.
  intros G. pose proof G as (Hnt & Ht & _).
  induction w as [|w IH]; intros k i s Hk Hterms.
  - simpl. rewrite <- Hnt, <- Ht.
    replace k with 0 by lia. simpl.
    destruct (CKY.in_slice _ _ s); [|reflexivity].
    unfold convert. apply Hterms. lia.
  - cbn [CKY.inside]. rewrite <- Hnt.
    destruct ((k =? S w) && CKY.in_slice 0 (CKY.NT sc) s) eqn:E.
    + apply andb_prop in E. destruct E as [E _]. apply Nat.eqb_eq in E. subst k.
      apply span_of_ext2; [exact G|]. intros y z.
      apply fill_blocks_ext2; [exact G|lia| | |reflexivity].
      * intros k s0 Hk0. apply IH; [lia|]. intros i' t Hi'. apply Hterms. lia.
      * intros k s0 Hk0. apply IH; [lia|]. intros i' t Hi'. apply Hterms. lia.
    + destruct (Nat.eq_dec k (S w)) as [->|Hne].
      * rewrite !inside_above by lia. reflexivity.
      * apply IH; [lia|]. exact Hterms.
Qed.

Lemma total_at_local (b j : nat) :
  same_grammar sc sc' b ->
  (forall i t, i <= j -> CKY.terms sc b i t = CKY.terms sc' b i t) ->
  total_at sc b j = total_at sc' b j.
Proof.
  intros G Hterms. pose proof G as (Hnt & Ht & _ & Hroots).
  unfold total_at, semiring_dot. rewrite <- Hnt. f_equal.
  apply map_ext. intros x. unfold convert. rewrite Hroots. f_equal.
  apply inside_local; [exact G|lia|]. intros i' t Hi'. apply Hterms. lia.
Qed.
End Locality.

(* ================================================================== *)
(** ** Lemmas: the chart against the enumeration *)

Lemma map_flat_map {A B C : Type} (h : B -> C) (g : A -> list B) (l : list A) :
  map h (flat_map g l) = flat_map (fun a => map h (g a)) l.
Proof.
  induction l as [|a l IH]; simpl; [reflexivity|].
  now rewrite map_app, IH.
Qed.

Lemma for_gen_ok {A B : Type} (g : result (list A)) (l : list A)
  (body : A -> result (list B)) :
  g = Ok l -> for_gen g body = for_ l body.
Proof. intros ->. reflexivity. Qed.

Section InsideLaws.
Context {K : Type} {SR : Semiring K} {LW : SemiringLaws SR}.
Variable sc : CKY.potentials (K := K).

Local Abbreviation n := (CKY.N sc).
Local Abbreviation nt := (CKY.NT sc).
Local Abbreviation s_ := (CKY.NT sc + CKY.T sc).

Lemma inside_nt_zero (w b i s : nat) :
  s < nt -> CKY.inside sc w b i 0 s = zero.
Proof.
  intros Hs. rewrite inside_stable by lia. simpl. unfold CKY.in_slice.
  fold nt. replace (nt <=? s) with false by (symmetry; apply Nat.leb_gt; lia).
  reflexivity.
Qed.

Lemma inside_t_zero (w b i k s : nat) :
  1 <= k -> nt <= s -> CKY.inside sc w b i k s = zero.
Proof.
  intros Hk Hs. destruct (Nat.le_gt_cases k w) as [Hkw|Hkw].
  - rewrite inside_stable by lia. destruct k as [|k]; [lia|].
    cbn [CKY.inside]. unfold CKY.in_slice at 1. fold nt.
    replace (s <? nt) with false by (symmetry; apply Nat.ltb_ge; lia).
    rewrite Bool.andb_false_r. cbn [andb].
    apply inside_above. lia.
  - apply inside_above. lia.
Qed.

Lemma inside_term (w b i s : nat) :
  nt <= s < s_ -> CKY.inside sc w b i 0 s = CKY.terms sc b i (s - nt).
Proof.
  intros Hs. rewrite inside_stable by lia. simpl. unfold CKY.in_slice.
  fold nt. change (nt + CKY.T sc) with s_.
  replace (nt <=? s) with true by (symmetry; apply Nat.leb_le; lia).
  replace (s <? s_) with true by (symmetry; apply Nat.ltb_lt; lia).
  reflexivity.
Qed.

Lemma span_uniform (L R : CKY.tensor4) (w b i x : nat) :
  1 <= w ->
  (forall y, y < nt -> L b i 0 y = zero) ->
  (forall k y, 1 <= k -> nt <= y -> L b i k y = zero) ->
  (forall z, z < nt -> R b i (w - 1) z = zero) ->
  (forall k z, k < w - 1 -> nt <= z -> R b i k z = zero) ->
  CKY.span_of sc (CKY.fill_blocks sc w (fun _ _ _ _ _ => zero) L R) b i x
  = uniform sc L R w b i x.
Proof.
  intros Hw HL0 HLk HRw HRk.
  unfold CKY.span_of. change (CKY.NT sc + CKY.T sc) with s_.
  rewrite (flatten_pairs
             (fun y z => CKY.fill_blocks sc w (fun _ _ _ _ _ => zero) L R b i x y z)).
  rewrite sum_flat_map. unfold uniform.
  apply sum_ext. intros y Hy. apply in_seq in Hy.
  apply sum_ext. intros z Hz. apply in_seq in Hz.
  unfold CKY.fill_blocks, CKY.set_block, CKY.in_slice,
    CKY.X_Y_Z, CKY.X_Y_Z1, CKY.X_Y1_Z, CKY.X_Y1_Z1, convert, times3.
  fold nt. change (nt + CKY.T sc) with s_.
  assert (Hs : s_ = nt + CKY.T sc) by reflexivity.
  destruct (Nat.lt_ge_cases y nt) as [Hyn|Hyn];
    destruct (Nat.lt_ge_cases z nt) as [Hzn|Hzn];
    destruct (Nat.eq_dec w 1) as [Ew|Ew];
    [ replace (w =? 1) with true by (symmetry; apply Nat.eqb_eq; lia)
    | replace (w =? 1) with false by (symmetry; apply Nat.eqb_neq; lia)
    | replace (w =? 1) with true by (symmetry; apply Nat.eqb_eq; lia)
    | replace (w =? 1) with false by (symmetry; apply Nat.eqb_neq; lia)
    | replace (w =? 1) with true by (symmetry; apply Nat.eqb_eq; lia)
    | replace (w =? 1) with false by (symmetry; apply Nat.eqb_neq; lia)
    | replace (w =? 1) with true by (symmetry; apply Nat.eqb_eq; lia)
    | replace (w =? 1) with false by (symmetry; apply Nat.eqb_neq; lia) ];
    cbv beta; bool_lia; rewrite ?Nat.sub_0_r;
    try replace (nt + (y - nt)) with y by lia;
    try replace (nt + (z - nt)) with z by lia.
  - (* NT x NT *) apply sum_times_r.
  - apply sum_times_r.
  - (* NT x T *)
    rewrite (sum_single (lo := 0) (k0 := w - 1) _ w); [reflexivity|lia|].
    intros k Hk Hne. rewrite (HRk k z) by lia.
    now rewrite times_zero_r, times_zero_l.
  - rewrite (sum_single (lo := 0) (k0 := w - 1) _ w); [reflexivity|lia|].
    intros k Hk Hne. rewrite (HRk k z) by lia.
    now rewrite times_zero_r, times_zero_l.
  - (* T x NT *)
    rewrite (sum_single (lo := 0) (k0 := 0) _ w); [reflexivity|lia|].
    intros k Hk Hne. rewrite (HLk k y) by lia. now rewrite !times_zero_l.
  - rewrite (sum_single (lo := 0) (k0 := 0) _ w); [reflexivity|lia|].
    intros k Hk Hne. rewrite (HLk k y) by lia. now rewrite !times_zero_l.
  - (* T x T *)
    subst w. cbn [Nat.sub seq map]. now rewrite sum_one.
  - symmetry. apply sum_all_zero.
    intros k Hk. apply in_seq in Hk.
    destruct k as [|k].
    + rewrite (HRk 0 z) by lia. now rewrite times_zero_r, times_zero_l.
    + rewrite (HLk (S k) y) by lia. now rewrite !times_zero_l.
Qed.

(** [inside] satisfies the uniform recurrence. *)
Lemma inside_uniform (d b i x : nat) :
  x < nt ->
  CKY.inside sc (S d) b i (S d) x
  = uniform sc (CKY.inside sc d)
      (fun b i k z => CKY.inside sc d b (i + k + 1) (d - k) z) (S d) b i x.
Proof.
  intros Hx. cbn [CKY.inside]. rewrite Nat.eqb_refl.
  unfold CKY.in_slice at 1. fold nt.
  replace (x <? nt) with true by (symmetry; apply Nat.ltb_lt; lia).
  cbn [Nat.leb andb].
  apply span_uniform.
  - lia.
  - intros y Hy. now apply inside_nt_zero.
  - intros k y Hk Hy. now apply inside_t_zero.
  - intros z Hz. replace (d - (S d - 1)) with 0 by lia. now apply inside_nt_zero.
  - intros k z Hk Hz. apply inside_t_zero; [lia|assumption].
Qed.

(** Without terminals no cell of the chart is ever different from
    [zero]. *)
Lemma inside_no_terminals (w b i k s : nat) :
  CKY.T sc = 0 -> CKY.inside sc w b i k s = zero.
Proof.
  intros HT. revert b i k s.
  induction w as [|w IH]; intros b i k s.
  - simpl. unfold CKY.in_slice. rewrite HT, Nat.add_0_r.
    destruct (k =? 0); [|reflexivity].
    destruct (Nat.leb_spec (CKY.NT sc) s) as [H|H]; [|reflexivity].
    replace (s <? CKY.NT sc) with false
      by (symmetry; apply Nat.ltb_ge; lia).
    reflexivity.
  - cbn [CKY.inside].
    destruct ((k =? S w) && CKY.in_slice 0 (CKY.NT sc) s) eqn:E; [|apply IH].
    rewrite span_uniform; try (intros; apply IH); [|lia].
    unfold uniform.
    apply sum_all_zero. intros y _.
    apply sum_all_zero. intros z _.
    apply sum_all_zero. intros k' _.
    rewrite IH. now rewrite !times_zero_l.
Qed.
End InsideLaws.

Section EnumerateCKY.
Context {K : Type} {SR : Semiring K} {LW : SemiringLaws SR}.
Variable sc : CKY.potentials (K := K).

Local Abbreviation n := (CKY.N sc).
Local Abbreviation nt := (CKY.NT sc).
Local Abbreviation s_ := (CKY.NT sc + CKY.T sc).

Lemma gen_ok (fuel x s e : nat) l :
  CKY.enumerate_gen sc fuel x s e = Ok l -> gen sc fuel x s e = l.
Proof. unfold gen. now intros ->. Qed.

Lemma enum_leaf (fuel x s : nat) :
  1 <= fuel -> s < n -> nt <= x < s_ ->
  CKY.enumerate_gen sc fuel x s (s + 1)
  = Ok [(fun b => CKY.terms sc b s (x - nt),
         [CKY.Leaf s (Z.of_nat x - Z.of_nat nt)])].
Proof.
  intros Hf Hs Hx. destruct fuel as [|f]; [lia|].
  cbn [CKY.enumerate_gen]. rewrite Nat.eqb_refl.
  fold n. rewrite py_index_nat by lia. cbn [bind]. fold nt.
  replace (Z.of_nat x - Z.of_nat nt)%Z with (Z.of_nat (x - nt)) by lia.
  rewrite py_index_nat by lia.
  reflexivity.
Qed.

Lemma enum_node (f x s e : nat) :
  s + 1 <> e ->
  (forall w y, In w (range (s + 1) e) -> In y (left_states sc s w) ->
     CKY.enumerate_gen sc f y s w = Ok (gen sc f y s w)) ->
  (forall w z, In w (range (s + 1) e) -> In z (right_states sc e w) ->
     CKY.enumerate_gen sc f z w e = Ok (gen sc f z w e)) ->
  CKY.enumerate_gen sc (S f) x s e = Ok (node_items sc f x s e).
Proof.
  intros Hne HY HZ. cbn [CKY.enumerate_gen].
  replace (s + 1 =? e) with false by (symmetry; apply Nat.eqb_neq; lia).
  unfold node_items.
  apply for__ok. intros w Hw.
  apply for__ok. intros y Hy.
  apply for__ok. intros z Hz.
  rewrite (for_gen_ok _ (HY w y Hw Hy)).
  apply for__ok. intros my Hmy.
  rewrite (for_gen_ok _ (HZ w z Hw Hz)).
  apply for__ok. intros mz Hmz.
  destruct my, mz. reflexivity.
Qed.

Lemma score_sum_node (f x s e b : nat) :
  score_sum b (node_items sc f x s e)
  = semiring_sum
      (map (fun w =>
         semiring_sum
           (map (fun y =>
              semiring_sum
                (map (fun z =>
                   times (times (score_sum b (gen sc f y s w))
                                (score_sum b (gen sc f z w e)))
                         (CKY.rules sc b x y z))
                   (right_states sc e w)))
              (left_states sc s w)))
         (range (s + 1) e)).
Proof.
  unfold score_sum, node_items.
  rewrite map_flat_map, sum_flat_map. apply sum_ext. intros w _.
  rewrite map_flat_map, sum_flat_map. apply sum_ext. intros y _.
  rewrite map_flat_map, sum_flat_map. apply sum_ext. intros z _.
  rewrite map_flat_map, sum_flat_map.
  rewrite sum_times_r, sum_times_r.
  apply sum_ext. intros my _. cbv beta.
  rewrite map_flat_map, sum_flat_map.
  rewrite sum_times_l, sum_times_r.
  apply sum_ext. intros mz _. cbn [map fst item]. apply sum_one.
Qed.

Lemma nonempty_in {A : Type} (l : list A) : l <> [] -> exists a, In a l.
Proof. destruct l as [|a l]; [congruence|]. intros _. exists a. now left. Qed.

Lemma left_states_in (s w y : nat) :
  In y (left_states sc s w) ->
  (w = s + 1 /\ nt <= y < s_) \/ (w <> s + 1 /\ y < nt).
Proof.
  unfold left_states. destruct (Nat.eq_dec w (s + 1)) as [E|E].
  - replace (w =? s + 1) with true by (symmetry; apply Nat.eqb_eq; lia).
    cbn [negb]. rewrite in_range. lia.
  - replace (w =? s + 1) with false by (symmetry; apply Nat.eqb_neq; lia).
    cbn [negb]. rewrite in_range. lia.
Qed.

Lemma right_states_in (e w z : nat) :
  In z (right_states sc e w) ->
  (w = e - 1 /\ nt <= z < s_) \/ (w <> e - 1 /\ z < nt).
Proof.
  unfold right_states. destruct (Nat.eq_dec w (e - 1)) as [E|E].
  - replace (w =? e - 1) with true by (symmetry; apply Nat.eqb_eq; lia).
    cbn [negb]. rewrite in_range. lia.
  - replace (w =? e - 1) with false by (symmetry; apply Nat.eqb_neq; lia).
    cbn [negb]. rewrite in_range. lia.
Qed.

(** Summing over the states a child may take is summing over all states. *)
Lemma sum_left_states (H : nat -> K) (s w : nat) :
  (w = s + 1 -> forall y, y < nt -> H y = zero) ->
  (w <> s + 1 -> forall y, nt <= y < s_ -> H y = zero) ->
  semiring_sum (map H (left_states sc s w)) = semiring_sum (map H (seq 0 s_)).
Proof.
  intros H1 H2. unfold left_states, range.
  destruct (Nat.eq_dec w (s + 1)) as [E|E].
  - replace (w =? s + 1) with true by (symmetry; apply Nat.eqb_eq; lia).
    cbn [negb]. replace (nt + CKY.T sc - nt) with (CKY.T sc) by lia.
    apply sum_widen_left. auto.
  - replace (w =? s + 1) with false by (symmetry; apply Nat.eqb_neq; lia).
    cbn [negb]. rewrite Nat.sub_0_r.
    apply sum_widen_right. intros k Hk. apply H2; [exact E|].
    lia.
Qed.

Lemma sum_right_states (H : nat -> K) (e w : nat) :
  (w = e - 1 -> forall z, z < nt -> H z = zero) ->
  (w <> e - 1 -> forall z, nt <= z < s_ -> H z = zero) ->
  semiring_sum (map H (right_states sc e w)) = semiring_sum (map H (seq 0 s_)).
Proof.
  intros H1 H2. unfold right_states, range.
  destruct (Nat.eq_dec w (e - 1)) as [E|E].
  - replace (w =? e - 1) with true by (symmetry; apply Nat.eqb_eq; lia).
    cbn [negb]. replace (nt + CKY.T sc - nt) with (CKY.T sc) by lia.
    apply sum_widen_left. auto.
  - replace (w =? e - 1) with false by (symmetry; apply Nat.eqb_neq; lia).
    cbn [negb]. rewrite Nat.sub_0_r.
    apply sum_widen_right. intros k Hk. apply H2; [exact E|].
    lia.
Qed.

(** The scores the generator yields for a span sum to the chart cell of
    that span. *)
Lemma enum_inside (d : nat) :
  forall fuel x s,
    d < fuel -> s + d < n ->
    (d = 0 -> nt <= x < s_) ->
    (1 <= d -> x < nt) ->
    exists l,
      CKY.enumerate_gen sc fuel x s (s + d + 1) = Ok l
      /\ (forall b, score_sum b l = CKY.inside sc d b s d x)
      /\ (1 <= nt -> 1 <= CKY.T sc -> l <> []).
Proof.
  induction d as [d IH] using lt_wf_ind. intros fuel x s Hf Hs H0 H1.
  destruct d as [|d'].
  - eexists. split; [|split].
    + rewrite Nat.add_0_r. apply enum_leaf; [lia|lia|]. apply H0. reflexivity.
    + intros b. unfold score_sum. cbn [map fst]. rewrite sum_one.
      symmetry. apply inside_term. apply H0. reflexivity.
    + discriminate.
  - destruct fuel as [|f]; [lia|].
    set (e := s + S d' + 1).
    assert (HY : forall w y,
               In w (range (s + 1) e) -> In y (left_states sc s w) ->
               exists l,
                 CKY.enumerate_gen sc f y s w = Ok l
                 /\ (forall b, score_sum b l
                               = CKY.inside sc d' b s (w - s - 1) y)
                 /\ (1 <= nt -> 1 <= CKY.T sc -> l <> [])).
    { intros w y Hw Hy. apply in_range in Hw. unfold e in Hw.
      apply left_states_in in Hy.
      destruct (IH (w - s - 1) ltac:(lia) f y s) as (l & E & Hsum & Hne);
        try lia.
      exists l. replace (s + (w - s - 1) + 1) with w in E by lia.
      split; [exact E|]. split; [|exact Hne].
      intros b. rewrite Hsum. symmetry. apply inside_stable. lia. }
    assert (HZ : forall w z,
               In w (range (s + 1) e) -> In z (right_states sc e w) ->
               exists l,
                 CKY.enumerate_gen sc f z w e = Ok l
                 /\ (forall b, score_sum b l
                               = CKY.inside sc d' b w (d' - (w - s - 1)) z)
                 /\ (1 <= nt -> 1 <= CKY.T sc -> l <> [])).
    { intros w z Hw Hz. apply in_range in Hw. unfold e in Hw.
      apply right_states_in in Hz. unfold e in Hz.
      destruct (IH (d' - (w - s - 1)) ltac:(lia) f z w) as (l & E & Hsum & Hne);
        try lia.
      exists l. replace (w + (d' - (w - s - 1)) + 1) with e in E by (unfold e; lia).
      split; [exact E|]. split; [|exact Hne].
      intros b. rewrite Hsum. symmetry. apply inside_stable. lia. }
    exists (node_items sc f x s e). split; [|split].
    + apply enum_node.
      * unfold e. lia.
      * intros w y Hw Hy. destruct (HY w y Hw Hy) as (l & E & _).
        rewrite E. f_equal. symmetry. now apply gen_ok.
      * intros w z Hw Hz. destruct (HZ w z Hw Hz) as (l & E & _).
        rewrite E. f_equal. symmetry. now apply gen_ok.
    + intros b. rewrite score_sum_node.
      rewrite inside_uniform by lia. unfold uniform.
      change (CKY.NT sc + CKY.T sc) with s_.
      symmetry.
      etransitivity.
      { etransitivity.
        - apply sum_ext. intros y _. apply sum_exchange.
        - apply sum_exchange. }
      symmetry.
      unfold range at 1. replace (e - (s + 1)) with (S d') by (unfold e; lia).
      rewrite sum_seq_shift. apply sum_ext. intros k Hk. apply in_seq in Hk.
      assert (Hw : In (s + 1 + k) (range (s + 1) e)).
      { apply in_range. unfold e. lia. }
      etransitivity.
      { apply sum_ext. intros y Hy. apply sum_ext. intros z Hz.
        destruct (HY _ y Hw Hy) as (ly & Ey & Sy & _).
        destruct (HZ _ z Hw Hz) as (lz & Ez & Sz & _).
        rewrite (@gen_ok _ _ _ _ _ Ey), (@gen_ok _ _ _ _ _ Ez), Sy, Sz.
        replace (s + 1 + k - s - 1) with k by lia.
        replace (s + 1 + k) with (s + k + 1) by lia.
        reflexivity. }
      rewrite (sum_left_states
                 (fun y =>
                    semiring_sum
                      (map (fun z =>
                              times (times (CKY.inside sc d' b s k y)
                                       (CKY.inside sc d' b (s + k + 1) (d' - k) z))
                                (CKY.rules sc b x y z))
                         (right_states sc e (s + 1 + k))))).
      2:{ intros Ek y Hy. apply sum_all_zero. intros z _.
          replace k with 0 by lia.
          rewrite inside_nt_zero by exact Hy. now rewrite !times_zero_l. }
      2:{ intros Ek y Hy. apply sum_all_zero. intros z _.
          rewrite (inside_t_zero sc d' b s (k := k) (s := y)) by lia.
          now rewrite !times_zero_l. }
      apply sum_ext. intros y _.
      apply sum_right_states.
      * intros Ek z Hz. replace (d' - k) with 0 by (unfold e in Ek; lia).
        rewrite (inside_nt_zero sc d' b (s + k + 1) Hz).
        now rewrite times_zero_r, times_zero_l.
      * intros Ek z Hz.
        rewrite (inside_t_zero sc d' b (s + k + 1) (k := d' - k) (s := z))
          by (unfold e in Ek; lia).
        now rewrite times_zero_r, times_zero_l.
    + intros Hnt HT.
      set (w := s + 1).
      set (y := nt).
      set (z := if d' =? 0 then nt else 0).
      assert (Hw : In w (range (s + 1) e)) by (apply in_range; unfold w, e; lia).
      assert (Hy : In y (left_states sc s w)).
      { unfold left_states, w, y. rewrite Nat.eqb_refl. cbn [negb].
        apply in_range. lia. }
      assert (Hz : In z (right_states sc e w)).
      { unfold right_states, w, z, e. destruct (Nat.eq_dec d' 0) as [E|E].
        - subst d'. cbn [Nat.eqb].
          replace (s + 1 =? s + 1 + 1 - 1) with true
            by (symmetry; apply Nat.eqb_eq; lia).
          cbn [negb]. apply in_range. lia.
        - replace (d' =? 0) with false by (symmetry; apply Nat.eqb_neq; lia).
          replace (s + 1 =? s + S d' + 1 - 1) with false
            by (symmetry; apply Nat.eqb_neq; lia).
          cbn [negb]. apply in_range. lia. }
      destruct (HY w y Hw Hy) as (ly & Ey & _ & Ny).
      destruct (HZ w z Hw Hz) as (lz & Ez & _ & Nz).
      destruct (nonempty_in (Ny Hnt HT)) as (my & Hmy).
      destruct (nonempty_in (Nz Hnt HT)) as (mz & Hmz).
      intros Hnil.
      assert (Hin : In (item sc x s w e y z my mz) (node_items sc f x s e)).
      { unfold node_items.
        apply in_flat_map. exists w. split; [exact Hw|].
        apply in_flat_map. exists y. split; [exact Hy|].
        apply in_flat_map. exists z. split; [exact Hz|].
        apply in_flat_map. exists my. split; [now rewrite (@gen_ok _ _ _ _ _ Ey)|].
        apply in_flat_map. exists mz. split; [now rewrite (@gen_ok _ _ _ _ _ Ez)|].
        now left. }
      rewrite Hnil in Hin. destruct Hin.
Qed.

(** The engine's total is the semiring sum of the root-weighted scores of
    all enumerated derivations. *)
Lemma dp_enumerate :
  2 <= n -> 1 <= nt -> 1 <= CKY.T sc -> 1 <= CKY.batch sc ->
  exists r ls,
    CKY._dp sc None = Ok r
    /\ CKY.enumerate_scores sc = Ok ls
    /\ ls <> []
    /\ forall b, b < CKY.batch sc ->
         CKY.v r b = semiring_sum (map (fun s : CKY.tensor1 => s b) ls).
Proof.
  intros Hn Hnt HT Hb.
  destruct (_dp_some sc (repeat (Z.of_nat n) (CKY.batch sc))
              (fun _ => n - 1)) as (r & Er & Hv).
  - fold n. lia.
  - exact Hb.
  - apply repeat_length.
  - intros l Hl. apply repeat_spec in Hl. subst l.
    apply py_index_pred. fold n. lia.
  - assert (Hgen : forall x, In x (range 0 nt) ->
               exists l,
                 CKY.enumerate_gen sc (S n) x 0 n = Ok l
                 /\ (forall b, score_sum b l
                               = CKY.inside sc (n - 1) b 0 (n - 1) x)
                 /\ l <> []).
    { intros x Hx. apply in_range in Hx.
      destruct (@enum_inside (n - 1) (S n) x 0)
        as (l & E & Hs & Hne); try (fold n; lia).
      exists l. replace (0 + (n - 1) + 1) with n in E by lia.
      split; [exact E|]. split; [exact Hs|]. now apply Hne. }
    set (g := fun x =>
                map (fun sp : CKY.tensor1 * list CKY.part =>
                       let '(s, _) := sp in
                       fun b => times (s b) (CKY.roots sc b x))
                  (gen sc (S n) x 0 n)).
    assert (Els : CKY.enumerate_scores sc = Ok (flat_map g (range 0 nt))).
    { unfold CKY.enumerate_scores. apply for__ok. intros x Hx.
      destruct (Hgen x Hx) as (l & E & _). fold n. rewrite E. cbn [bind].
      unfold g. now rewrite (@gen_ok _ _ _ _ _ E). }
    exists r, (flat_map g (range 0 nt)).
    split; [exact Er|]. split; [exact Els|]. split.
    + assert (H0 : In 0 (range 0 nt)) by (apply in_range; lia).
      destruct (Hgen 0 H0) as (l & E & _ & Hne).
      destruct (nonempty_in Hne) as (m & Hm).
      intros Hnil.
      assert (Hin : In ((fun sp : CKY.tensor1 * list CKY.part =>
                           let '(s, _) := sp in
                           fun b => times (s b) (CKY.roots sc b 0)) m)
                      (flat_map g (range 0 nt))).
      { apply in_flat_map. exists 0. split; [exact H0|].
        unfold g.
        apply (in_map (fun sp : CKY.tensor1 * list CKY.part =>
                         let '(s, _) := sp in
                         fun b => times (s b) (CKY.roots sc b 0))
                 (gen sc (S n) 0 0 n) m).
        now rewrite (@gen_ok _ _ _ _ _ E). }
      rewrite Hnil in Hin. destruct Hin.
    + intros b Hbb. rewrite (Hv b Hbb).
      unfold total_at, semiring_dot. fold nt.
      rewrite map_flat_map, sum_flat_map.
      unfold range. rewrite Nat.sub_0_r.
      apply sum_ext. intros x Hx.
      assert (Hx' : In x (range 0 nt))
        by (unfold range; now rewrite Nat.sub_0_r).
      destruct (Hgen x Hx') as (l & E & Hs & _).
      rewrite <- (Hs b). rewrite <- (@gen_ok _ _ _ _ _ E).
      unfold score_sum, g, convert. rewrite sum_times_r. rewrite map_map.
      apply sum_ext. intros [m p] _. reflexivity.
Qed.
End EnumerateCKY.

(* ================================================================== *)
(** ** Lemmas: the span parser *)

Section CrfInvariant.
Context {K : Type} {SR : Semiring K}.
Variable sc : CKY_CRF.potentials (K := K).

Local Abbreviation n := (CKY_CRF.N sc).

Lemma crf_inside_above (w k b i : nat) :
  w < k -> CKY_CRF.inside sc w b i k = zero.
Proof.
  induction w as [|w IH]; intros Hk; simpl.
  - destruct k; [lia|]. reflexivity.
  - replace (k =? S w) with false by (symmetry; apply Nat.eqb_neq; lia).
    apply IH. lia.
Qed.

Lemma crf_inside_stable (w k b i : nat) :
  k <= w -> CKY_CRF.inside sc w b i k = CKY_CRF.inside sc k b i k.
Proof.
  induction w as [|w IH]; intros Hk.
  - replace k with 0 by lia. reflexivity.
  - destruct (Nat.eq_dec k (S w)) as [->|Hne]; [reflexivity|].
    simpl. replace (k =? S w) with false by (symmetry; apply Nat.eqb_neq; lia).
    apply IH. lia.
Qed.

Lemma crf_run_S (w : nat) :
  crf_run sc (S w) = CKY_CRF.step sc (crf_run sc w) (S w).
Proof. unfold crf_run. rewrite seq_S, fold_left_app. reflexivity. Qed.

Lemma crf_inv_init : crf_inv sc 0 (crf_run sc 0).
Proof.
  split; unfold crf_run; simpl; fold n; unfold CKY_CRF.in_slice.
  - intros b i k Hik. bool_lia. reflexivity.
  - intros b j k Hk Hj. bool_lia.
    destruct k as [|k].
    + rewrite !Nat.sub_0_r, Nat.eqb_refl. reflexivity.
    + replace (n - 1 - S k =? n - 1) with false
        by (symmetry; apply Nat.eqb_neq; lia).
      reflexivity.
Qed.

Lemma crf_inv_step (w : nat) (st : CKY_CRF.state) :
  S w < n ->
  crf_inv sc w st -> crf_inv sc (S w) (CKY_CRF.step sc st (S w)).
Proof.
  intros Hw [IA IB].
  assert (IA' : forall b i k,
             i + k < n ->
             CKY_CRF.beta_A (CKY_CRF.step sc st (S w)) b i k
             = CKY_CRF.inside sc (S w) b i k).
  { intros b i k Hik. cbn [CKY_CRF.step CKY_CRF.beta_A CKY_CRF.inside].
    fold n. unfold CKY_CRF.in_slice.
    destruct (Nat.eq_dec k (S w)) as [->|Hne].
    - bool_lia. f_equal. unfold semiring_dot. f_equal.
      apply map_ext_in. intros k Hk. apply in_seq in Hk.
      rewrite IA by lia. f_equal.
      replace (n - S w + k) with (n - 1 - (w - k)) by lia.
      rewrite IB by lia. f_equal. lia.
    - bool_lia. apply IA. exact Hik. }
  split; [exact IA'|].
  intros b j k Hk Hj.
  change (CKY_CRF.beta_B (CKY_CRF.step sc st (S w)) b j (n - 1 - k))
    with (if CKY_CRF.in_slice (S w) n j && (n - 1 - k =? n - S w - 1)
          then CKY_CRF.beta_A (CKY_CRF.step sc st (S w)) b (j - S w) (S w)
          else CKY_CRF.beta_B st b j (n - 1 - k)).
  unfold CKY_CRF.in_slice.
  destruct (Nat.eq_dec k (S w)) as [->|Hne].
  - bool_lia. apply IA'. lia.
  - bool_lia. rewrite IB by lia. cbn [CKY_CRF.inside].
    replace (k =? S w) with false by (symmetry; apply Nat.eqb_neq; lia).
    reflexivity.
Qed.

Lemma crf_inv_run (w : nat) : w < n -> crf_inv sc w (crf_run sc w).
Proof.
  induction w as [|w IH]; intros Hw.
  - apply crf_inv_init.
  - rewrite crf_run_S. apply crf_inv_step; [exact Hw|]. apply IH. lia.
Qed.

Lemma nth_flat_const {A : Type} (l : list A) (c d b : nat) :
  b < length l -> nth b (flat_map (fun _ => [c]) l) d = c.
Proof.
  revert b. induction l as [|a l IH]; intros b Hb; simpl in *; [lia|].
  destruct b; [reflexivity|]. apply IH. lia.
Qed.

Lemma crf_dp_none :
  1 <= n ->
  exists r,
    CKY_CRF._dp sc None = Ok r
    /\ forall b, b < CKY_CRF.batch sc ->
         CKY_CRF.log_Z r b = CKY_CRF.inside sc (n - 1) b 0 (n - 1).
Proof.
  intros Hn. unfold CKY_CRF._dp. fold n.
  rewrite py_index_pred by lia. cbn [bind].
  unfold CKY_CRF.gather.
  rewrite for__ok with (g := fun _ : Z => [n - 1]).
  2:{ intros l Hl. apply repeat_spec in Hl. subst l. fold n.
      rewrite py_index_pred by lia. reflexivity. }
  cbn [bind]. rewrite repeat_length, Nat.eqb_refl.
  eexists. split; [reflexivity|].
  intros b Hb. cbn [CKY_CRF.log_Z].
  rewrite nth_flat_const by (rewrite repeat_length; exact Hb).
  change (CKY_CRF.loop sc (CKY_CRF.init sc)) with (crf_run sc (n - 1)).
  apply (crf_inv_A (crf_inv_run (w := n - 1) ltac:(lia))). lia.
Qed.
End CrfInvariant.

Section EnumerateCRF.
Context {K : Type} {SR : Semiring K} {LW : SemiringLaws SR}.
Variable sc : CKY_CRF.potentials (K := K).

Local Abbreviation n := (CKY_CRF.N sc).
Local Abbreviation nt := (CKY_CRF.NT sc).

Lemma crf_gen_ok (fuel x s e : nat) l :
  CKY_CRF.enumerate_gen sc fuel x s e = Ok l -> crf_gen sc fuel x s e = l.
Proof. unfold crf_gen. now intros ->. Qed.

Lemma crf_enum_leaf (fuel x s : nat) :
  1 <= fuel -> s < n -> x < nt ->
  CKY_CRF.enumerate_gen sc fuel x s (s + 1)
  = Ok [(fun b => CKY_CRF.scores sc b s s x, [CKY_CRF.Leaf s x])].
Proof.
  intros Hf Hs Hx. destruct fuel as [|f]; [lia|].
  cbn [CKY_CRF.enumerate_gen]. rewrite Nat.eqb_refl.
  fold n. rewrite py_index_nat by lia. cbn [bind]. fold nt.
  rewrite py_index_nat by lia. reflexivity.
Qed.

Lemma crf_enum_node (f x s e : nat) :
  s + 1 <> e ->
  (forall w y, In w (range (s + 1) e) -> In y (range 0 nt) ->
     CKY_CRF.enumerate_gen sc f y s w = Ok (crf_gen sc f y s w)) ->
  (forall w z, In w (range (s + 1) e) -> In z (range 0 nt) ->
     CKY_CRF.enumerate_gen sc f z w e = Ok (crf_gen sc f z w e)) ->
  CKY_CRF.enumerate_gen sc (S f) x s e = Ok (crf_node_items sc f x s e).
Proof.
  intros Hne HY HZ. cbn [CKY_CRF.enumerate_gen].
  replace (s + 1 =? e) with false by (symmetry; apply Nat.eqb_neq; lia).
  unfold crf_node_items.
  apply for__ok. intros w Hw.
  apply for__ok. intros y Hy.
  apply for__ok. intros z Hz.
  rewrite (for_gen_ok _ (HY w y Hw Hy)).
  apply for__ok. intros my Hmy.
  rewrite (for_gen_ok _ (HZ w z Hw Hz)).
  apply for__ok. intros mz Hmz.
  destruct my, mz. reflexivity.
Qed.

Lemma crf_score_sum_node (f x s e b : nat) :
  crf_score_sum b (crf_node_items sc f x s e)
  = times
      (semiring_sum
         (map (fun w =>
                 times
                   (semiring_sum
                      (map (fun y => crf_score_sum b (crf_gen sc f y s w))
                         (range 0 nt)))
                   (semiring_sum
                      (map (fun z => crf_score_sum b (crf_gen sc f z w e))
                         (range 0 nt))))
            (range (s + 1) e)))
      (CKY_CRF.scores sc b s (e - 1) x).
Proof.
  unfold crf_score_sum, crf_node_items.
  rewrite map_flat_map, sum_flat_map. rewrite sum_times_r.
  apply sum_ext. intros w _. cbv beta.
  rewrite map_flat_map, sum_flat_map. rewrite sum_times_r, sum_times_r.
  apply sum_ext. intros y _. cbv beta.
  rewrite map_flat_map, sum_flat_map. rewrite sum_times_l, sum_times_r.
  apply sum_ext. intros z _. cbv beta.
  rewrite map_flat_map, sum_flat_map.
  rewrite sum_times_r, sum_times_r.
  apply sum_ext. intros my _. cbv beta.
  rewrite map_flat_map, sum_flat_map.
  rewrite sum_times_l, sum_times_r.
  apply sum_ext. intros mz _. cbn [map fst crf_item]. apply sum_one.
Qed.

Lemma crf_enum_inside (d : nat) :
  forall fuel s,
    d < fuel -> s + d < n ->
    (forall x, x < nt ->
       exists l,
         CKY_CRF.enumerate_gen sc fuel x s (s + d + 1) = Ok l /\ l <> [])
    /\ forall b,
        semiring_sum
          (map (fun x => crf_score_sum b (crf_gen sc fuel x s (s + d + 1)))
             (range 0 nt))
        = CKY_CRF.inside sc d b s d.
Proof.
  induction d as [d IH] using lt_wf_ind. intros fuel s Hf Hs.
  destruct d as [|d'].
  - rewrite Nat.add_0_r. split.
    + intros x Hx. eexists. split; [apply crf_enum_leaf; lia|discriminate].
    + intros b. cbn [CKY_CRF.inside Nat.eqb].
      unfold CKY_CRF.diagonal, CKY_CRF.reduced_scores, convert.
      fold nt. rewrite Nat.add_0_r. unfold range. rewrite Nat.sub_0_r.
      apply sum_ext. intros x Hx. apply in_seq in Hx.
      erewrite crf_gen_ok by (apply crf_enum_leaf; lia).
      unfold crf_score_sum. cbn [map fst]. apply sum_one.
  - destruct fuel as [|f]; [lia|].
    set (e := s + S d' + 1).
    assert (HY : forall w, In w (range (s + 1) e) ->
               (forall y, In y (range 0 nt) ->
                  exists l, CKY_CRF.enumerate_gen sc f y s w = Ok l /\ l <> [])
               /\ forall b,
                   semiring_sum
                     (map (fun y => crf_score_sum b (crf_gen sc f y s w))
                        (range 0 nt))
                   = CKY_CRF.inside sc d' b s (w - s - 1)).
    { intros w Hw. apply in_range in Hw. unfold e in Hw.
      destruct (IH (w - s - 1) ltac:(lia) f s ltac:(lia) ltac:(lia))
        as [H1 H2].
      replace (s + (w - s - 1) + 1) with w in * by lia.
      split.
      - intros y Hy. apply in_range in Hy. apply H1. lia.
      - intros b. rewrite H2. symmetry. apply crf_inside_stable. lia. }
    assert (HZ : forall w, In w (range (s + 1) e) ->
               (forall z, In z (range 0 nt) ->
                  exists l, CKY_CRF.enumerate_gen sc f z w e = Ok l /\ l <> [])
               /\ forall b,
                   semiring_sum
                     (map (fun z => crf_score_sum b (crf_gen sc f z w e))
                        (range 0 nt))
                   = CKY_CRF.inside sc d' b w (d' - (w - s - 1))).
    { intros w Hw. apply in_range in Hw. unfold e in Hw.
      destruct (IH (d' - (w - s - 1)) ltac:(lia) f w ltac:(lia) ltac:(lia))
        as [H1 H2].
      replace (w + (d' - (w - s - 1)) + 1) with e in * by (unfold e; lia).
      split.
      - intros z Hz. apply in_range in Hz. apply H1. lia.
      - intros b. rewrite H2. symmetry. apply crf_inside_stable. lia. }
    assert (Hnode : forall x,
               CKY_CRF.enumerate_gen sc (S f) x s e
               = Ok (crf_node_items sc f x s e)).
    { intros x. apply crf_enum_node.
      - unfold e. lia.
      - intros w y Hw Hy. destruct (proj1 (HY w Hw) y Hy) as (l & E & _).
        rewrite E. f_equal. symmetry. now apply crf_gen_ok.
      - intros w z Hw Hz. destruct (proj1 (HZ w Hw) z Hz) as (l & E & _).
        rewrite E. f_equal. symmetry. now apply crf_gen_ok. }
    split.
    + intros x Hx. exists (crf_node_items sc f x s e). split; [apply Hnode|].
      assert (Hw : In (s + 1) (range (s + 1) e))
        by (apply in_range; unfold e; lia).
      assert (H0 : In 0 (range 0 nt)) by (apply in_range; lia).
      destruct (proj1 (HY _ Hw) 0 H0) as (ly & Ey & Ny).
      destruct (proj1 (HZ _ Hw) 0 H0) as (lz & Ez & Nz).
      destruct ly as [|my ly]; [congruence|].
      destruct lz as [|mz lz]; [congruence|].
      intros Hnil.
      assert (Hin : In (crf_item sc x s (s + 1) e my mz) (crf_node_items sc f x s e)).
      { unfold crf_node_items.
        apply in_flat_map. exists (s + 1). split; [exact Hw|].
        apply in_flat_map. exists 0. split; [exact H0|].
        apply in_flat_map. exists 0. split; [exact H0|].
        apply in_flat_map. exists my.
        split; [rewrite (@crf_gen_ok _ _ _ _ _ Ey); now left|].
        apply in_flat_map. exists mz.
        split; [rewrite (@crf_gen_ok _ _ _ _ _ Ez); now left|].
        now left. }
      rewrite Hnil in Hin. destruct Hin.
    + intros b.
      etransitivity.
      { apply sum_ext. intros x _.
        rewrite (@crf_gen_ok _ _ _ _ _ (Hnode x)). apply crf_score_sum_node. }
      rewrite <- sum_times_l.
      cbn [CKY_CRF.inside]. rewrite Nat.eqb_refl.
      unfold CKY_CRF.diagonal, CKY_CRF.reduced_scores, convert. fold nt.
      replace (e - 1) with (s + S d') by (unfold e; lia).
      apply (f_equal2 times); [|unfold range; now rewrite Nat.sub_0_r].
      unfold semiring_dot.
      change (range (s + 1) e) with (seq (s + 1) (e - (s + 1))).
      replace (e - (s + 1)) with (S d') by (unfold e; lia).
      rewrite sum_seq_shift. apply sum_ext. intros k Hk. apply in_seq in Hk.
      assert (Hw : In (s + 1 + k) (range (s + 1) e))
        by (apply in_range; unfold e; lia).
      rewrite (proj2 (HY _ Hw) b), (proj2 (HZ _ Hw) b).
      replace (s + 1 + k - s - 1) with k by lia.
      replace (s + 1 + k) with (s + k + 1) by lia.
      reflexivity.
Qed.

Lemma crf_dp_enumerate :
  1 <= n -> 1 <= nt ->
  exists r ls,
    CKY_CRF._dp sc None = Ok r
    /\ CKY_CRF.enumerate_scores sc = Ok ls
    /\ ls <> []
    /\ forall b, b < CKY_CRF.batch sc ->
         CKY_CRF.log_Z r b
         = semiring_sum (map (fun s : CKY_CRF.tensor1 => s b) ls).
Proof.
  intros Hn Hnt.
  destruct (crf_dp_none sc) as (r & Er & Hv); [fold n; lia|].
  destruct (@crf_enum_inside (n - 1) (S n) 0) as [Hgen Hsum]; [lia|lia|].
  replace (0 + (n - 1) + 1) with n in * by lia.
  set (g := fun x =>
              map (fun sp : CKY_CRF.tensor1 * list CKY_CRF.part =>
                     let '(s, _) := sp in s)
                (crf_gen sc (S n) x 0 n)).
  assert (Els : CKY_CRF.enumerate_scores sc = Ok (flat_map g (range 0 nt))).
  { unfold CKY_CRF.enumerate_scores. apply for__ok. intros x Hx.
    apply in_range in Hx.
    destruct (Hgen x ltac:(lia)) as (l & E & _). fold n. rewrite E.
    cbn [bind]. unfold g. now rewrite (@crf_gen_ok _ _ _ _ _ E). }
  exists r, (flat_map g (range 0 nt)).
  split; [exact Er|]. split; [exact Els|]. split.
  - destruct (Hgen 0 ltac:(lia)) as (l & E & Hne).
    destruct l as [|m l]; [congruence|].
    intros Hnil.
    assert (Hin : In ((fun sp : CKY_CRF.tensor1 * list CKY_CRF.part =>
                         let '(s, _) := sp in s) m)
                    (flat_map g (range 0 nt))).
    { apply in_flat_map. exists 0. split; [apply in_range; lia|].
      unfold g.
      apply (in_map (fun sp : CKY_CRF.tensor1 * list CKY_CRF.part =>
                       let '(s, _) := sp in s)
               (crf_gen sc (S n) 0 0 n) m).
      rewrite (@crf_gen_ok _ _ _ _ _ E). now left. }
    rewrite Hnil in Hin. destruct Hin.
  - intros b Hb. rewrite (Hv b Hb). fold n. rewrite <- Hsum.
    rewrite map_flat_map, sum_flat_map.
    apply sum_ext. intros x _. unfold crf_score_sum, g. rewrite map_map.
    apply sum_ext. intros [m p] _. reflexivity.
Qed.
End EnumerateCRF.

(* ================================================================== *)
(** ** Lemmas: the Log and Max semirings *)

Local Open Scope R_scope.

Lemma logaddexp_comm (a b : lg) : logaddexp a b = logaddexp b a.
Proof.
  destruct a as [|x], b as [|y]; simpl; try reflexivity.
  now rewrite Rplus_comm.
Qed.

Lemma logaddexp_assoc (a b c : lg) :
  logaddexp a (logaddexp b c) = logaddexp (logaddexp a b) c.
Proof.
  destruct a as [|x], b as [|y], c as [|z]; simpl; try reflexivity.
  f_equal. f_equal.
  rewrite !exp_ln.
  - ring.
  - pose proof (exp_pos x). pose proof (exp_pos y). lra.
  - pose proof (exp_pos y). pose proof (exp_pos z). lra.
Qed.

Lemma lg_add_logaddexp_l (a b c : lg) :
  lg_add a (logaddexp b c) = logaddexp (lg_add a b) (lg_add a c).
Proof.
  destruct a as [|x], b as [|y], c as [|z]; simpl; try reflexivity.
  f_equal.
  rewrite !exp_plus, <- Rmult_plus_distr_l.
  rewrite ln_mult.
  - now rewrite ln_exp.
  - apply exp_pos.
  - pose proof (exp_pos y). pose proof (exp_pos z). lra.
Qed.

Lemma lg_add_comm (a b : lg) : lg_add a b = lg_add b a.
Proof.
  destruct a as [|x], b as [|y]; simpl; try reflexivity.
  now rewrite Rplus_comm.
Qed.

Lemma LogLaws : SemiringLaws LogSemiring.
Proof.
  split; simpl.
  - apply logaddexp_comm.
  - apply logaddexp_assoc.
  - reflexivity.
  - reflexivity.
  - intros [|x]; reflexivity.
  - apply lg_add_logaddexp_l.
  - intros a b c.
    rewrite (lg_add_comm (logaddexp a b) c), lg_add_logaddexp_l.
    now rewrite (lg_add_comm c a), (lg_add_comm c b).
Qed.

Lemma Rplus_Rmax_l (x y z : R) : x + Rmax y z = Rmax (x + y) (x + z).
Proof.
  unfold Rmax. destruct (Rle_dec y z), (Rle_dec (x + y) (x + z)); lra.
Qed.

Lemma lg_max_comm (a b : lg) : lg_max a b = lg_max b a.
Proof.
  destruct a as [|x], b as [|y]; simpl; try reflexivity.
  now rewrite Rmax_comm.
Qed.

Lemma lg_add_max_l (a b c : lg) :
  lg_add a (lg_max b c) = lg_max (lg_add a b) (lg_add a c).
Proof.
  destruct a as [|x], b as [|y], c as [|z]; simpl; try reflexivity.
  now rewrite Rplus_Rmax_l.
Qed.

Lemma MaxLaws : SemiringLaws MaxSemiring.
Proof.
  split; simpl.
  - apply lg_max_comm.
  - intros [|x] [|y] [|z]; simpl; try reflexivity. now rewrite Rmax_assoc.
  - reflexivity.
  - reflexivity.
  - intros [|x]; reflexivity.
  - apply lg_add_max_l.
  - intros a b c.
    rewrite (lg_add_comm (lg_max a b) c), lg_add_max_l.
    now rewrite (lg_add_comm c a), (lg_add_comm c b).
Qed.

(** [semiring.sum] of the Log semiring is the log of the sum of the
    exponentials. *)
Lemma expE_nonneg (a : lg) : 0 <= expE a.
Proof. destruct a as [|x]; simpl; [lra|]. left. apply exp_pos. Qed.

Lemma sum_expE_nonneg (xs : list lg) : 0 <= fold_right Rplus 0 (map expE xs).
Proof.
  induction xs as [|a xs IH]; simpl; [lra|].
  pose proof (expE_nonneg a). lra.
Qed.

Lemma expE_lnE (x : R) : 0 <= x -> expE (lnE x) = x.
Proof.
  intros Hx. unfold lnE. destruct (Rle_dec x 0) as [H|H]; simpl.
  - lra.
  - apply exp_ln. lra.
Qed.

Lemma logaddexp_spec (a b : lg) : logaddexp a b = lnE (expE a + expE b).
Proof.
  assert (Hpos : forall x, lnE (exp x) = Fin x).
  { intros x. unfold lnE. destruct (Rle_dec (exp x) 0) as [H|H].
    - pose proof (exp_pos x). lra.
    - now rewrite ln_exp. }
  destruct a as [|x], b as [|y]; simpl.
  - rewrite Rplus_0_l. unfold lnE. destruct (Rle_dec 0 0); [reflexivity|lra].
  - now rewrite Rplus_0_l, Hpos.
  - now rewrite Rplus_0_r, Hpos.
  - unfold lnE. destruct (Rle_dec (exp x + exp y) 0) as [H|H]; [|reflexivity].
    pose proof (exp_pos x). pose proof (exp_pos y). lra.
Qed.

Lemma log_sum_fold (xs : list lg) :
  semiring_sum (SR := LogSemiring) xs = log_sum_exp xs.
Proof.
  unfold log_sum_exp. induction xs as [|a xs IH]; simpl.
  - unfold lnE. destruct (Rle_dec 0 0); [reflexivity|lra].
  - fold (semiring_sum (SR := LogSemiring) xs). rewrite IH.
    rewrite logaddexp_spec. rewrite expE_lnE by apply sum_expE_nonneg.
    reflexivity.
Qed.

(** [semiring.sum] of the Max semiring is the largest entry. *)
Lemma lg_le_refl (a : lg) : lg_le a a.
Proof. destruct a; simpl; [exact I|lra]. Qed.

Lemma lg_le_trans (a b c : lg) : lg_le a b -> lg_le b c -> lg_le a c.
Proof. destruct a, b, c; simpl; try tauto; lra. Qed.

Lemma lg_max_cases (a b : lg) : lg_max a b = a \/ lg_max a b = b.
Proof.
  destruct a as [|x], b as [|y]; simpl; auto.
  unfold Rmax. destruct (Rle_dec x y); auto.
Qed.

Lemma lg_max_l (a b : lg) : lg_le a (lg_max a b).
Proof.
  destruct a as [|x], b as [|y]; simpl; try exact I; try lra. apply Rmax_l.
Qed.

Lemma lg_max_r (a b : lg) : lg_le b (lg_max a b).
Proof.
  destruct a as [|x], b as [|y]; simpl; try exact I; try lra. apply Rmax_r.
Qed.

Lemma max_fold (xs : list lg) :
  xs <> [] -> is_max xs (semiring_sum (SR := MaxSemiring) xs).
Proof.
  induction xs as [|a xs IH]; [congruence|]. intros _.
  simpl. fold (semiring_sum (SR := MaxSemiring) xs).
  destruct xs as [|a' xs'].
  - simpl. replace (lg_max a NegInf) with a by (destruct a; reflexivity).
    split; [now left|]. intros x [<-|[]]. apply lg_le_refl.
  - destruct (IH ltac:(discriminate)) as [Hin Hub].
    set (m := semiring_sum (SR := MaxSemiring) (a' :: xs')) in *.
    split.
    + destruct (lg_max_cases a m) as [E|E]; rewrite E.
      * now left.
      * right. exact Hin.
    + intros x [<-|Hx].
      * apply lg_max_l.
      * eapply lg_le_trans; [apply Hub, Hx|apply lg_max_r].
Qed.

Local Close Scope R_scope.

(* ================================================================== *)
(** ** Lemmas: the structure codec *)

Lemma fold_left_raise {A B : Type} (f : result A -> B -> result A)
  (l : list B) (e : exn) :
  (forall b, f (Raise e) b = Raise e) ->
  fold_left f l (Raise e) = Raise e.
Proof.
  intros H. induction l as [|b l IH]; simpl; [reflexivity|].
  now rewrite H.
Qed.

Lemma in_nonzero (n1 n2 n3 : nat) (f : nat -> nat -> nat -> Z) (i j a : nat) :
  In (i, j, a) (CKY.nonzero n1 n2 n3 f)
  <-> i < n1 /\ j < n2 /\ a < n3 /\ f i j a <> 0%Z.
Proof.
  unfold CKY.nonzero. rewrite in_flat_map. split.
  - intros (i' & Hi & H). apply in_flat_map in H. destruct H as (j' & Hj & H).
    apply in_flat_map in H. destruct H as (a' & Ha & H).
    apply in_seq in Hi, Hj, Ha.
    destruct (Z.eqb_spec (f i' j' a') 0) as [E|E]; [destruct H|].
    destruct H as [H|[]]. inversion H; subst. repeat split; solve [lia | exact E].
  - intros (Hi & Hj & Ha & Hf). exists i. split; [apply in_seq; lia|].
    apply in_flat_map. exists j. split; [apply in_seq; lia|].
    apply in_flat_map. exists a. split; [apply in_seq; lia|].
    destruct (Z.eqb_spec (f i j a) 0) as [E|E]; [contradiction|now left].
Qed.

Lemma left_right_ok (n : nat) (cover : list (nat * nat * nat)) :
  (forall i j a, In (i, j, a) cover -> i < n /\ j < n) ->
  exists lf rt,
    CKY.left_right n cover = Ok (lf, rt)
    /\ (forall i, lf i = left_of cover i)
    /\ (forall j, rt j = right_of cover j).
Proof.
  intros Hin. unfold CKY.left_right.
  assert (G : forall (cov : list (nat * nat * nat)) lf0 rt0,
             (forall i j a, In (i, j, a) cov -> i < n /\ j < n) ->
             exists lf rt,
               fold_left
                 (fun acc ija =>
                    lr <- acc ;;
                    let '(left_, right_) := lr in
                    let '(i, j, a) := ija in
                    let width := (Z.of_nat j - Z.of_nat i + 1)%Z in
                    if (i <? n) && (j <? n)
                    then Ok (CKY.append_at left_ i (a, j, width),
                             CKY.append_at right_ j (a, i, width))
                    else Raise KeyError)
                 cov (Ok (lf0, rt0)) = Ok (lf, rt)
               /\ (forall i, lf i = lf0 i ++ left_of cov i)
               /\ (forall j, rt j = rt0 j ++ right_of cov j)).
  { induction cov as [|[[i j] a] cov IH]; intros lf0 rt0 Hc.
    - exists lf0, rt0. simpl. split; [reflexivity|].
      split; intros; now rewrite app_nil_r.
    - cbn [fold_left bind].
      destruct (Hc i j a (or_introl eq_refl)) as [Hi Hj].
      replace (i <? n) with true by (symmetry; apply Nat.ltb_lt; lia).
      replace (j <? n) with true by (symmetry; apply Nat.ltb_lt; lia).
      cbn [andb].
      destruct (IH (CKY.append_at lf0 i (a, j, (Z.of_nat j - Z.of_nat i + 1)%Z))
                  (CKY.append_at rt0 j (a, i, (Z.of_nat j - Z.of_nat i + 1)%Z)))
        as (lf & rt & E & Hl & Hr).
      { intros i' j' a' H. apply (Hc i' j' a'). now right. }
      exists lf, rt. split; [exact E|]. split.
      + intros i'. rewrite Hl. unfold CKY.append_at. cbn [left_of flat_map].
        rewrite (Nat.eqb_sym i i').
        destruct (i' =? i); [now rewrite <- app_assoc|reflexivity].
      + intros j'. rewrite Hr. unfold CKY.append_at. cbn [right_of flat_map].
        rewrite (Nat.eqb_sym j j').
        destruct (j' =? j); [now rewrite <- app_assoc|reflexivity]. }
  destruct (G cover (fun _ => []) (fun _ => []) Hin) as (lf & rt & E & Hl & Hr).
  exists lf, rt. split; [exact E|]. split; intros; [apply Hl|apply Hr].
Qed.

Lemma in_left_of (cover : list (nat * nat * nat)) (i : nat) (a k : nat) (w : Z) :
  In (a, k, w) (left_of cover i)
  <-> In (i, k, a) cover /\ w = (Z.of_nat k - Z.of_nat i + 1)%Z.
Proof.
  unfold left_of. rewrite in_flat_map. split.
  - intros ([[i' j] a'] & Hin & H).
    destruct (Nat.eqb_spec i' i) as [->|Hne]; [|destruct H].
    destruct H as [H|[]]. inversion H; subst. auto.
  - intros [Hin ->]. exists (i, k, a). split; [exact Hin|].
    rewrite Nat.eqb_refl. now left.
Qed.

Lemma in_right_of (cover : list (nat * nat * nat)) (j : nat) (a k : nat) (w : Z) :
  In (a, k, w) (right_of cover j)
  <-> In (k, j, a) cover /\ w = (Z.of_nat j - Z.of_nat k + 1)%Z.
Proof.
  unfold right_of. rewrite in_flat_map. split.
  - intros ([[i j'] a'] & Hin & H).
    destruct (Nat.eqb_spec j' j) as [->|Hne]; [|destruct H].
    destruct H as [H|[]]. inversion H; subst. auto.
  - intros [Hin ->]. exists (k, j, a). split; [exact Hin|].
    rewrite Nat.eqb_refl. now left.
Qed.

Lemma inner_match_some (k : nat) (a_span width : Z) (rs : list CKY.entry) :
  (exists c, CKY.inner_match k a_span width rs = Some c)
  <-> exists c b_span,
        In (c, k + 1, b_span) rs /\ (a_span + b_span)%Z = width.
Proof.
  unfold CKY.inner_match. split.
  - intros (c & H).
    destruct (find _ rs) as [[[c' k2] bs]|] eqn:E; [|discriminate].
    apply find_some in E. destruct E as [Hin Ht].
    apply andb_prop in Ht. destruct Ht as [H1 H2].
    apply Nat.eqb_eq in H1. apply Z.eqb_eq in H2. subst k2.
    exists c', bs. auto.
  - intros (c & bs & Hin & Hw).
    destruct (find _ rs) as [[[c' k2] bs']|] eqn:E; [eauto|].
    exfalso. apply (find_none _ _ E) in Hin. cbv beta iota in Hin.
    rewrite Nat.eqb_refl in Hin. cbn [andb] in Hin.
    apply Z.eqb_neq in Hin. contradiction.
Qed.

Lemma find_split_some (ls rs : list CKY.entry) (width : Z) :
  (exists bc, CKY.find_split ls rs width = Some bc)
  <-> exists b k a_span,
        In (b, k, a_span) ls
        /\ exists c, CKY.inner_match k a_span width rs = Some c.
Proof.
  unfold CKY.find_split.
  assert (G : forall l acc,
             (exists bc,
                 fold_left
                   (fun bc (e : CKY.entry) =>
                      let '(b_p, k, a_span) := e in
                      match CKY.inner_match k a_span width rs with
                      | Some c_p => Some (b_p, c_p)
                      | None => bc
                      end) l acc = Some bc)
             <-> (exists bc, acc = Some bc)
                 \/ exists b k a_span,
                      In (b, k, a_span) l
                      /\ exists c, CKY.inner_match k a_span width rs = Some c).
  { induction l as [|[[b k] a] l IH]; intros acc; cbn [fold_left].
    - split; [intros H; now left|].
      intros [H|(b & k & a & [] & _)]. exact H.
    - rewrite IH. split.
      + intros [(bc & H)|(b' & k' & a' & Hin & Hc)].
        * destruct (CKY.inner_match k a width rs) as [c|] eqn:E.
          -- right. exists b, k, a. split; [now left|eauto].
          -- left. eauto.
        * right. exists b', k', a'. split; [now right|exact Hc].
      + intros [(bc & ->)|(b' & k' & a' & [Hin|Hin] & Hc)].
        * left. destruct (CKY.inner_match k a width rs); eauto.
        * inversion Hin; subst. destruct Hc as (c & ->). left. eauto.
        * right. exists b', k', a'. auto. }
  rewrite G. split; [|intros H; now right].
  intros [(bc & H)|H]; [discriminate|exact H].
Qed.

Lemma find_split_cover (cover : list (nat * nat * nat)) (i j : nat) :
  (exists bc,
      CKY.find_split (left_of cover i) (right_of cover j)
        (Z.of_nat j - Z.of_nat i + 1) = Some bc)
  <-> splits cover i j.
Proof.
  rewrite find_split_some. unfold splits. split.
  - intros (b & k & w & Hin & Hc).
    apply in_left_of in Hin. destruct Hin as [Hin _].
    apply inner_match_some in Hc. destruct Hc as (c & bs & Hc & _).
    apply in_right_of in Hc. destruct Hc as [Hc _].
    exists k, b, c. auto.
  - intros (k & y & z & Hy & Hz).
    exists y, k, (Z.of_nat k - Z.of_nat i + 1)%Z. split.
    + apply in_left_of. auto.
    + apply inner_match_some.
      exists z, (Z.of_nat j - Z.of_nat (k + 1) + 1)%Z. split.
      * apply in_right_of. auto.
      * lia.
Qed.

Lemma count_rules_cases (nt b : nat) (lf rt : nat -> list CKY.entry)
  (cover0 : list (nat * nat * nat)) :
  (forall i, lf i = left_of cover0 i) ->
  (forall j, rt j = right_of cover0 j) ->
  forall (cover : list (nat * nat * nat)) (rules : CKY.tensor),
    (forall i j a, In (i, j, a) cover -> i < j -> a < nt) ->
    (exists rules',
        CKY.count_rules nt lf rt b cover rules = Ok rules'
        /\ forall i j a, In (i, j, a) cover -> i < j -> splits cover0 i j)
    \/ (CKY.count_rules nt lf rt b cover rules = Raise AssertionError
        /\ exists i j a, In (i, j, a) cover /\ i < j /\ ~ splits cover0 i j).
Proof.
  intros Hl Hr. unfold CKY.count_rules.
  induction cover as [|[[i j] a] cover IH]; intros rules Hnt.
  - left. exists rules. split; [reflexivity|]. intros i j a [].
  - cbn [fold_left bind]. rewrite Hl, Hr.
    destruct (i <? j) eqn:Eij.
    + apply Nat.ltb_lt in Eij.
      destruct (CKY.find_split (left_of cover0 i) (right_of cover0 j)
                  (Z.of_nat j - Z.of_nat i + 1)) as [[y z]|] eqn:E.
      * unfold CKY.count_rule.
        replace (a <? nt) with true
          by (symmetry; apply Nat.ltb_lt; apply (Hnt i j a); [now left|lia]).
        match goal with
        | |- context [fold_left _ cover (Ok ?r)] =>
            destruct (IH r) as [(rules' & E' & Hs)|(E' & Hs)]
        end.
        -- intros i' j' a' H. apply Hnt. now right.
        -- left. exists rules'. split; [exact E'|].
           intros i' j' a' [H|H] Hlt.
           ++ inversion H; subst. apply find_split_cover. eauto.
           ++ eapply Hs; eauto.
        -- right. split; [exact E'|].
           destruct Hs as (i' & j' & a' & H & Hlt & Hn).
           exists i', j', a'. split; [now right|auto].
      * right. split.
        -- apply fold_left_raise. reflexivity.
        -- exists i, j, a. split; [now left|]. split; [exact Eij|].
           intros Hs. apply find_split_cover in Hs.
           destruct Hs as (bc & Hs). congruence.
    + apply Nat.ltb_ge in Eij.
      destruct (IH rules) as [(rules' & E' & Hs)|(E' & Hs)].
      * intros i' j' a' H. apply Hnt. now right.
      * left. exists rules'. split; [exact E'|].
        intros i' j' a' [H|H] Hlt.
        -- inversion H; subst. lia.
        -- eapply Hs; eauto.
      * right. split; [exact E'|].
        destruct Hs as (i' & j' & a' & H & Hlt & Hn).
        exists i', j', a'. split; [now right|auto].
Qed.

Lemma to_parts_batch_cases (spans : CKY.tensor) (nt t batch n : nat)
  (ls : list Z) (acc : CKY.tensor * CKY.tensor * CKY.tensor) (b : nat) :
  labelling_ok spans nt t batch n ls -> b < batch ->
  (exists acc',
      CKY.to_parts_batch spans nt t n n (Some ls) acc b = Ok acc'
      /\ forall i j a, In (i, j, a) (cover_of spans n (nt + t) b) -> i < j ->
           splits (cover_of spans n (nt + t) b) i j)
  \/ (CKY.to_parts_batch spans nt t n n (Some ls) acc b = Raise AssertionError
      /\ exists i j a,
           In (i, j, a) (cover_of spans n (nt + t) b) /\ i < j
           /\ ~ splits (cover_of spans n (nt + t) b) i j).
Proof.
  intros [Hsh Hn Hlen Hrange Hwide Hupper] Hb.
  destruct acc as [[terms rules] roots].
  unfold CKY.to_parts_batch. cbn [bind].
  destruct (nth_error ls b) as [l|] eqn:El.
  2:{ apply nth_error_None in El. lia. }
  cbn [bind].
  assert (Hl : (0 <= l <= Z.of_nat n)%Z).
  { rewrite Forall_forall in Hrange. apply Hrange.
    eapply nth_error_In; eauto. }
  replace (py_index n 0%Z) with (Ok 0)
    by (symmetry; apply (py_index_nat (n := n) (k := 0)); lia).
  cbn [bind].
  destruct (@py_index_valid n l ltac:(lia)) as (jr & Ejr). rewrite Ejr.
  cbn [bind].
  replace (l <? 0)%Z with false by (symmetry; apply Z.ltb_ge; lia).
  cbn [bind].
  replace (Z.to_nat l <=? n) with true by (symmetry; apply Nat.leb_le; lia).
  cbn [andb bind].
  fold (cover_of spans n (nt + t) b).
  destruct (@left_right_ok n (cover_of spans n (nt + t) b))
    as (lf & rt & Elr & Hlf & Hrt).
  { intros i j a H. apply in_nonzero in H. lia. }
  rewrite Elr. cbn [bind].
  destruct (@count_rules_cases nt b lf rt (cover_of spans n (nt + t) b)
              Hlf Hrt (cover_of spans n (nt + t) b) rules)
    as [(rules' & E & Hs)|(E & Hs)].
  - intros i j a H Hlt. apply in_nonzero in H.
    destruct H as (Hi & Hj & Ha & Hd). eapply Hwide; eauto.
  - left. rewrite E. cbn [bind]. eexists. split; [reflexivity|exact Hs].
  - right. rewrite E. cbn [bind]. split; [reflexivity|exact Hs].
Qed.

Lemma to_parts_cases (spans : CKY.tensor) (nt t batch n : nat) (ls : list Z) :
  labelling_ok spans nt t batch n ls ->
  (exists p,
      CKY.to_parts spans (nt, t) (Some ls) = Ok p
      /\ forall b i j a,
           b < batch -> In (i, j, a) (cover_of spans n (nt + t) b) -> i < j ->
           splits (cover_of spans n (nt + t) b) i j)
  \/ (CKY.to_parts spans (nt, t) (Some ls) = Raise AssertionError
      /\ exists b i j a,
           b < batch /\ In (i, j, a) (cover_of spans n (nt + t) b) /\ i < j
           /\ ~ splits (cover_of spans n (nt + t) b) i j).
Proof.
  intros Hok. unfold CKY.to_parts. rewrite (lo_shape Hok).
  rewrite Nat.eqb_refl. cbn [bind].
  assert (G : forall (bs : list nat) acc,
             (forall b, In b bs -> b < batch) ->
             (exists p,
                 fold_left
                   (fun acc b =>
                      a <- acc ;; CKY.to_parts_batch spans nt t n n (Some ls) a b)
                   bs (Ok acc) = Ok p
                 /\ forall b i j a,
                      In b bs -> In (i, j, a) (cover_of spans n (nt + t) b) ->
                      i < j -> splits (cover_of spans n (nt + t) b) i j)
             \/ (fold_left
                   (fun acc b =>
                      a <- acc ;; CKY.to_parts_batch spans nt t n n (Some ls) a b)
                   bs (Ok acc) = Raise AssertionError
                 /\ exists b i j a,
                      In b bs /\ In (i, j, a) (cover_of spans n (nt + t) b)
                      /\ i < j /\ ~ splits (cover_of spans n (nt + t) b) i j)).
  { induction bs as [|b bs IH]; intros acc Hbs.
    - left. exists acc. split; [reflexivity|]. intros b i j a [].
    - cbn [fold_left bind].
      destruct (@to_parts_batch_cases spans nt t batch n ls acc b Hok
                  (Hbs b (or_introl eq_refl)))
        as [(acc' & E & Hs)|(E & Hs)]; rewrite E.
      + destruct (IH acc') as [(p & E' & Hs')|(E' & Hs')].
        * intros b' H. apply Hbs. now right.
        * left. exists p. split; [exact E'|].
          intros b' i j a [<-|H] Hin Hlt; [eapply Hs; eauto|eapply Hs'; eauto].
        * right. split; [exact E'|].
          destruct Hs' as (b' & i & j & a & H & Hr).
          exists b', i, j, a. split; [now right|exact Hr].
      + right. split.
        * apply fold_left_raise. reflexivity.
        * destruct Hs as (i & j & a & Hr).
          exists b, i, j, a. split; [now left|exact Hr]. }
  destruct (G (range 0 batch)
              (CKY.zeros [batch; n; t], CKY.zeros [batch; nt; nt + t; nt + t],
               CKY.zeros [batch; nt]))
    as [(p & E & Hs)|(E & Hs)].
  - intros b Hb. apply in_range in Hb. lia.
  - left. exists p. split; [exact E|].
    intros b i j a Hb. apply Hs. apply in_range. lia.
  - right. split; [exact E|].
    destruct Hs as (b & i & j & a & Hb & Hr).
    exists b, i, j, a. split; [apply in_range in Hb; lia|exact Hr].
Qed.

(** *** Trees *)

Lemma leaves_pos (tr : CKY.tree) : 1 <= CKY.leaves tr.
Proof. induction tr; simpl; lia. Qed.

Lemma spans_of_bounds (nt : nat) (tr : CKY.tree) :
  forall s i j a,
    In (i, j, a) (CKY.spans_of nt s tr) ->
    s <= i /\ i <= j /\ j < s + CKY.leaves tr.
Proof.
  induction tr as [t|a0 l IHl r IHr]; intros s i j a H.
  - destruct H as [H|[]]. inversion H; subst. simpl. lia.
  - pose proof (leaves_pos l). pose proof (leaves_pos r).
    cbn [CKY.spans_of CKY.leaves] in *.
    destruct H as [H|H].
    + inversion H; subst. lia.
    + apply in_app_or in H. destruct H as [H|H].
      * apply IHl in H. lia.
      * apply IHr in H. lia.
Qed.

Lemma spans_of_root (nt : nat) (tr : CKY.tree) (s : nat) :
  In (s, s + CKY.leaves tr - 1, CKY.label nt tr) (CKY.spans_of nt s tr).
Proof.
  destruct tr as [t|a l r]; cbn [CKY.spans_of CKY.leaves CKY.label].
  - left. f_equal. f_equal. lia.
  - now left.
Qed.

Lemma spans_of_labels (nt t : nat) (tr : CKY.tree) :
  CKY.well_formed nt t tr ->
  forall s i j a,
    In (i, j, a) (CKY.spans_of nt s tr) ->
    a < nt + t /\ (i < j -> a < nt) /\ (i = j -> nt <= a).
Proof.
  induction tr as [x|a0 l IHl r IHr]; intros Hwf s i j a H.
  - destruct H as [H|[]]. inversion H; subst. simpl in Hwf. lia.
  - destruct Hwf as (Ha & Hl & Hr).
    pose proof (leaves_pos l). pose proof (leaves_pos r).
    cbn [CKY.spans_of CKY.leaves] in H. destruct H as [H|H].
    + inversion H; subst. lia.
    + apply in_app_or in H. destruct H as [H|H]; eauto.
Qed.

(** Every span of a tree wider than one position is tiled by two spans of
    the tree. *)
Lemma spans_of_split (nt : nat) (tr : CKY.tree) :
  forall s i j a,
    In (i, j, a) (CKY.spans_of nt s tr) -> i < j ->
    exists k y z,
      In (i, k, y) (CKY.spans_of nt s tr)
      /\ In (k + 1, j, z) (CKY.spans_of nt s tr).
Proof.
  induction tr as [x|a0 l IHl r IHr]; intros s i j a H Hlt.
  - destruct H as [H|[]]. inversion H; subst. lia.
  - pose proof (leaves_pos l). pose proof (leaves_pos r).
    cbn [CKY.spans_of CKY.leaves] in *. destruct H as [H|H].
    + inversion H; subst.
      exists (i + CKY.leaves l - 1), (CKY.label nt l), (CKY.label nt r).
      split; right; apply in_or_app.
      * left. apply spans_of_root.
      * right.
        replace (i + CKY.leaves l - 1 + 1) with (i + CKY.leaves l) by lia.
        replace (i + (CKY.leaves l + CKY.leaves r) - 1)
          with (i + CKY.leaves l + CKY.leaves r - 1) by lia.
        apply spans_of_root.
    + apply in_app_or in H. destruct H as [H|H].
      * destruct (IHl _ _ _ _ H Hlt) as (k & y & z & Hy & Hz).
        exists k, y, z. split; right; apply in_or_app; now left.
      * destruct (IHr _ _ _ _ H Hlt) as (k & y & z & Hy & Hz).
        exists k, y, z. split; right; apply in_or_app; now right.
Qed.

Lemma triple_eqb_spec (x y : nat * nat * nat) :
  CKY.triple_eqb x y = true <-> x = y.
Proof.
  destruct x as [[a b] c], y as [[a' b'] c']. unfold CKY.triple_eqb.
  rewrite !Bool.andb_true_iff, !Nat.eqb_eq. split.
  - intros [[-> ->] ->]. reflexivity.
  - intros H. inversion H. auto.
Qed.

Lemma existsb_triple (x : nat * nat * nat) (l : list (nat * nat * nat)) :
  existsb (CKY.triple_eqb x) l = true <-> In x l.
Proof.
  rewrite existsb_exists. split.
  - intros (y & Hin & E). apply triple_eqb_spec in E. now subst.
  - intros H. exists x. split; [exact H|]. now apply triple_eqb_spec.
Qed.

Lemma indicator_nonzero (b : bool) : CKY.indicator b <> 0%Z <-> b = true.
Proof. destruct b; simpl; split; intros; congruence || lia. Qed.

Lemma dense_labelled (nt t n : nat) (tr : CKY.tree) (b i j a : nat) :
  CKY.data (CKY.dense_labels nt t n tr) [b; i; j; a] <> 0%Z
  <-> In (i, j, a) (CKY.spans_of nt 0 tr).
Proof.
  cbn [CKY.data CKY.dense_labels].
  rewrite indicator_nonzero. apply existsb_triple.
Qed.

Lemma dense_labelling_ok (nt t n : nat) (tr : CKY.tree) :
  CKY.well_formed nt t tr -> CKY.leaves tr <= n ->
  labelling_ok (CKY.dense_labels nt t n tr) nt t 1 n
    [Z.of_nat (CKY.leaves tr)].
Proof.
  intros Hwf Hn. pose proof (leaves_pos tr). split.
  - reflexivity.
  - lia.
  - simpl. lia.
  - constructor; [lia|constructor].
  - intros b i j a _ Hij _ _ Hd. apply dense_labelled in Hd.
    eapply spans_of_labels in Hd; [|exact Hwf]. now apply Hd.
  - intros b i j a _ Hji _ _.
    destruct (Z.eq_dec (CKY.data (CKY.dense_labels nt t n tr) [b; i; j; a]) 0)
      as [E|E]; [exact E|].
    apply dense_labelled in E.
    pose proof (@spans_of_bounds nt tr 0 i j a E). lia.
Qed.

Lemma dense_splits (nt t n : nat) (tr : CKY.tree) (b i j a : nat) :
  CKY.well_formed nt t tr -> CKY.leaves tr <= n ->
  In (i, j, a) (cover_of (CKY.dense_labels nt t n tr) n (nt + t) b) ->
  i < j ->
  splits (cover_of (CKY.dense_labels nt t n tr) n (nt + t) b) i j.
Proof.
  intros Hwf Hn Hin Hlt. unfold cover_of in *.
  apply in_nonzero in Hin. destruct Hin as (_ & _ & _ & Hd).
  apply dense_labelled in Hd.
  destruct (@spans_of_split nt tr 0 i j a Hd Hlt) as (k & y & z & Hy & Hz).
  exists k, y, z. split; apply in_nonzero.
  - pose proof (@spans_of_bounds nt tr 0 i k y Hy).
    pose proof (@spans_of_labels nt t tr Hwf 0 i k y Hy).
    repeat split; try lia. now apply dense_labelled.
  - pose proof (@spans_of_bounds nt tr 0 (k + 1) j z Hz).
    pose proof (@spans_of_labels nt t tr Hwf 0 (k + 1) j z Hz).
    repeat split; try lia. now apply dense_labelled.
Qed.

(** *** When [to_parts] fails *)

Lemma splits_has_split (spans : CKY.tensor) (nt t batch n : nat)
  (ls : list Z) (b i j : nat) :
  labelling_ok spans nt t batch n ls -> b < batch -> i < n -> j < n ->
  splits (cover_of spans n (nt + t) b) i j
  <-> has_split spans (nt + t) b i j.
Proof.
  intros Hok Hb Hi Hj. unfold splits, has_split, labelled, cover_of. split.
  - intros (k & y & z & Hy & Hz). apply in_nonzero in Hy, Hz.
    destruct Hy as (_ & Hk & Hy & Dy), Hz as (Hk1 & _ & Hz & Dz).
    exists k, y, z.
    assert (Hik : i <= k).
    { destruct (Nat.le_gt_cases i k) as [Hle|Hgt]; [exact Hle|].
      elim Dy. apply (lo_upper Hok); assumption. }
    assert (Hkj : k < j).
    { destruct (Nat.le_gt_cases (k + 1) j) as [Hle|Hgt]; [lia|].
      elim Dz. apply (lo_upper Hok); lia || assumption. }
    repeat split; lia || assumption.
  - intros (k & y & z & Hk & Hy & Hz & Dy & Dz).
    exists k, y, z. split; apply in_nonzero; repeat split; lia || assumption.
Qed.

Lemma unsplit_span_cover (spans : CKY.tensor) (nt t batch n : nat)
  (ls : list Z) :
  labelling_ok spans nt t batch n ls ->
  (unsplit_span spans batch n (nt + t)
   <-> exists b i j a,
         b < batch /\ In (i, j, a) (cover_of spans n (nt + t) b) /\ i < j
         /\ ~ splits (cover_of spans n (nt + t) b) i j).
Proof.
  intros Hok. unfold unsplit_span. split.
  - intros (b & i & j & a & Hb & Hij & Hj & Ha & Hl & Hn).
    exists b, i, j, a. split; [exact Hb|]. split.
    + apply in_nonzero. repeat split; lia || exact Hl.
    + split; [exact Hij|].
      now rewrite (@splits_has_split _ _ _ _ _ _ b i j Hok) by lia.
  - intros (b & i & j & a & Hb & Hin & Hij & Hn).
    apply in_nonzero in Hin. destruct Hin as (Hi & Hj & Ha & Hd).
    exists b, i, j, a. repeat split; try lia; try exact Hd.
    now rewrite <- (@splits_has_split _ _ _ _ _ _ b i j Hok) by lia.
Qed.

Lemma to_parts_tree_ok (nt t m : nat) (tr : CKY.tree) :
  CKY.well_formed nt t tr -> CKY.leaves tr <= m ->
  exists p,
    CKY.to_parts (CKY.dense_labels nt t m tr) (nt, t)
      (Some [Z.of_nat (CKY.leaves tr)]) = Ok p.
Proof.
  intros Hwf Hm.
  destruct (to_parts_cases (@dense_labelling_ok nt t m tr Hwf Hm))
    as [(p & E & Hs)|(E & b & i & j & a & Hb & Hin & Hij & Hn)].
  - eauto.
  - exfalso. apply Hn. eapply dense_splits; eauto.
Qed.

(** C6, as amended: on a labelling of the expected form (square, over
    the declared alphabet, with a length in [0 .. N] per batch element,
    nonterminals on the spans wider than one position and no entry below
    the diagonal) [CKY.to_parts] fails with its assertion exactly when some
    labelled span [(i, j)] wider than one position has no split point
    [i <= k < j] and child labels carried by the spans [(i, k)] and
    [(k + 1, j)]; otherwise it returns the parts.  On the dense labelling of
    any well-formed binary tree it returns the parts. *)
Theorem to_parts_assertion (spans : CKY.tensor) (nt t batch n : nat)
  (ls : list Z) (tr : CKY.tree) (m : nat) :
  (labelling_ok spans nt t batch n ls ->
   (CKY.to_parts spans (nt, t) (Some ls) = Raise AssertionError
    <-> unsplit_span spans batch n (nt + t)))
  /\ (labelling_ok spans nt t batch n ls ->
      ~ unsplit_span spans batch n (nt + t) ->
      exists p, CKY.to_parts spans (nt, t) (Some ls) = Ok p)
  /\ (CKY.well_formed nt t tr -> CKY.leaves tr <= m ->
      exists p,
        CKY.to_parts (CKY.dense_labels nt t m tr) (nt, t)
          (Some [Z.of_nat (CKY.leaves tr)]) = Ok p).
Proof.
  split; [|split].
  - intros Hok. rewrite (unsplit_span_cover Hok).
    destruct (to_parts_cases Hok) as [(p & E & Hs)|(E & Hs)].
    + rewrite E. split; [discriminate|].
      intros (b & i & j & a & Hb & Hin & Hij & Hn).
      exfalso. apply Hn. eapply Hs; eauto.
    + rewrite E. split; [intros _; exact Hs|reflexivity].
  - intros Hok Hn. rewrite (unsplit_span_cover Hok) in Hn.
    destruct (to_parts_cases Hok) as [(p & E & Hs)|(E & Hs)].
    + eauto.
    + contradiction.
  - apply to_parts_tree_ok.
Qed.

(** *** [from_parts] on the parts of a tree *)

Lemma label_bound (nt t : nat) (tr : CKY.tree) :
  CKY.well_formed nt t tr -> CKY.label nt tr < nt + t.
Proof. destruct tr; simpl; intros H; lia. Qed.

Lemma leaves_node (a : nat) (l r : CKY.tree) :
  2 <= CKY.leaves (CKY.TNode a l r).
Proof. pose proof (leaves_pos l). pose proof (leaves_pos r). simpl. lia. Qed.

Lemma rules_of_bounds (nt : nat) (tr : CKY.tree) :
  forall s w i a y z,
    In (w, i, a, y, z) (CKY.rules_of nt s tr) ->
    s <= i /\ i + w + 1 < s + CKY.leaves tr.
Proof.
  induction tr as [x|a0 l IHl r IHr]; intros s w i a y z H.
  - destruct H.
  - pose proof (leaves_pos l). pose proof (leaves_pos r).
    cbn [CKY.rules_of CKY.leaves] in *. destruct H as [H|H].
    + inversion H; subst. lia.
    + apply in_app_or in H. destruct H as [H|H].
      * apply IHl in H. lia.
      * apply IHr in H. lia.
Qed.

Lemma rules_of_in_spans (nt t : nat) (tr : CKY.tree) :
  CKY.well_formed nt t tr ->
  forall s w i a y z,
    In (w, i, a, y, z) (CKY.rules_of nt s tr) ->
    In (i, i + w + 1, a) (CKY.spans_of nt s tr) /\ y < nt + t /\ z < nt + t.
Proof.
  induction tr as [x|a0 l IHl r IHr]; intros Hwf s w i a y z H.
  - destruct H.
  - destruct Hwf as (Ha & Hl & Hr).
    pose proof (leaves_pos l). pose proof (leaves_pos r).
    cbn [CKY.rules_of CKY.spans_of CKY.leaves] in *. destruct H as [H|H].
    + inversion H; subst. split; [|split].
      * left. f_equal. f_equal. lia.
      * now apply label_bound.
      * now apply label_bound.
    + apply in_app_or in H. destruct H as [H|H].
      * destruct (IHl Hl _ _ _ _ _ _ H) as (Hsp & Hyz).
        split; [right; apply in_or_app; now left|exact Hyz].
      * destruct (IHr Hr _ _ _ _ _ _ H) as (Hsp & Hyz).
        split; [right; apply in_or_app; now right|exact Hyz].
Qed.

Lemma spans_in_rules_of (nt : nat) (tr : CKY.tree) :
  forall s i j a,
    In (i, j, a) (CKY.spans_of nt s tr) -> i < j ->
    exists y z, In (j - i - 1, i, a, y, z) (CKY.rules_of nt s tr).
Proof.
  induction tr as [x|a0 l IHl r IHr]; intros s i j a H Hlt.
  - destruct H as [H|[]]. inversion H; subst. lia.
  - pose proof (leaves_pos l). pose proof (leaves_pos r).
    cbn [CKY.rules_of CKY.spans_of CKY.leaves] in *. destruct H as [H|H].
    + inversion H; subst. exists (CKY.label nt l), (CKY.label nt r).
      left. f_equal. f_equal. f_equal. f_equal. lia.
    + apply in_app_or in H. destruct H as [H|H].
      * destruct (IHl _ _ _ _ H Hlt) as (y & z & Hin).
        exists y, z. right. apply in_or_app. now left.
      * destruct (IHr _ _ _ _ H Hlt) as (y & z & Hin).
        exists y, z. right. apply in_or_app. now right.
Qed.

(** A tree applies at most one rule at a span. *)
Lemma rules_of_unique (nt : nat) (tr : CKY.tree) :
  forall s w i a y z a' y' z',
    In (w, i, a, y, z) (CKY.rules_of nt s tr) ->
    In (w, i, a', y', z') (CKY.rules_of nt s tr) ->
    a = a' /\ y = y' /\ z = z'.
Proof.
  induction tr as [x|a0 l IHl r IHr]; intros s w i a y z a' y' z' H H'.
  - destruct H.
  - pose proof (leaves_pos l). pose proof (leaves_pos r).
    cbn [CKY.rules_of CKY.leaves] in *.
    destruct H as [H|H]; destruct H' as [H'|H'].
    + inversion H; inversion H'; subst. auto.
    + inversion H; subst. apply in_app_or in H'. destruct H' as [H'|H'];
        apply rules_of_bounds in H'; lia.
    + inversion H'; subst. apply in_app_or in H. destruct H as [H|H];
        apply rules_of_bounds in H; lia.
    + apply in_app_or in H, H'. destruct H as [H|H]; destruct H' as [H'|H'].
      * eapply IHl; eauto.
      * apply rules_of_bounds in H, H'. lia.
      * apply rules_of_bounds in H, H'. lia.
      * eapply IHr; eauto.
Qed.

Lemma existsb_rule (w i a y z : nat) (l : list (nat * nat * nat * nat * nat)) :
  existsb (CKY.rule_eqb w i a y z) l = true <-> In (w, i, a, y, z) l.
Proof.
  rewrite existsb_exists. split.
  - intros ([[[[w' i'] a'] y'] z'] & Hin & E). unfold CKY.rule_eqb in E.
    rewrite !Bool.andb_true_iff, !Nat.eqb_eq in E.
    destruct E as [[[[-> ->] ->] ->] ->]. exact Hin.
  - intros H. exists (w, i, a, y, z). split; [exact H|].
    unfold CKY.rule_eqb. now rewrite !Nat.eqb_refl.
Qed.

Lemma zsum_zero {A : Type} (f : A -> Z) (l : list A) :
  (forall a, In a l -> f a = 0%Z) -> zsum (map f l) = 0%Z.
Proof.
  induction l as [|a l IH]; intros H; simpl; [reflexivity|].
  rewrite IH by (intros; apply H; now right).
  rewrite (H a) by now left. reflexivity.
Qed.

Lemma zsum_single (f : nat -> Z) (n k0 : nat) (v : Z) :
  k0 < n -> f k0 = v ->
  (forall k, k < n -> k <> k0 -> f k = 0%Z) ->
  zsum (map f (seq 0 n)) = v.
Proof.
  intros Hk Hv Hz.
  assert (G : forall lo m,
             lo <= k0 < lo + m ->
             (forall k, lo <= k < lo + m -> k <> k0 -> f k = 0%Z) ->
             zsum (map f (seq lo m)) = v).
  { intros lo m. revert lo. induction m as [|m IH]; intros lo Hlo Hf; [lia|].
    simpl. destruct (Nat.eq_dec lo k0) as [->|Hne].
    - rewrite Hv. fold (zsum (map f (seq (S k0) m))).
      rewrite zsum_zero; [lia|].
      intros k Hin. apply in_seq in Hin. apply Hf; lia.
    - rewrite (Hf lo) by lia. fold (zsum (map f (seq (S lo) m))).
      rewrite IH; [lia|lia|]. intros k Hk' Hne'. apply Hf; lia. }
  apply G; [lia|]. intros k Hk' Hne. apply Hz; lia.
Qed.

(** Summing the rule indicators of a tree over the child labels leaves the
    indicator of the span. *)
Lemma rules_sum_is_span (nt t : nat) (tr : CKY.tree) (i j a : nat) :
  CKY.well_formed nt t tr -> i < j ->
  zsum
    (map (fun y =>
            zsum
              (map (fun z =>
                      CKY.indicator
                        (existsb (CKY.rule_eqb (j - i - 1) i a y z)
                           (CKY.rules_of nt 0 tr)))
                 (seq 0 (nt + t))))
       (seq 0 (nt + t)))
  = CKY.indicator (existsb (CKY.triple_eqb (i, j, a)) (CKY.spans_of nt 0 tr)).
Proof.
  intros Hwf Hij.
  destruct (existsb (CKY.triple_eqb (i, j, a)) (CKY.spans_of nt 0 tr)) eqn:E.
  - apply existsb_triple in E.
    destruct (@spans_in_rules_of nt tr 0 i j a E Hij) as (y0 & z0 & Hin).
    destruct (@rules_of_in_spans nt t tr Hwf 0 _ _ _ _ _ Hin) as (_ & Hy0 & Hz0).
    apply zsum_single with (k0 := y0); [exact Hy0| |].
    + apply zsum_single with (k0 := z0); [exact Hz0| |].
      * apply existsb_rule in Hin. now rewrite Hin.
      * intros z Hz Hne.
        destruct (existsb (CKY.rule_eqb (j - i - 1) i a y0 z) _) eqn:E'; [|reflexivity].
        apply existsb_rule in E'.
        destruct (@rules_of_unique nt tr 0 _ _ _ _ _ _ _ _ Hin E') as (_ & _ & Hzz).
        congruence.
    + intros y Hy Hne. apply zsum_zero. intros z _.
      destruct (existsb (CKY.rule_eqb (j - i - 1) i a y z) _) eqn:E'; [|reflexivity].
      apply existsb_rule in E'.
      destruct (@rules_of_unique nt tr 0 _ _ _ _ _ _ _ _ Hin E') as (_ & Hyy & _).
      congruence.
  - apply zsum_zero. intros y _. apply zsum_zero. intros z _.
    destruct (existsb (CKY.rule_eqb (j - i - 1) i a y z) _) eqn:E'; [|reflexivity].
    apply existsb_rule in E'.
    destruct (@rules_of_in_spans nt t tr Hwf 0 _ _ _ _ _ E') as (Hs & _).
    replace (i + (j - i - 1) + 1) with j in Hs by lia.
    apply existsb_triple in Hs. congruence.
Qed.

(** The loop of [from_parts] over the width index, after [m] rounds. *)
Lemma from_parts_loop (n nt m : nat) (rules2 : nat -> nat -> nat -> nat -> Z)
  (init : list nat -> Z) (b i j a : nat) :
  fold_left
    (fun (sp : list nat -> Z) n' =>
       fun ix =>
         match ix with
         | [b; i; j; a] =>
             if (i <? n - n' - 1) && (j =? i + n' + 1) && (a <? nt)
             then rules2 b n' i a
             else sp ix
         | _ => sp ix
         end)
    (seq 0 m) init [b; i; j; a]
  = if (i <? j) && (j - i - 1 <? m) && (j <? n) && (a <? nt)
    then rules2 b (j - i - 1) i a
    else init [b; i; j; a].
Proof.
  induction m as [|m IH].
  - simpl. now rewrite Bool.andb_false_r.
  - rewrite seq_S, fold_left_app. cbn [fold_left Nat.add]. rewrite IH.
    repeat match goal with
      | |- context [Nat.ltb ?x ?y] => destruct (Nat.ltb_spec x y)
      | |- context [Nat.eqb ?x ?y] => destruct (Nat.eqb_spec x y)
      end;
      cbn [andb]; try reflexivity; try lia; f_equal; lia.
Qed.

Lemma from_parts_loop_other (n nt m : nat)
  (rules2 : nat -> nat -> nat -> nat -> Z) (init : list nat -> Z)
  (ix : list nat) :
  length ix <> 4 ->
  fold_left
    (fun (sp : list nat -> Z) n' =>
       fun ix =>
         match ix with
         | [b; i; j; a] =>
             if (i <? n - n' - 1) && (j =? i + n' + 1) && (a <? nt)
             then rules2 b n' i a
             else sp ix
         | _ => sp ix
         end)
    (seq 0 m) init ix
  = init ix.
Proof.
  intros Hlen. induction m as [|m IH]; [reflexivity|].
  rewrite seq_S, fold_left_app. cbn [fold_left Nat.add].
  destruct ix as [|b [|i [|j [|a [|x rest]]]]]; try exact IH.
  simpl in Hlen. lia.
Qed.

(** [from_parts] gives back the dense labelling of a tree from its
    position-indexed parts. *)
Lemma from_parts_tree_parts (nt t n : nat) (tr : CKY.tree) :
  CKY.well_formed nt t tr -> CKY.leaves tr <= n ->
  exists sp,
    CKY.from_parts (CKY.tree_parts nt t n tr) = Ok (sp, (nt, t))
    /\ CKY.tensor_eq sp (CKY.dense_labels nt t n tr).
Proof.
  intros Hwf Hn. unfold CKY.from_parts, CKY.tree_parts.
  cbn [CKY.shape]. rewrite Nat.eqb_refl. cbn [bind].
  replace (n <=? n) with true by (symmetry; apply Nat.leb_le; lia).
  replace (nt <=? nt + t) with true by (symmetry; apply Nat.leb_le; lia).
  cbn [bind].
  replace (nt + t - nt) with t by lia.
  destruct (list_eq_dec Nat.eq_dec [1; n; t] [1; n; t]) as [_|Hne];
    [|congruence].
  cbn [bind].
  eexists. split; [reflexivity|].
  split; [reflexivity|].
  intros ix. cbn [CKY.data CKY.dense_labels].
  destruct ix as [|b [|i [|j [|a [|x rest]]]]];
    try (unfold range; rewrite from_parts_loop_other by (simpl; lia);
         reflexivity).
  unfold range. rewrite Nat.sub_0_r, from_parts_loop.
  destruct ((i <? n) && (j =? i) && (nt <=? a) && (a <? nt + t)) eqn:E1.
  - rewrite !Bool.andb_true_iff in E1. destruct E1 as [[[_ E] Ea] _].
    apply Nat.eqb_eq in E. apply Nat.leb_le in Ea. subst j.
    now replace (nt + (a - nt)) with a by lia.
  - destruct ((i <? j) && (j - i - 1 <? n) && (j <? n) && (a <? nt)) eqn:E2.
    + rewrite !Bool.andb_true_iff in E2. destruct E2 as [[[Eij _] _] _].
      apply Nat.ltb_lt in Eij.
      unfold CKY.sum_last_two. cbn [CKY.data].
      apply (@rules_sum_is_span nt t tr i j a Hwf Eij).
    + destruct (existsb (CKY.triple_eqb (i, j, a)) (CKY.spans_of nt 0 tr))
        eqn:E3; [|reflexivity].
      exfalso. apply existsb_triple in E3.
      pose proof (@spans_of_bounds nt tr 0 i j a E3) as Hb.
      pose proof (@spans_of_labels nt t tr Hwf 0 i j a E3) as Hl.
      rewrite !Bool.andb_false_iff in E1, E2.
      repeat rewrite ?Nat.ltb_ge, ?Nat.leb_gt, ?Nat.eqb_neq in E1.
      repeat rewrite ?Nat.ltb_ge, ?Nat.leb_gt, ?Nat.eqb_neq in E2.
      lia.
Qed.

(** Whenever [to_parts] returns, its rule counts have four axes, and
    [from_parts] asks for six. *)
Lemma count_rules_shape (nt b : nat) (lf rt : nat -> list CKY.entry)
  (cover : list (nat * nat * nat)) :
  forall rules rules',
    CKY.count_rules nt lf rt b cover rules = Ok rules' ->
    CKY.shape rules' = CKY.shape rules.
Proof.
  unfold CKY.count_rules.
  induction cover as [|[[i j] a] cover IH]; intros rules rules' H.
  - inversion H. reflexivity.
  - cbn [fold_left bind] in H.
    destruct (i <? j).
    + destruct (CKY.find_split _ _ _) as [[y z]|].
      * unfold CKY.count_rule in H. destruct (a <? nt).
        -- apply IH in H. exact H.
        -- rewrite fold_left_raise in H by reflexivity. discriminate.
      * rewrite fold_left_raise in H by reflexivity. discriminate.
    + now apply IH in H.
Qed.

Lemma to_parts_batch_shape (spans : CKY.tensor) (nt t n1 n : nat)
  (lengths : option (list Z)) (te ru ro te' ru' ro' : CKY.tensor) (b : nat) :
  CKY.to_parts_batch spans nt t n1 n lengths (te, ru, ro) b = Ok (te', ru', ro') ->
  CKY.shape ru' = CKY.shape ru.
Proof.
  unfold CKY.to_parts_batch. intros H.
  destruct lengths as [ls|]; [|discriminate]. cbn [bind] in H.
  destruct (nth_error ls b) as [l|]; [|discriminate]. cbn [bind] in H.
  destruct (py_index n1 0); [|discriminate]. cbn [bind] in H.
  destruct (py_index n (l - 1)); [|discriminate]. cbn [bind] in H.
  destruct (l <? 0)%Z; [discriminate|]. cbn [bind] in H.
  destruct ((Z.to_nat l <=? n1) && (Z.to_nat l <=? n)); [|discriminate].
  cbn [bind] in H.
  destruct (CKY.left_right _ _) as [[lf rt]|]; [|discriminate].
  cbn [bind] in H.
  destruct (CKY.count_rules _ _ _ _ _ _) as [ru2|] eqn:E; [|discriminate].
  cbn [bind] in H. inversion H; subst.
  now apply count_rules_shape in E.
Qed.

Lemma to_parts_rules_shape (spans : CKY.tensor) (nt t : nat)
  (lengths : option (list Z)) (te ru ro : CKY.tensor) :
  CKY.to_parts spans (nt, t) lengths = Ok (te, ru, ro) ->
  exists batch s, CKY.shape ru = [batch; nt; s; s].
Proof.
  unfold CKY.to_parts.
  destruct (CKY.shape spans) as [|batch [|n1 [|n [|s [|x rest]]]]];
    try discriminate.
  destruct (s =? nt + t); [|discriminate]. cbn [bind].
  assert (G : forall (bs : list nat) te0 ru0 ro0,
             fold_left
               (fun acc b =>
                  a <- acc ;; CKY.to_parts_batch spans nt t n1 n lengths a b)
               bs (Ok (te0, ru0, ro0)) = Ok (te, ru, ro) ->
             CKY.shape ru = CKY.shape ru0).
  { induction bs as [|b bs IH]; intros te0 ru0 ro0 H.
    - inversion H. reflexivity.
    - cbn [fold_left bind] in H.
      destruct (CKY.to_parts_batch spans nt t n1 n lengths (te0, ru0, ro0) b)
        as [[[te1 ru1] ro1]|] eqn:E.
      + apply IH in H. rewrite H. now apply to_parts_batch_shape in E.
      + rewrite fold_left_raise in H by reflexivity. discriminate. }
  intros H. apply G in H. exists batch, s. exact H.
Qed.

Lemma from_parts_after_to_parts (spans : CKY.tensor) (nt t : nat)
  (lengths : option (list Z)) (p : CKY.tensor * CKY.tensor * CKY.tensor) :
  CKY.to_parts spans (nt, t) lengths = Ok p ->
  CKY.from_parts p = Raise ValueError.
Proof.
  destruct p as [[te ru] ro]. intros H.
  destruct (@to_parts_rules_shape spans nt t lengths te ru ro H)
    as (batch & s & Hs).
  unfold CKY.from_parts. now rewrite Hs.
Qed.

(* ================================================================== *)
(** ** Concrete inputs *)

(* ================================================================== *)
(** ** The claims *)

Lemma enumerate_of_scores {K : Type} {SR : Semiring K}
  (sc : CKY.potentials (K := K)) (ls : list CKY.tensor1) :
  CKY.enumerate_scores sc = Ok ls -> ls <> [] ->
  CKY.enumerate sc
  = Ok (fun b => semiring_sum (map (fun s : CKY.tensor1 => s b) ls)).
Proof.
  intros E Hne. unfold CKY.enumerate. rewrite E. cbn [bind].
  destruct ls; [congruence|reflexivity].
Qed.

(** C1, as amended: for every grammar with [N >= 2] words, [NT >= 1]
    nonterminals, [T >= 1] terminals and a non-empty batch, the total that
    [CKY._dp] returns under the Log semiring is what [CKY.enumerate]
    returns, which is the log of the sum of the exponentiated scores of all
    enumerated derivations. *)
Theorem cky_log_total_is_enumerated (sc : CKY.potentials (K := lg)) :
  2 <= CKY.N sc -> 1 <= CKY.NT sc -> 1 <= CKY.T sc -> 1 <= CKY.batch sc ->
  exists r ve ls,
    CKY._dp (SR := LogSemiring) sc None = Ok r
    /\ CKY.enumerate (SR := LogSemiring) sc = Ok ve
    /\ CKY.enumerate_scores (SR := LogSemiring) sc = Ok ls
    /\ ls <> []
    /\ forall b, b < CKY.batch sc ->
         CKY.v r b = ve b
         /\ ve b = log_sum_exp (map (fun s : CKY.tensor1 => s b) ls).
Proof.
  intros Hn Hnt Ht Hb.
  destruct (dp_enumerate (LW := LogLaws) sc Hn Hnt Ht Hb)
    as (r & ls & Er & Els & Hne & Hv).
  exists r, (fun b => semiring_sum (SR := LogSemiring)
                        (map (fun s : CKY.tensor1 => s b) ls)), ls.
  split; [exact Er|]. split; [now apply enumerate_of_scores|].
  split; [exact Els|]. split; [exact Hne|].
  intros b Hbb. split; [now apply Hv|]. apply log_sum_fold.
Qed.

Lemma cky_log_total_is_enumerated_witness :
  exists r ve ls,
    CKY._dp (SR := LogSemiring) (two_leaves 1) None = Ok r
    /\ CKY.enumerate (SR := LogSemiring) (two_leaves 1) = Ok ve
    /\ CKY.enumerate_scores (SR := LogSemiring) (two_leaves 1) = Ok ls
    /\ ls <> []
    /\ forall b, b < CKY.batch (two_leaves 1) ->
         CKY.v r b = ve b
         /\ ve b = log_sum_exp (map (fun s : CKY.tensor1 => s b) ls).
Proof.
  apply (cky_log_total_is_enumerated (two_leaves 1)); simpl; lia.
Defined.

(** C1 fails on a single leaf ([N = 1]): the chart has no nonterminal cell
    of width one, so [_dp] returns [zero], while [enumerate] reads
    [terms[:, 0, x - NT]] at the negative index [-1] and returns a finite
    score. *)
Lemma cky_log_single_leaf_differs :
  exists r ve,
    CKY._dp (SR := LogSemiring) single_leaf None = Ok r
    /\ CKY.enumerate (SR := LogSemiring) single_leaf = Ok ve
    /\ CKY.v r 0 = NegInf
    /\ ve 0 = Fin (0 + 0)
    /\ CKY.v r 0 <> ve 0.
Proof.
  eexists. eexists.
  split; [reflexivity|]. split; [reflexivity|].
  split; [reflexivity|]. split; [reflexivity|].
  discriminate.
Qed.

(** C2, as amended: for every grammar with [N >= 2], [NT >= 1], [T >= 1]
    and a non-empty batch, the total that [CKY._dp] returns under the Max
    semiring is what [CKY.enumerate] returns, which is the largest score
    among all enumerated derivations. *)
Theorem cky_max_total_is_enumerated (sc : CKY.potentials (K := lg)) :
  2 <= CKY.N sc -> 1 <= CKY.NT sc -> 1 <= CKY.T sc -> 1 <= CKY.batch sc ->
  exists r ve ls,
    CKY._dp (SR := MaxSemiring) sc None = Ok r
    /\ CKY.enumerate (SR := MaxSemiring) sc = Ok ve
    /\ CKY.enumerate_scores (SR := MaxSemiring) sc = Ok ls
    /\ forall b, b < CKY.batch sc ->
         CKY.v r b = ve b
         /\ is_max (map (fun s : CKY.tensor1 => s b) ls) (ve b).
Proof.
  intros Hn Hnt Ht Hb.
  destruct (dp_enumerate (LW := MaxLaws) sc Hn Hnt Ht Hb)
    as (r & ls & Er & Els & Hne & Hv).
  exists r, (fun b => semiring_sum (SR := MaxSemiring)
                        (map (fun s : CKY.tensor1 => s b) ls)), ls.
  split; [exact Er|]. split; [now apply enumerate_of_scores|].
  split; [exact Els|].
  intros b Hbb. split; [now apply Hv|]. apply max_fold.
  destruct ls; [congruence|discriminate].
Qed.

Lemma cky_max_total_is_enumerated_witness :
  exists r ve ls,
    CKY._dp (SR := MaxSemiring) (constant_grammar 2 3 2 2 1) None = Ok r
    /\ CKY.enumerate (SR := MaxSemiring) (constant_grammar 2 3 2 2 1) = Ok ve
    /\ CKY.enumerate_scores (SR := MaxSemiring) (constant_grammar 2 3 2 2 1)
       = Ok ls
    /\ forall b, b < CKY.batch (constant_grammar 2 3 2 2 1) ->
         CKY.v r b = ve b
         /\ is_max (map (fun s : CKY.tensor1 => s b) ls) (ve b).
Proof.
  apply (cky_max_total_is_enumerated (constant_grammar 2 3 2 2 1)); simpl; lia.
Defined.

(** C2 fails on a single leaf ([N = 1]), for the reason C1 does. *)
Lemma cky_max_single_leaf_differs :
  exists r ve,
    CKY._dp (SR := MaxSemiring) single_leaf None = Ok r
    /\ CKY.enumerate (SR := MaxSemiring) single_leaf = Ok ve
    /\ CKY.v r 0 = NegInf
    /\ ve 0 = Fin (0 + 0)
    /\ CKY.v r 0 <> ve 0.
Proof.
  eexists. eexists.
  split; [reflexivity|]. split; [reflexivity|].
  split; [reflexivity|]. split; [reflexivity|].
  discriminate.
Qed.

(** C4, as amended: let two inputs have the same grammar on batch element
    [b] and the same length [L] there, with [1 <= L] and both padded sizes
    at least [L], and let their terminal scores agree at the positions
    below [L].  Then [CKY._dp] returns the same total for [b] on both,
    whatever stands in the positions from [L] on. *)
Theorem padding_does_not_change_total {K : Type} {SR : Semiring K}
  (sc sc' : CKY.potentials (K := K)) (ls ls' : list Z) (b L : nat) :
  length ls = CKY.batch sc -> length ls' = CKY.batch sc' ->
  b < CKY.batch sc -> b < CKY.batch sc' ->
  same_grammar sc sc' b ->
  1 <= L -> L <= CKY.N sc -> L <= CKY.N sc' ->
  nth b ls 0%Z = Z.of_nat L -> nth b ls' 0%Z = Z.of_nat L ->
  Forall (fun l => (- Z.of_nat (CKY.N sc) < l <= Z.of_nat (CKY.N sc))%Z) ls ->
  Forall (fun l => (- Z.of_nat (CKY.N sc') < l <= Z.of_nat (CKY.N sc'))%Z) ls' ->
  (forall i t, i < L -> CKY.terms sc b i t = CKY.terms sc' b i t) ->
  exists r r',
    CKY._dp sc (Some ls) = Ok r
    /\ CKY._dp sc' (Some ls') = Ok r'
    /\ CKY.v r b = CKY.v r' b.
Proof.
  intros Hlen Hlen' Hb Hb' G HL HLn HLn' Hnth Hnth' Hall Hall' Hterms.
  destruct (_dp_some sc ls (row_of_length (CKY.N sc))) as (r & Er & Hv);
    try lia.
  { intros l Hl. rewrite Forall_forall in Hall.
    destruct (@py_index_valid _ _ (Hall l Hl)) as (j & Ej).
    unfold row_of_length. now rewrite Ej. }
  destruct (_dp_some sc' ls' (row_of_length (CKY.N sc'))) as (r' & Er' & Hv');
    try lia.
  { intros l Hl. rewrite Forall_forall in Hall'.
    destruct (@py_index_valid _ _ (Hall' l Hl)) as (j & Ej).
    unfold row_of_length. now rewrite Ej. }
  exists r, r'. split; [exact Er|]. split; [exact Er'|].
  rewrite (Hv b Hb), (Hv' b Hb'), Hnth, Hnth'.
  unfold row_of_length. rewrite !py_index_pred by lia.
  apply total_at_local; [exact G|].
  intros i t Hi. apply Hterms. lia.
Qed.

Lemma padding_does_not_change_total_witness :
  exists r r',
    CKY._dp (SR := MaxSemiring) (two_leaves_padded 0) (Some [1%Z]) = Ok r
    /\ CKY._dp (SR := MaxSemiring) (two_leaves_padded 1) (Some [1%Z]) = Ok r'
    /\ CKY.v r 0 = CKY.v r' 0.
Proof.
  apply (@padding_does_not_change_total lg MaxSemiring
           (two_leaves_padded 0) (two_leaves_padded 1) [1%Z] [1%Z] 0 1);
    simpl; try lia; try reflexivity.
  - repeat split.
  - constructor; [lia|constructor].
  - constructor; [lia|constructor].
  - intros i t Hi. replace i with 0 by lia. reflexivity.
Defined.

(** C4 fails at [lengths[b] = 0]: the row index [lengths[b] - 1 = -1]
    counts from the end, so [_dp] reads the cell of the full padded width
    and the padded position [1] changes the total. *)
Lemma padding_changes_total_at_length_zero :
  exists r r',
    CKY._dp (SR := MaxSemiring) (two_leaves_padded 0) (Some [0%Z]) = Ok r
    /\ CKY._dp (SR := MaxSemiring) (two_leaves_padded 1) (Some [0%Z]) = Ok r'
    /\ (forall i t, i < 0 ->
          CKY.terms (two_leaves_padded 0) 0 i t
          = CKY.terms (two_leaves_padded 1) 0 i t)
    /\ CKY.v r 0 <> CKY.v r' 0.
Proof.
  eexists. eexists.
  split; [reflexivity|]. split; [reflexivity|].
  split; [intros i t Hi; lia|].
  cbn. intros H. injection H as H. lra.
Qed.

(** C8: after the loop has run the widths [1 .. w] (for any [w <= N - 1]),
    the two orientations of the chart mirror each other: for every width
    [1 <= w' <= w], batch element [b], start [i <= N - w' - 1] and state
    [s], [beta[B][b, i + w', N - 1 - w', s] = beta[A][b, i, w', s]], and
    the width-0 cells satisfy [beta[B][b, j, N - 1, t] = beta[A][b, j, 0, t]]
    for every position [j] and state [t]. *)
Theorem chart_orientations_mirror {K : Type} {SR : Semiring K}
  (sc : CKY.potentials (K := K)) (w w' b i s : nat) :
  let st :=
    fold_left (CKY.step sc CKY.id_tape) (range 1 (S w))
      (CKY.init sc (fun b i t => convert (CKY.terms sc b i t))) in
  w < CKY.N sc -> 1 <= w' <= w -> i + w' < CKY.N sc ->
  CKY.beta_B st b (i + w') (CKY.N sc - 1 - w') s = CKY.beta_A st b i w' s
  /\ forall j t, j < CKY.N sc ->
       CKY.beta_B st b j (CKY.N sc - 1) t = CKY.beta_A st b j 0 t.
Proof.
  intros st Hw Hw' Hi.
  assert (Est : st = run sc w).
  { unfold st, run, range. now replace (S w - 1) with w by lia. }
  destruct (chart_inv_run sc Hw) as [IA IB _]. rewrite Est.
  split.
  - rewrite IB by lia. rewrite IA by lia. f_equal. lia.
  - intros j t Hj.
    replace (CKY.N sc - 1) with (CKY.N sc - 1 - 0) by lia.
    rewrite IB by lia. rewrite IA by lia. f_equal. lia.
Qed.

Lemma chart_orientations_mirror_witness :
  CKY.beta_B (run (SR := LogSemiring) (constant_grammar 2 4 2 2 1) 2)
    1 (1 + 2) (4 - 1 - 2) 0
  = CKY.beta_A (run (SR := LogSemiring) (constant_grammar 2 4 2 2 1) 2) 1 1 2 0
  /\ forall j t, j < 4 ->
       CKY.beta_B (run (SR := LogSemiring) (constant_grammar 2 4 2 2 1) 2)
         1 j (4 - 1) t
       = CKY.beta_A (run (SR := LogSemiring) (constant_grammar 2 4 2 2 1) 2)
           1 j 0 t.
Proof.
  apply (@chart_orientations_mirror lg LogSemiring
           (constant_grammar 2 4 2 2 1) 2 2 1 1 0); simpl; lia.
Defined.

(** C9: for every span-score tensor with [N >= 1] and [NT >= 1], the total
    that [CKY_CRF._dp] returns under the Log semiring is the log-sum-exp of
    the scores of all derivations [CKY_CRF.enumerate] produces, and under
    the Max semiring it is the largest of them; both are what
    [CKY_CRF.enumerate] itself returns. *)
Theorem crf_totals_are_enumerated (sc : CKY_CRF.potentials (K := lg)) :
  1 <= CKY_CRF.N sc -> 1 <= CKY_CRF.NT sc ->
  (exists r ve ls,
      CKY_CRF._dp (SR := LogSemiring) sc None = Ok r
      /\ CKY_CRF.enumerate (SR := LogSemiring) sc = Ok ve
      /\ CKY_CRF.enumerate_scores (SR := LogSemiring) sc = Ok ls
      /\ forall b, b < CKY_CRF.batch sc ->
           CKY_CRF.log_Z r b = ve b
           /\ ve b = log_sum_exp (map (fun s : CKY_CRF.tensor1 => s b) ls))
  /\ (exists r ve ls,
         CKY_CRF._dp (SR := MaxSemiring) sc None = Ok r
         /\ CKY_CRF.enumerate (SR := MaxSemiring) sc = Ok ve
         /\ CKY_CRF.enumerate_scores (SR := MaxSemiring) sc = Ok ls
         /\ forall b, b < CKY_CRF.batch sc ->
              CKY_CRF.log_Z r b = ve b
              /\ is_max (map (fun s : CKY_CRF.tensor1 => s b) ls) (ve b)).
Proof.
  intros Hn Hnt. split.
  - destruct (crf_dp_enumerate (LW := LogLaws) sc Hn Hnt)
      as (r & ls & Er & Els & Hne & Hv).
    exists r, (fun b => semiring_sum (SR := LogSemiring)
                          (map (fun s : CKY_CRF.tensor1 => s b) ls)), ls.
    split; [exact Er|]. split.
    { unfold CKY_CRF.enumerate. rewrite Els. cbn [bind].
      destruct ls; [congruence|reflexivity]. }
    split; [exact Els|].
    intros b Hb. split; [now apply Hv|]. apply log_sum_fold.
  - destruct (crf_dp_enumerate (LW := MaxLaws) sc Hn Hnt)
      as (r & ls & Er & Els & Hne & Hv).
    exists r, (fun b => semiring_sum (SR := MaxSemiring)
                          (map (fun s : CKY_CRF.tensor1 => s b) ls)), ls.
    split; [exact Er|]. split.
    { unfold CKY_CRF.enumerate. rewrite Els. cbn [bind].
      destruct ls; [congruence|reflexivity]. }
    split; [exact Els|].
    intros b Hb. split; [now apply Hv|]. apply max_fold.
    destruct ls; [congruence|discriminate].
Qed.

Lemma crf_totals_are_enumerated_witness :
  (exists r ve ls,
      CKY_CRF._dp (SR := LogSemiring) (constant_spans 2 3 2 1) None = Ok r
      /\ CKY_CRF.enumerate (SR := LogSemiring) (constant_spans 2 3 2 1) = Ok ve
      /\ CKY_CRF.enumerate_scores (SR := LogSemiring) (constant_spans 2 3 2 1) = Ok ls
      /\ forall b, b < CKY_CRF.batch (constant_spans 2 3 2 1) ->
           CKY_CRF.log_Z r b = ve b
           /\ ve b = log_sum_exp (map (fun s : CKY_CRF.tensor1 => s b) ls))
  /\ (exists r ve ls,
         CKY_CRF._dp (SR := MaxSemiring) (constant_spans 2 3 2 1) None = Ok r
         /\ CKY_CRF.enumerate (SR := MaxSemiring) (constant_spans 2 3 2 1) = Ok ve
         /\ CKY_CRF.enumerate_scores (SR := MaxSemiring) (constant_spans 2 3 2 1) = Ok ls
         /\ forall b, b < CKY_CRF.batch (constant_spans 2 3 2 1) ->
              CKY_CRF.log_Z r b = ve b
              /\ is_max (map (fun s : CKY_CRF.tensor1 => s b) ls) (ve b)).
Proof.
  apply (crf_totals_are_enumerated (constant_spans 2 3 2 1)); simpl; lia.
Defined.

(** C10: with [lengths] omitted, [CKY._dp] and [CKY_CRF._dp] return exactly
    what they return with [lengths] set to the full length [N] for every
    batch element. *)
Theorem lengths_default_is_full_length {K : Type} {SR : Semiring K}
  (sc : CKY.potentials (K := K)) (sc' : CKY_CRF.potentials (K := K)) :
  CKY._dp sc None
  = CKY._dp sc (Some (repeat (Z.of_nat (CKY.N sc)) (CKY.batch sc)))
  /\ CKY_CRF._dp sc' None
     = CKY_CRF._dp sc'
         (Some (repeat (Z.of_nat (CKY_CRF.N sc')) (CKY_CRF.batch sc'))).
Proof.
  split.
  - unfold CKY._dp, CKY._dp_on. reflexivity.
  - unfold CKY_CRF._dp. reflexivity.
Qed.

(* ================================================================== *)
(** ** The two-leaf scenario and its marginals *)

Local Open Scope R_scope.

Lemma slope_one (h : R -> R) (c : R) :
  (forall x, h x = x + c) -> derivable_pt_lim h 0 1.
Proof.
  intros Hh eps Heps. exists (mkposreal 1 Rlt_0_1). intros k Hk _.
  rewrite !Hh.
  replace ((0 + k + c - (0 + c)) / k - 1) with 0 by (field; exact Hk).
  rewrite Rabs_R0. exact Heps.
Qed.

Lemma slope_zero (h : R -> R) (c : R) :
  (forall x, h x = c) -> derivable_pt_lim h 0 0.
Proof.
  intros Hh eps Heps. exists (mkposreal 1 Rlt_0_1). intros k Hk _.
  rewrite !Hh.
  replace ((c - c) / k - 0) with 0 by (field; exact Hk).
  rewrite Rabs_R0. exact Heps.
Qed.

Lemma derivable_pt_lim_pointwise (h h' : R -> R) (x g : R) :
  (forall y, h y = h' y) -> derivable_pt_lim h x g -> derivable_pt_lim h' x g.
Proof.
  intros E D eps Heps. destruct (D eps Heps) as (delta & Hd).
  exists delta. intros k Hk Hkd. rewrite <- !E. now apply Hd.
Qed.

Lemma grad_unique (f : R -> result lg) (g1 g2 : R) :
  Autograd.grad f g1 -> Autograd.grad f g2 -> g1 = g2.
Proof.
  intros (h1 & E1 & D1) (h2 & E2 & D2).
  apply (uniqueness_limite h1 0); [exact D1|].
  apply (@derivable_pt_lim_pointwise h2 h1 0 g2); [|exact D2].
  intros y. specialize (E1 y). specialize (E2 y).
  rewrite E1 in E2. now injection E2.
Qed.

Lemma two_leaf_marginals_ok :
  Autograd.marginals LogSemiring (two_leaves 1) None two_leaf_marginals.
Proof.
  unfold Autograd.marginals.
  cbn [CKY.N CKY.NT CKY.T CKY.batch two_leaves constant_grammar].
  repeat split.
  - intros b i t Hb Hi Ht.
    assert (b = 0%nat) by lia. assert (t = 0%nat) by lia. subst b t.
    destruct i as [|[|i]]; [| |lia].
    + exists (fun eps => 1 + eps + 1 + 1 + 1 + 0).
      split; [intros eps; reflexivity|].
      apply (@slope_one _ 4). intros x. cbv beta. lra.
    + exists (fun eps => 1 + (1 + eps) + 1 + 1 + 0).
      split; [intros eps; reflexivity|].
      apply (@slope_one _ 4). intros x. cbv beta. lra.
  - intros b w i x y z Hb Hw Hi Hx Hy Hz.
    assert (b = 0%nat) by lia. assert (w = 0%nat) by lia.
    assert (i = 0%nat) by lia. assert (x = 0%nat) by lia. subst b w i x.
    destruct y as [|[|y]]; [| |lia]; destruct z as [|[|z]]; try lia.
    + exists (fun _ => 1 + 1 + 1 + 1 + 0).
      split; [intros eps; reflexivity|].
      apply (@slope_zero _ 4). intros x. cbv beta. lra.
    + exists (fun _ => 1 + 1 + 1 + 1 + 0).
      split; [intros eps; reflexivity|].
      apply (@slope_zero _ 4). intros x. cbv beta. lra.
    + exists (fun _ => 1 + 1 + 1 + 1 + 0).
      split; [intros eps; reflexivity|].
      apply (@slope_zero _ 4). intros x. cbv beta. lra.
    + exists (fun eps => 1 + 1 + 1 + eps + 1 + 0).
      split; [intros eps; reflexivity|].
      apply (@slope_one _ 4). intros x. cbv beta. lra.
  - intros b w i x y z H. cbn.
    destruct w as [|w]; [|reflexivity].
    destruct i as [|i]; [|reflexivity].
    exfalso. apply H. lia.
  - intros b x Hb Hx.
    assert (b = 0%nat) by lia. assert (x = 0%nat) by lia. subst b x.
    exists (fun eps => 1 + 1 + 1 + eps + 1 + 0).
    split; [intros eps; reflexivity|].
    apply (@slope_one _ 4). intros x. cbv beta. lra.
Qed.

Local Close Scope R_scope.

(** C3: in the two-leaf scenario ([batch = 1], [N = 2], [NT = 1], [T = 1],
    every score [1.0]) [CKY._dp] returns the total [4.0] under the Log
    semiring, and the marginals [CKY.marginals] returns are [1.0] on both
    terminal entries, on the terminal-terminal rule entry and on the root
    entry. *)
Theorem two_leaf_scenario_total_and_marginals :
  (exists r,
      CKY._dp (SR := LogSemiring) (two_leaves 1) None = Ok r
      /\ CKY.v r 0 = Fin 4)
  /\ (exists m, Autograd.marginals LogSemiring (two_leaves 1) None m)
  /\ forall m,
       Autograd.marginals LogSemiring (two_leaves 1) None m ->
       Autograd.term_marg m 0 0 0 = 1%R
       /\ Autograd.term_marg m 0 1 0 = 1%R
       /\ Autograd.rules_marg m 0 0 0 0 1 1 = 1%R
       /\ Autograd.root_marg m 0 0 = 1%R.
Proof.
  split; [|split].
  - eexists. split; [reflexivity|].
    change (Fin (1 + 1 + 1 + 1) = Fin 4). f_equal. lra.
  - exists two_leaf_marginals. apply two_leaf_marginals_ok.
  - intros m (Ht & Hr & _ & Hroot).
    destruct two_leaf_marginals_ok as (Ht' & Hr' & _ & Hroot').
    cbn [CKY.N CKY.NT CKY.T CKY.batch two_leaves constant_grammar] in *.
    repeat split.
    + eapply grad_unique; [apply Ht|apply Ht']; lia.
    + eapply grad_unique; [apply Ht|apply Ht']; lia.
    + eapply grad_unique; [apply Hr|apply Hr']; lia.
    + eapply grad_unique; [apply Hroot|apply Hroot']; lia.
Qed.

(** C7, as amended: [CKY._dp] does not check [NT] or [T].  With [T = 0]
    (and [NT >= 1], [N >= 1], a non-empty batch) it raises nothing and
    returns a total, which is the semiring's [zero] for every batch
    element: no derivation exists. *)
Theorem no_terminals_total_is_zero {K : Type} {SR : Semiring K}
  (LW : SemiringLaws SR) (sc : CKY.potentials (K := K)) :
  CKY.T sc = 0 -> 1 <= CKY.NT sc -> 1 <= CKY.N sc -> 1 <= CKY.batch sc ->
  exists r,
    CKY._dp sc None = Ok r
    /\ forall b, b < CKY.batch sc -> CKY.v r b = zero.
Proof.
  intros HT Hnt Hn Hb.
  destruct (_dp_some sc (repeat (Z.of_nat (CKY.N sc)) (CKY.batch sc))
              (fun _ => CKY.N sc - 1)) as (r & Er & Hv); try lia.
  - apply repeat_length.
  - intros l Hl. apply repeat_spec in Hl. subst l.
    apply py_index_pred. lia.
  - exists r. split; [exact Er|].
    intros b Hbb. rewrite (Hv b Hbb). unfold total_at, semiring_dot.
    apply sum_all_zero. intros x _.
    rewrite inside_no_terminals by exact HT. apply times_zero_l.
Qed.

Lemma no_terminals_total_is_zero_witness :
  exists r,
    CKY._dp (SR := MaxSemiring) (constant_grammar 1 3 2 0 1) None = Ok r
    /\ forall b, b < CKY.batch (constant_grammar 1 3 2 0 1) ->
         CKY.v r b = @zero lg MaxSemiring.
Proof.
  apply (@no_terminals_total_is_zero lg MaxSemiring MaxLaws
           (constant_grammar 1 3 2 0 1)); simpl; lia.
Defined.

(** C7 fails at [T = 0]: with [NT = 1], [N = 2] and one batch element
    [CKY._dp] returns a value instead of raising. *)
Lemma no_terminals_returns_a_value :
  CKY.T (K := lg) (constant_grammar 1 2 1 0 1) = 0
  /\ exists r,
       CKY._dp (SR := LogSemiring) (constant_grammar 1 2 1 0 1) None = Ok r
       /\ CKY.v r 0 = NegInf.
Proof.
  split; [reflexivity|].
  eexists. split; reflexivity.
Qed.


(** C5, as amended: for the dense labelling of any well-formed binary tree,
    [from_parts] applied to the position-indexed parts of the tree (rules of
    shape [batch x N x N x NT x S x S]) returns the labelling, and
    [to_parts] returns parts on which [from_parts] raises, because their
    rule counts have the shape [batch x NT x S x S]. *)
Theorem from_parts_inverts_tree_parts (nt t n : nat) (tr : CKY.tree) :
  CKY.well_formed nt t tr -> CKY.leaves tr <= n ->
  (exists sp,
      CKY.from_parts (CKY.tree_parts nt t n tr) = Ok (sp, (nt, t))
      /\ CKY.tensor_eq sp (CKY.dense_labels nt t n tr))
  /\ (exists p,
         CKY.to_parts (CKY.dense_labels nt t n tr) (nt, t)
           (Some [Z.of_nat (CKY.leaves tr)]) = Ok p
         /\ CKY.from_parts p = Raise ValueError).
Proof.
  intros Hwf Hn. split.
  - now apply from_parts_tree_parts.
  - destruct (@to_parts_tree_ok nt t n tr Hwf Hn) as (p & E).
    exists p. split; [exact E|]. eapply from_parts_after_to_parts. exact E.
Qed.

Lemma from_parts_inverts_tree_parts_witness :
  (exists sp,
      CKY.from_parts (CKY.tree_parts 2 2 4 example_tree) = Ok (sp, (2, 2))
      /\ CKY.tensor_eq sp (CKY.dense_labels 2 2 4 example_tree))
  /\ (exists p,
         CKY.to_parts (CKY.dense_labels 2 2 4 example_tree) (2, 2)
           (Some [Z.of_nat (CKY.leaves example_tree)]) = Ok p
         /\ CKY.from_parts p = Raise ValueError).
Proof.
  apply (@from_parts_inverts_tree_parts 2 2 4 example_tree); simpl; lia.
Defined.

(** C5 fails on the labelling of [example_tree]: [to_parts] returns, and
    [from_parts] raises on what it returned. *)
Lemma from_parts_rejects_to_parts :
  exists p,
    CKY.to_parts (CKY.dense_labels 2 2 3 example_tree) (2, 2) (Some [3%Z])
    = Ok p
    /\ CKY.from_parts p = Raise ValueError.
Proof.
  eexists. split; reflexivity.
Qed.

Lemma to_parts_assertion_witness :
  CKY.to_parts leafless (1, 1) (Some [2%Z]) = Raise AssertionError
  /\ exists p,
       CKY.to_parts (CKY.dense_labels 2 2 4 example_tree) (2, 2)
         (Some [Z.of_nat (CKY.leaves example_tree)]) = Ok p.
Proof.
  destruct (to_parts_assertion leafless 1 1 1 2 [2%Z] example_tree 4)
    as (Hiff & _ & _).
  destruct (to_parts_assertion leafless 2 2 1 2 [2%Z] example_tree 4)
    as (_ & _ & Htree).
  split.
  - apply Hiff.
    + split; simpl; try lia; try reflexivity.
      * constructor; [lia|constructor].
      * intros b i j a _ Hij Hj _ Hd.
        destruct i as [|i]; [|lia]. destruct j as [|[|j]]; try lia.
        destruct a as [|a]; [lia|]. now elim Hd.
      * intros b i j a _ Hji _ _. destruct i as [|i]; [lia|]. reflexivity.
    + exists 0, 0, 1, 0. unfold labelled, has_split. simpl.
      repeat split; try lia.
      intros (k & y & z & Hk & _ & _ & _ & Hz).
      apply Hz. assert (k = 0) by lia. subst k. reflexivity.
  - apply Htree; simpl; lia.
Defined.

(** C6 fails on [lowtri], which has an entry below the diagonal: the span
    [(0, 1)] is labelled and no split point [0 <= k < 1] has labelled
    spans [(0, k)] and [(k + 1, 1)], yet [to_parts] returns and counts
    the rule [0 -> 0 0] once.  Its search pairs the span [(0, 1)] with
    itself and the entry [(2, 1)]. *)
Lemma to_parts_returns_on_unsplit_span :
  exists terms rules roots,
    CKY.to_parts lowtri (1, 1) (Some [2%Z]) = Ok (terms, rules, roots)
    /\ CKY.data rules [0; 0; 0; 0] = 1%Z
    /\ unsplit_span lowtri 1 3 2.
Proof.
  eexists. eexists. eexists.
  split; [reflexivity|]. split; [reflexivity|].
  exists 0, 0, 1, 0. unfold labelled, has_split.
  repeat split; try lia.
  - discriminate.
  - intros (k & y & z & Hk & _ & _ & Hy & _).
    assert (k = 0) by lia. subst k. apply Hy. reflexivity.
Qed.

(* ================================================================== *)
(** ** Further properties of the code *)

Lemma for__raise {A B : Type} (l : list A) (body : A -> result (list B))
  (e : exn) :
  (forall a, In a l -> (exists r, body a = Ok r) \/ body a = Raise e) ->
  (exists a, In a l /\ body a = Raise e) ->
  for_ l body = Raise e.
Proof.
  induction l as [|a l IH]; intros Hall (a0 & Hin & Ha0); [destruct Hin|].
  simpl. destruct (Hall a (or_introl eq_refl)) as [(r & Er)|Er].
  - rewrite Er. cbn [bind].
    destruct Hin as [->|Hin]; [congruence|].
    rewrite IH; [reflexivity| |exists a0; auto].
    intros a' Ha'. apply Hall. now right.
  - rewrite Er. reflexivity.
Qed.

Lemma py_index_cases (n : nat) (k : Z) :
  (exists j, py_index n k = Ok j /\ j < n /\ (- Z.of_nat n <= k < Z.of_nat n)%Z)
  \/ (py_index n k = Raise IndexError
      /\ ~ (- Z.of_nat n <= k < Z.of_nat n)%Z).
Proof.
  unfold py_index.
  destruct (Z.leb_spec 0 k); destruct (Z.ltb_spec k (Z.of_nat n));
    destruct (Z.leb_spec (- Z.of_nat n) k); destruct (Z.ltb_spec k 0);
    cbn [andb]; try (right; split; [reflexivity|lia]);
    left; eexists; (split; [reflexivity|]); lia.
Qed.

Lemma py_index_zero (n : nat) : 1 <= n -> py_index n 0%Z = Ok 0.
Proof. intros H. apply (@py_index_nat n 0). lia. Qed.

Section MaskedTotal.
Context {K : Type} {SR : Semiring K} {LW : SemiringLaws SR}.
Variable sc : CKY.potentials (K := K).

Lemma total_at_first_word (b : nat) : total_at sc b 0 = zero.
Proof.
  unfold total_at, semiring_dot. apply sum_all_zero.
  intros x Hx. apply in_seq in Hx.
  rewrite inside_nt_zero by lia. apply times_zero_l.
Qed.

Lemma same_grammar_first_words (l b : nat) :
  same_grammar sc (first_words sc l) b.
Proof. repeat split. Qed.

Lemma _dp_none_total :
  1 <= CKY.N sc -> 1 <= CKY.batch sc ->
  exists r,
    CKY._dp sc None = Ok r
    /\ forall b, b < CKY.batch sc ->
         CKY.v r b = total_at sc b (CKY.N sc - 1).
Proof.
  intros Hn Hb.
  destruct (@_dp_some K SR sc (repeat (Z.of_nat (CKY.N sc)) (CKY.batch sc))
              (fun _ => CKY.N sc - 1) Hn Hb) as (r & Er & Hv).
  - apply repeat_length.
  - intros l Hl. apply repeat_spec in Hl. subst l.
    apply py_index_pred. lia.
  - exists r. split; [exact Er|exact Hv].
Qed.
End MaskedTotal.

(** X1: with [lengths[b] = L] and [2 <= L <= N], the total of batch element
    [b] is what [enumerate] returns for the first [L] positions. *)
Theorem cky_masked_total_is_enumerated {K : Type} {SR : Semiring K}
  {LW : SemiringLaws SR} (sc : CKY.potentials (K := K)) (ls : list Z)
  (b L : nat) :
  length ls = CKY.batch sc -> b < CKY.batch sc ->
  Forall (fun l => (- Z.of_nat (CKY.N sc) < l <= Z.of_nat (CKY.N sc))%Z) ls ->
  nth b ls 0%Z = Z.of_nat L -> 2 <= L <= CKY.N sc ->
  1 <= CKY.NT sc -> 1 <= CKY.T sc ->
  exists r ve,
    CKY._dp sc (Some ls) = Ok r
    /\ CKY.enumerate (first_words sc L) = Ok ve
    /\ CKY.v r b = ve b.
Proof.
  intros Hlen Hb Hall Hnth HL Hnt Ht.
  destruct (@_dp_some K SR sc ls (row_of_length (CKY.N sc))) as (r & Er & Hv);
    try lia.
  { intros l Hl. rewrite Forall_forall in Hall.
    destruct (@py_index_valid _ _ (Hall l Hl)) as (j & Ej).
    unfold row_of_length. now rewrite Ej. }
  destruct (@dp_enumerate K SR LW (first_words sc L))
    as (r' & ls' & Er' & Els & Hne & Hv');
    cbn [CKY.N CKY.NT CKY.T CKY.batch first_words]; try lia.
  destruct (@_dp_none_total K SR (first_words sc L)) as (r'' & Er'' & Hv'');
    cbn [CKY.N CKY.NT CKY.T CKY.batch first_words]; try lia.
  rewrite Er' in Er''. injection Er'' as <-.
  exists r, (fun b => semiring_sum (map (fun s : CKY.tensor1 => s b) ls')).
  split; [exact Er|]. split.
  { unfold CKY.enumerate. rewrite Els. cbn [bind].
    destruct ls'; [congruence|reflexivity]. }
  cbn [CKY.batch first_words] in Hv', Hv''.
  rewrite <- (Hv' b Hb), (Hv'' b Hb), (Hv b Hb), Hnth.
  cbn [CKY.N first_words].
  unfold row_of_length. rewrite py_index_pred by lia.
  apply total_at_local; [apply same_grammar_first_words|].
  intros i t _. reflexivity.
Qed.

(** X2: for a semiring with the usual laws and in-range lengths, one per
    batch element: if [lengths[b] = 1], [CKY._dp] returns the semiring's
    [zero] as the total of batch element [b], whatever the scores are.
    A sentence of one word has no derivation in this engine. *)
Theorem cky_one_word_total_is_zero {K : Type} {SR : Semiring K}
  {LW : SemiringLaws SR} (sc : CKY.potentials (K := K)) (ls : list Z)
  (b : nat) :
  1 <= CKY.N sc ->
  length ls = CKY.batch sc -> b < CKY.batch sc ->
  Forall (fun l => (- Z.of_nat (CKY.N sc) < l <= Z.of_nat (CKY.N sc))%Z) ls ->
  nth b ls 0%Z = 1%Z ->
  exists r, CKY._dp sc (Some ls) = Ok r /\ CKY.v r b = zero.
Proof.
  intros Hn Hlen Hb Hall Hnth.
  destruct (@_dp_some K SR sc ls (row_of_length (CKY.N sc))) as (r & Er & Hv);
    try lia.
  { intros l Hl. rewrite Forall_forall in Hall.
    destruct (@py_index_valid _ _ (Hall l Hl)) as (j & Ej).
    unfold row_of_length. now rewrite Ej. }
  exists r. split; [exact Er|].
  rewrite (Hv b Hb), Hnth. unfold row_of_length.
  change (1 - 1)%Z with 0%Z. rewrite py_index_zero by lia.
  apply total_at_first_word.
Qed.

(** X3: with [N >= 1], if some entry [l] of [lengths] lies outside
    [-N + 1 .. N], [CKY._dp] raises [IndexError]: the chart has no row
    [l - 1]. *)
Theorem cky_length_out_of_range {K : Type} {SR : Semiring K}
  (sc : CKY.potentials (K := K)) (ls : list Z) (l : Z) :
  1 <= CKY.N sc -> In l ls ->
  ~ (- Z.of_nat (CKY.N sc) < l <= Z.of_nat (CKY.N sc))%Z ->
  CKY._dp sc (Some ls) = Raise IndexError.
Proof.
  intros Hn Hin Hl.
  unfold CKY._dp, CKY._dp_on.
  rewrite py_index_pred by lia. cbn [bind].
  replace (CKY.top_rows _ _ _)
    with (@Raise (list (CKY.tensor1 (K := K))) IndexError);
    [reflexivity|].
  symmetry. unfold CKY.top_rows. apply for__raise.
  - intros [i l'] _.
    destruct (i <? CKY.batch sc); [|now right]. cbn [bind].
    rewrite py_index_zero by lia. cbn [bind].
    destruct (py_index_cases (CKY.N sc) (l' - 1)) as [(j & Ej & _)|[Ej _]];
      rewrite Ej; cbn [bind]; [left; eauto|now right].
  - destruct (In_nth ls l 0%Z Hin) as (i & Hi & Ei).
    exists (i, l). split.
    + rewrite <- Ei.
      replace (i, nth i ls 0%Z)
        with (nth i (combine (seq 0 (length ls)) ls) (0, 0%Z)).
      * apply nth_In. rewrite length_combine, length_seq. lia.
      * rewrite combine_nth by (rewrite length_seq; reflexivity).
        rewrite seq_nth by lia. reflexivity.
    + destruct (i <? CKY.batch sc); [|reflexivity]. cbn [bind].
      rewrite py_index_zero by lia. cbn [bind].
      destruct (py_index_cases (CKY.N sc) (l - 1)) as [(j & Ej & _ & Hr)|[Ej _]];
        [lia|]. rewrite Ej. reflexivity.
Qed.

Lemma cky_masked_total_is_enumerated_witness :
  exists r ve,
    CKY._dp (SR := LogSemiring) (constant_grammar 2 3 2 2 1)
      (Some [3%Z; 2%Z]) = Ok r
    /\ CKY.enumerate (SR := LogSemiring)
         (first_words (constant_grammar 2 3 2 2 1) 2) = Ok ve
    /\ CKY.v r 1 = ve 1.
Proof.
  apply (@cky_masked_total_is_enumerated lg LogSemiring LogLaws
           (constant_grammar 2 3 2 2 1) [3%Z; 2%Z] 1 2);
    simpl; try lia; try reflexivity.
  repeat constructor; lia.
Defined.

Lemma cky_one_word_total_is_zero_witness :
  exists r,
    CKY._dp (SR := MaxSemiring) (constant_grammar 2 3 2 2 1)
      (Some [3%Z; 1%Z]) = Ok r
    /\ CKY.v r 1 = @zero lg MaxSemiring.
Proof.
  apply (@cky_one_word_total_is_zero lg MaxSemiring MaxLaws
           (constant_grammar 2 3 2 2 1) [3%Z; 1%Z] 1);
    simpl; try lia; try reflexivity.
  repeat constructor; lia.
Defined.

Lemma cky_length_out_of_range_witness :
  CKY._dp (SR := LogSemiring) (constant_grammar 2 3 2 2 1) (Some [3%Z; 4%Z])
  = Raise IndexError.
Proof.
  apply (@cky_length_out_of_range lg LogSemiring
           (constant_grammar 2 3 2 2 1) [3%Z; 4%Z] 4%Z); simpl; lia.
Defined.

Lemma nth_flat_single {A B : Type} (h : A -> B) (l : list A) (b : nat)
  (d : B) (da : A) :
  b < length l -> nth b (flat_map (fun a => [h a]) l) d = h (nth b l da).
Proof.
  revert b. induction l as [|a l IH]; intros b Hb; simpl in *; [lia|].
  destruct b; [reflexivity|]. apply IH. lia.
Qed.

Lemma py_index_lt (n : nat) (k : Z) (j : nat) : py_index n k = Ok j -> j < n.
Proof.
  intros E. destruct (py_index_cases n k) as [(j' & E' & Hj & _)|[E' _]];
    rewrite E' in E; [now injection E as <-|discriminate].
Qed.

Section CrfValue.
Context {K : Type} {SR : Semiring K}.
Variable sc : CKY_CRF.potentials (K := K).

Local Abbreviation n := (CKY_CRF.N sc).

Lemma crf_dp_some (ls : list Z) (jf : Z -> nat) :
  1 <= n ->
  length ls = CKY_CRF.batch sc ->
  (forall l, In l ls -> py_index n (l - 1) = Ok (jf l)) ->
  exists r,
    CKY_CRF._dp sc (Some ls) = Ok r
    /\ forall b, b < CKY_CRF.batch sc ->
         CKY_CRF.log_Z r b
         = CKY_CRF.inside sc (jf (nth b ls 0%Z)) b 0 (jf (nth b ls 0%Z)).
Proof.
  intros Hn Hlen Hidx. unfold CKY_CRF._dp.
  rewrite py_index_pred by lia. cbn [bind].
  unfold CKY_CRF.gather.
  rewrite for__ok with (g := fun l : Z => [jf l]).
  2:{ intros l Hl. rewrite (Hidx l Hl). reflexivity. }
  cbn [bind]. rewrite Hlen, Nat.eqb_refl.
  eexists. split; [reflexivity|].
  intros b Hb. cbn [CKY_CRF.log_Z].
  rewrite (nth_flat_single jf ls 0 0%Z) by lia.
  assert (Hj : jf (nth b ls 0%Z) < n).
  { apply (@py_index_lt n (nth b ls 0%Z - 1)). apply Hidx.
    apply nth_In. lia. }
  change (CKY_CRF.loop sc (CKY_CRF.init sc)) with (crf_run sc (n - 1)).
  rewrite (crf_inv_A (crf_inv_run sc (w := n - 1) ltac:(lia))) by lia.
  apply crf_inside_stable. lia.
Qed.

(** Whatever [lengths] is, the chart [_dp] returns is the chart after the
    last width. *)
Lemma crf_dp_chart (lengths : option (list Z)) (r : CKY_CRF.dp_out) :
  CKY_CRF._dp sc lengths = Ok r ->
  1 <= n /\ CKY_CRF.beta_out r = crf_run sc (n - 1).
Proof.
  unfold CKY_CRF._dp. intros E.
  destruct (py_index_cases n (Z.of_nat n - 1)) as [(j & Ej & Hj & _)|[Ej _]];
    rewrite Ej in E; [|discriminate].
  cbn [bind] in E.
  destruct (CKY_CRF.gather _ _ _) as [lz|e]; [|discriminate].
  cbn [bind] in E. injection E as <-. split; [lia|reflexivity].
Qed.
End CrfValue.

Section CrfLocality.
Context {K : Type} {SR : Semiring K}.
Variables sc sc' : CKY_CRF.potentials (K := K).

(** A cell depends on the scores of the spans under it only. *)
Lemma crf_inside_local (b w : nat) :
  CKY_CRF.NT sc = CKY_CRF.NT sc' ->
  forall k i,
    k <= w ->
    (forall i' j' x, i <= i' -> i' <= j' -> j' <= i + k ->
       CKY_CRF.scores sc b i' j' x = CKY_CRF.scores sc' b i' j' x) ->
    CKY_CRF.inside sc w b i k = CKY_CRF.inside sc' w b i k.
Proof.
  intros Hnt.
  assert (Hd : forall i d, (forall x, CKY_CRF.scores sc b i (i + d) x
                                 = CKY_CRF.scores sc' b i (i + d) x) ->
               CKY_CRF.diagonal sc d b i = CKY_CRF.diagonal sc' d b i).
  { intros i d H. unfold CKY_CRF.diagonal, CKY_CRF.reduced_scores.
    rewrite <- Hnt. f_equal. apply map_ext. intros x. unfold convert.
    apply H. }
  induction w as [|w IH]; intros k i Hk Hs.
  - replace k with 0 by lia. simpl. apply Hd. intros x. apply Hs; lia.
  - cbn [CKY_CRF.inside].
    destruct (k =? S w) eqn:E.
    + apply Nat.eqb_eq in E. subst k. f_equal.
      * unfold semiring_dot. f_equal. apply map_ext_in. intros k Hk'.
        apply in_seq in Hk'. f_equal.
        -- apply IH; [lia|]. intros i' j' x H1 H2 H3. apply Hs; lia.
        -- apply IH; [lia|]. intros i' j' x H1 H2 H3. apply Hs; lia.
      * apply Hd. intros x. apply Hs; lia.
    + apply Nat.eqb_neq in E. apply IH; [lia|exact Hs].
Qed.
End CrfLocality.

(** X4: the chart [CKY_CRF._dp] returns holds every span twice, once from its
    left end and once from its right end. *)
Theorem crf_returned_chart_mirrors {K : Type} {SR : Semiring K}
  (sc : CKY_CRF.potentials (K := K)) (lengths : option (list Z))
  (r : CKY_CRF.dp_out) (b i k : nat) :
  CKY_CRF._dp sc lengths = Ok r ->
  i + k < CKY_CRF.N sc ->
  CKY_CRF.beta_B (CKY_CRF.beta_out r) b (i + k) (CKY_CRF.N sc - 1 - k)
  = CKY_CRF.beta_A (CKY_CRF.beta_out r) b i k.
Proof.
  intros E Hik. destruct (crf_dp_chart sc lengths E) as [Hn ->].
  assert (Hw : CKY_CRF.N sc - 1 < CKY_CRF.N sc) by lia.
  destruct (crf_inv_run sc Hw) as [IA IB].
  rewrite IB by lia. rewrite IA by lia. f_equal. lia.
Qed.

(** X5: two inputs of [CKY_CRF._dp] with the same [NT] and
    [lengths[b] = L], [1 <= L <= N] on both, whose scores of batch element
    [b] agree on every span [i <= j < L], get the same total for [b]:
    what lies beyond the length, and the padded size itself, does not
    matter. *)
Theorem crf_padding_does_not_change_total {K : Type} {SR : Semiring K}
  (sc sc' : CKY_CRF.potentials (K := K)) (ls ls' : list Z) (b L : nat) :
  length ls = CKY_CRF.batch sc -> length ls' = CKY_CRF.batch sc' ->
  b < CKY_CRF.batch sc -> b < CKY_CRF.batch sc' ->
  CKY_CRF.NT sc = CKY_CRF.NT sc' ->
  1 <= L -> L <= CKY_CRF.N sc -> L <= CKY_CRF.N sc' ->
  nth b ls 0%Z = Z.of_nat L -> nth b ls' 0%Z = Z.of_nat L ->
  Forall (fun l => (- Z.of_nat (CKY_CRF.N sc) < l <= Z.of_nat (CKY_CRF.N sc))%Z)
    ls ->
  Forall (fun l => (- Z.of_nat (CKY_CRF.N sc') < l <= Z.of_nat (CKY_CRF.N sc'))%Z)
    ls' ->
  (forall i j x, i <= j -> j < L ->
     CKY_CRF.scores sc b i j x = CKY_CRF.scores sc' b i j x) ->
  exists r r',
    CKY_CRF._dp sc (Some ls) = Ok r
    /\ CKY_CRF._dp sc' (Some ls') = Ok r'
    /\ CKY_CRF.log_Z r b = CKY_CRF.log_Z r' b.
Proof.
  intros Hlen Hlen' Hb Hb' Hnt HL HLn HLn' Hnth Hnth' Hall Hall' Hs.
  destruct (@crf_dp_some K SR sc ls (row_of_length (CKY_CRF.N sc)))
    as (r & Er & Hv); try lia.
  { intros l Hl. rewrite Forall_forall in Hall.
    destruct (@py_index_valid _ _ (Hall l Hl)) as (j & Ej).
    unfold row_of_length. now rewrite Ej. }
  destruct (@crf_dp_some K SR sc' ls' (row_of_length (CKY_CRF.N sc')))
    as (r' & Er' & Hv'); try lia.
  { intros l Hl. rewrite Forall_forall in Hall'.
    destruct (@py_index_valid _ _ (Hall' l Hl)) as (j & Ej).
    unfold row_of_length. now rewrite Ej. }
  exists r, r'. split; [exact Er|]. split; [exact Er'|].
  rewrite (Hv b Hb), (Hv' b Hb'), Hnth, Hnth'.
  unfold row_of_length. rewrite !py_index_pred by lia.
  apply crf_inside_local; [exact Hnt|lia|].
  intros i' j' x H1 H2 H3. apply Hs; lia.
Qed.

(** X6: with [lengths[b] = L] and [1 <= L <= N], the total of batch element
    [b] is what [enumerate] returns for the first [L] positions. *)
Theorem crf_masked_total_is_enumerated {K : Type} {SR : Semiring K}
  {LW : SemiringLaws SR} (sc : CKY_CRF.potentials (K := K)) (ls : list Z)
  (b L : nat) :
  length ls = CKY_CRF.batch sc -> b < CKY_CRF.batch sc ->
  Forall (fun l => (- Z.of_nat (CKY_CRF.N sc) < l <= Z.of_nat (CKY_CRF.N sc))%Z)
    ls ->
  nth b ls 0%Z = Z.of_nat L -> 1 <= L <= CKY_CRF.N sc ->
  1 <= CKY_CRF.NT sc ->
  exists r ve,
    CKY_CRF._dp sc (Some ls) = Ok r
    /\ CKY_CRF.enumerate (first_spans sc L) = Ok ve
    /\ CKY_CRF.log_Z r b = ve b.
Proof.
  intros Hlen Hb Hall Hnth HL Hnt.
  destruct (@crf_dp_some K SR sc ls (row_of_length (CKY_CRF.N sc)))
    as (r & Er & Hv); try lia.
  { intros l Hl. rewrite Forall_forall in Hall.
    destruct (@py_index_valid _ _ (Hall l Hl)) as (j & Ej).
    unfold row_of_length. now rewrite Ej. }
  destruct (@crf_dp_enumerate K SR LW (first_spans sc L))
    as (r' & ls' & Er' & Els & Hne & Hv');
    cbn [CKY_CRF.N CKY_CRF.NT CKY_CRF.batch first_spans]; try lia.
  destruct (@crf_dp_none K SR (first_spans sc L)) as (r'' & Er'' & Hv'');
    cbn [CKY_CRF.N CKY_CRF.NT CKY_CRF.batch first_spans]; try lia.
  rewrite Er' in Er''. injection Er'' as <-.
  exists r, (fun b => semiring_sum (map (fun s : CKY_CRF.tensor1 => s b) ls')).
  split; [exact Er|]. split.
  { unfold CKY_CRF.enumerate. rewrite Els. cbn [bind].
    destruct ls'; [congruence|reflexivity]. }
  cbn [CKY_CRF.batch CKY_CRF.N first_spans] in Hv', Hv''.
  rewrite <- (Hv' b Hb), (Hv'' b Hb), (Hv b Hb), Hnth.
  unfold row_of_length. rewrite py_index_pred by lia.
  apply crf_inside_local; [reflexivity|lia|].
  intros i' j' x _ _ _. reflexivity.
Qed.

(** X7: with [N >= 1], if some entry [l] of [lengths] lies outside
    [-N + 1 .. N], [CKY_CRF._dp] raises [IndexError]. *)
Theorem crf_length_out_of_range {K : Type} {SR : Semiring K}
  (sc : CKY_CRF.potentials (K := K)) (ls : list Z) (l : Z) :
  1 <= CKY_CRF.N sc -> In l ls ->
  ~ (- Z.of_nat (CKY_CRF.N sc) < l <= Z.of_nat (CKY_CRF.N sc))%Z ->
  CKY_CRF._dp sc (Some ls) = Raise IndexError.
Proof.
  intros Hn Hin Hl.
  unfold CKY_CRF._dp.
  rewrite py_index_pred by lia. cbn [bind].
  unfold CKY_CRF.gather.
  rewrite for__raise with (e := IndexError); [reflexivity| |].
  - intros l' _.
    destruct (py_index_cases (CKY_CRF.N sc) (l' - 1)) as [(j & Ej & _)|[Ej _]];
      rewrite Ej; cbn [bind]; [left; eauto|now right].
  - exists l. split; [exact Hin|].
    destruct (py_index_cases (CKY_CRF.N sc) (l - 1)) as [(j & Ej & _ & Hr)|[Ej _]];
      [lia|]. rewrite Ej. reflexivity.
Qed.

(** X8: an input without positions ([N = 0]) is an [IndexError] in both
    engines, whatever [lengths] is. *)
Theorem empty_sentence_is_index_error {K : Type} {SR : Semiring K}
  (sc : CKY.potentials (K := K)) (sc' : CKY_CRF.potentials (K := K))
  (lengths : option (list Z)) :
  (CKY.N sc = 0 -> CKY._dp sc lengths = Raise IndexError)
  /\ (CKY_CRF.N sc' = 0 -> CKY_CRF._dp sc' lengths = Raise IndexError).
Proof.
  split; intros H.
  - unfold CKY._dp, CKY._dp_on. rewrite H. reflexivity.
  - unfold CKY_CRF._dp. rewrite H. reflexivity.
Qed.

Lemma crf_returned_chart_mirrors_witness :
  exists r,
    CKY_CRF._dp (SR := LogSemiring) (constant_spans 2 3 2 1) None = Ok r
    /\ CKY_CRF.beta_B (CKY_CRF.beta_out r) 1 (1 + 1) (3 - 1 - 1)
       = CKY_CRF.beta_A (CKY_CRF.beta_out r) 1 1 1.
Proof.
  eexists. split; [reflexivity|].
  apply (@crf_returned_chart_mirrors lg LogSemiring (constant_spans 2 3 2 1)
           None _ 1 1 1); [reflexivity|simpl; lia].
Defined.

Lemma crf_padding_does_not_change_total_witness :
  exists r r',
    CKY_CRF._dp (SR := MaxSemiring) (constant_spans 1 3 2 1) (Some [2%Z]) = Ok r
    /\ CKY_CRF._dp (SR := MaxSemiring) (constant_spans 1 2 2 1) (Some [2%Z])
       = Ok r'
    /\ CKY_CRF.log_Z r 0 = CKY_CRF.log_Z r' 0.
Proof.
  apply (@crf_padding_does_not_change_total lg MaxSemiring
           (constant_spans 1 3 2 1) (constant_spans 1 2 2 1)
           [2%Z] [2%Z] 0 2);
    simpl; try lia; try reflexivity.
  - repeat constructor; lia.
  - repeat constructor; lia.
Defined.

Lemma crf_masked_total_is_enumerated_witness :
  exists r ve,
    CKY_CRF._dp (SR := LogSemiring) (constant_spans 2 3 2 1)
      (Some [1%Z; 2%Z]) = Ok r
    /\ CKY_CRF.enumerate (SR := LogSemiring)
         (first_spans (constant_spans 2 3 2 1) 2) = Ok ve
    /\ CKY_CRF.log_Z r 1 = ve 1.
Proof.
  apply (@crf_masked_total_is_enumerated lg LogSemiring LogLaws
           (constant_spans 2 3 2 1) [1%Z; 2%Z] 1 2);
    simpl; try lia; try reflexivity.
  repeat constructor; lia.
Defined.

Lemma crf_length_out_of_range_witness :
  CKY_CRF._dp (SR := LogSemiring) (constant_spans 2 3 2 1)
    (Some [3%Z; (-3)%Z])
  = Raise IndexError.
Proof.
  apply (@crf_length_out_of_range lg LogSemiring
           (constant_spans 2 3 2 1) [3%Z; (-3)%Z] (-3)%Z); simpl; lia.
Defined.

Lemma for__in {A B : Type} (l : list A) (body : A -> result (list B))
  (r : list B) (x : B) :
  for_ l body = Ok r -> In x r ->
  exists a ra, In a l /\ body a = Ok ra /\ In x ra.
Proof.
  revert r. induction l as [|a l IH]; intros r E Hx; simpl in E.
  - injection E as <-. destruct Hx.
  - destruct (body a) as [ra|e] eqn:Ea; [|discriminate]. cbn [bind] in E.
    destruct (for_ l body) as [rs|e] eqn:Es; [|discriminate]. cbn [bind] in E.
    injection E as <-. apply in_app_or in Hx. destruct Hx as [Hx|Hx].
    + exists a, ra. auto with datatypes.
    + destruct (IH rs eq_refl Hx) as (a' & ra' & H1 & H2 & H3).
      exists a', ra'. auto with datatypes.
Qed.

Lemma for_gen_in {A B : Type} (g : result (list A))
  (body : A -> result (list B)) (r : list B) (x : B) :
  for_gen g body = Ok r -> In x r ->
  exists l a ra, g = Ok l /\ In a l /\ body a = Ok ra /\ In x ra.
Proof.
  unfold for_gen. intros E Hx. destruct g as [l|e]; [|discriminate].
  cbn [bind] in E. destruct (@for__in _ _ _ _ _ _ E Hx) as (a & ra & H1 & H2 & H3).
  exists l, a, ra. auto.
Qed.

Lemma leaf_positions_app (p q : list CKY.part) :
  leaf_positions (p ++ q) = leaf_positions p ++ leaf_positions q.
Proof. unfold leaf_positions. apply flat_map_app. Qed.

Lemma rule_count_app (p q : list CKY.part) :
  rule_count (p ++ q) = rule_count p + rule_count q.
Proof. unfold rule_count. now rewrite filter_app, length_app. Qed.

Lemma crf_leaf_positions_app (p q : list CKY_CRF.part) :
  crf_leaf_positions (p ++ q) = crf_leaf_positions p ++ crf_leaf_positions q.
Proof. unfold crf_leaf_positions. apply flat_map_app. Qed.

Lemma crf_rule_count_app (p q : list CKY_CRF.part) :
  crf_rule_count (p ++ q) = crf_rule_count p + crf_rule_count q.
Proof. unfold crf_rule_count. now rewrite filter_app, length_app. Qed.

Lemma seq_split (s w e : nat) :
  s <= w -> w <= e -> seq s (w - s) ++ seq w (e - w) = seq s (e - s).
Proof.
  intros H1 H2. replace (e - s) with ((w - s) + (e - w)) by lia.
  rewrite seq_app. do 2 f_equal. lia.
Qed.

(** X9: every derivation the generator of [CKY.enumerate] yields for the
    span [start .. end - 1] lists one leaf per position, from left to
    right, and applies [end - start - 1] rules. *)
Theorem cky_derivation_shape {K : Type} {SR : Semiring K}
  (sc : CKY.potentials (K := K)) (fuel x s e : nat)
  (l : list (CKY.tensor1 * list CKY.part)) (m : CKY.tensor1)
  (ps : list CKY.part) :
  CKY.enumerate_gen sc fuel x s e = Ok l -> s < e -> In (m, ps) l ->
  leaf_positions ps = seq s (e - s) /\ rule_count ps = e - s - 1.
Proof.
  revert x s e l m ps.
  induction fuel as [|f IH]; intros x s e l m ps E Hse Hin; [discriminate|].
  cbn [CKY.enumerate_gen] in E.
  destruct (s + 1 =? e) eqn:Ee.
  - apply Nat.eqb_eq in Ee.
    destruct (py_index (CKY.N sc) (Z.of_nat s)) as [i|]; [|discriminate].
    cbn [bind] in E.
    destruct (py_index (CKY.T sc) _) as [t|]; [|discriminate].
    cbn [bind] in E. injection E as <-.
    destruct Hin as [Hin|[]]. injection Hin as <- <-.
    replace (e - s) with 1 by lia. split; reflexivity.
  - apply Nat.eqb_neq in Ee.
    destruct (@for__in _ _ _ _ _ _ E Hin) as (w & rw & Hw & Ew & Hin1).
    apply in_range in Hw.
    destruct (@for__in _ _ _ _ _ _ Ew Hin1) as (y & ry & _ & Ey & Hin2).
    destruct (@for__in _ _ _ _ _ _ Ey Hin2) as (z & rz & _ & Ez & Hin3).
    destruct (@for_gen_in _ _ _ _ _ _ Ez Hin3) as (ly & my & r1 & Ely & Hmy & E1 & Hin4).
    destruct (@for_gen_in _ _ _ _ _ _ E1 Hin4) as (lz & mz & r2 & Elz & Hmz & E2 & Hin5).
    destruct my as [m1 y1]. destruct mz as [m2 z1].
    injection E2 as <-. destruct Hin5 as [Hin5|[]]. injection Hin5 as <- <-.
    destruct (IH _ _ _ _ _ _ Ely ltac:(lia) Hmy) as [Ly Ry].
    destruct (IH _ _ _ _ _ _ Elz ltac:(lia) Hmz) as [Lz Rz].
    split.
    + change (leaf_positions (CKY.Rule x s w e :: y1 ++ z1))
        with (leaf_positions (y1 ++ z1)).
      rewrite leaf_positions_app, Ly, Lz. apply seq_split; lia.
    + change (rule_count (CKY.Rule x s w e :: y1 ++ z1))
        with (S (rule_count (y1 ++ z1))).
      rewrite rule_count_app, Ry, Rz. lia.
Qed.

(** X10: every derivation the generator of [CKY_CRF.enumerate] yields for
    the span [start .. end - 1] lists one leaf per position, from left to
    right, and applies [end - start - 1] rules. *)
Theorem crf_derivation_shape {K : Type} {SR : Semiring K}
  (sc : CKY_CRF.potentials (K := K)) (fuel x s e : nat)
  (l : list (CKY_CRF.tensor1 * list CKY_CRF.part)) (m : CKY_CRF.tensor1)
  (ps : list CKY_CRF.part) :
  CKY_CRF.enumerate_gen sc fuel x s e = Ok l -> s < e -> In (m, ps) l ->
  crf_leaf_positions ps = seq s (e - s) /\ crf_rule_count ps = e - s - 1.
Proof.
  revert x s e l m ps.
  induction fuel as [|f IH]; intros x s e l m ps E Hse Hin; [discriminate|].
  cbn [CKY_CRF.enumerate_gen] in E.
  destruct (s + 1 =? e) eqn:Ee.
  - apply Nat.eqb_eq in Ee.
    destruct (py_index (CKY_CRF.N sc) (Z.of_nat s)) as [i|]; [|discriminate].
    cbn [bind] in E.
    destruct (py_index (CKY_CRF.NT sc) _) as [t|]; [|discriminate].
    cbn [bind] in E. injection E as <-.
    destruct Hin as [Hin|[]]. injection Hin as <- <-.
    replace (e - s) with 1 by lia. split; reflexivity.
  - apply Nat.eqb_neq in Ee.
    destruct (@for__in _ _ _ _ _ _ E Hin) as (w & rw & Hw & Ew & Hin1).
    apply in_range in Hw.
    destruct (@for__in _ _ _ _ _ _ Ew Hin1) as (y & ry & _ & Ey & Hin2).
    destruct (@for__in _ _ _ _ _ _ Ey Hin2) as (z & rz & _ & Ez & Hin3).
    destruct (@for_gen_in _ _ _ _ _ _ Ez Hin3) as (ly & my & r1 & Ely & Hmy & E1 & Hin4).
    destruct (@for_gen_in _ _ _ _ _ _ E1 Hin4) as (lz & mz & r2 & Elz & Hmz & E2 & Hin5).
    destruct my as [m1 y1]. destruct mz as [m2 z1].
    injection E2 as <-. destruct Hin5 as [Hin5|[]]. injection Hin5 as <- <-.
    destruct (IH _ _ _ _ _ _ Ely ltac:(lia) Hmy) as [Ly Ry].
    destruct (IH _ _ _ _ _ _ Elz ltac:(lia) Hmz) as [Lz Rz].
    split.
    + change (crf_leaf_positions (CKY_CRF.Rule x s w e :: y1 ++ z1))
        with (crf_leaf_positions (y1 ++ z1)).
      rewrite crf_leaf_positions_app, Ly, Lz. apply seq_split; lia.
    + change (crf_rule_count (CKY_CRF.Rule x s w e :: y1 ++ z1))
        with (S (crf_rule_count (y1 ++ z1))).
      rewrite crf_rule_count_app, Ry, Rz. lia.
Qed.

Lemma cky_derivation_shape_witness :
  exists l m ps,
    CKY.enumerate_gen (SR := LogSemiring) (two_leaves 1) 3 0 0 2 = Ok l
    /\ In (m, ps) l
    /\ leaf_positions ps = seq 0 (2 - 0) /\ rule_count ps = 2 - 0 - 1.
Proof.
  eexists. eexists. eexists. split; [reflexivity|].
  split; [left; reflexivity|].
  eapply (@cky_derivation_shape lg LogSemiring (two_leaves 1) 3 0 0 2);
    [reflexivity|lia|left; reflexivity].
Defined.

Lemma crf_derivation_shape_witness :
  exists l m ps,
    CKY_CRF.enumerate_gen (SR := LogSemiring) (constant_spans 1 2 1 1) 3 0 0 2
    = Ok l
    /\ In (m, ps) l
    /\ crf_leaf_positions ps = seq 0 (2 - 0) /\ crf_rule_count ps = 2 - 0 - 1.
Proof.
  eexists. eexists. eexists. split; [reflexivity|].
  split; [left; reflexivity|].
  eapply (@crf_derivation_shape lg LogSemiring (constant_spans 1 2 1 1) 3 0 0 2);
    [reflexivity|lia|left; reflexivity].
Defined.

Lemma lg_le_logaddexp_l (a b : lg) : lg_le a (logaddexp a b).
Proof.
  destruct a as [|x], b as [|y]; simpl; try exact I; try apply Rle_refl.
  rewrite <- (ln_exp x) at 1.
  destruct (Req_dec (exp x + exp y) (exp x)) as [E|E].
  - rewrite E. apply Rle_refl.
  - left. apply ln_increasing; [apply exp_pos|].
    pose proof (exp_pos y). lra.
Qed.

Lemma lg_le_logaddexp_r (a b : lg) : lg_le b (logaddexp a b).
Proof. rewrite logaddexp_comm. apply lg_le_logaddexp_l. Qed.

Lemma lg_le_log_sum (xs : list lg) (m : lg) :
  In m xs -> lg_le m (semiring_sum (SR := LogSemiring) xs).
Proof.
  induction xs as [|x xs IH]; intros H; [destruct H|].
  cbn [semiring_sum fold_right]. destruct H as [->|H].
  - apply lg_le_logaddexp_l.
  - eapply lg_le_trans; [apply IH, H|]. apply lg_le_logaddexp_r.
Qed.

Lemma in_max_sum (xs : list lg) :
  xs <> [] -> In (semiring_sum (SR := MaxSemiring) xs) xs.
Proof. intros H. apply (max_fold H). Qed.

Lemma cky_scores_same_under_log_and_max (sc : CKY.potentials (K := lg)) :
  CKY.enumerate_scores (SR := LogSemiring) sc
  = CKY.enumerate_scores (SR := MaxSemiring) sc.
Proof. reflexivity. Qed.

Lemma crf_scores_same_under_log_and_max (sc : CKY_CRF.potentials (K := lg)) :
  CKY_CRF.enumerate_scores (SR := LogSemiring) sc
  = CKY_CRF.enumerate_scores (SR := MaxSemiring) sc.
Proof. reflexivity. Qed.

(** X11: for [N >= 2], [NT >= 1], [T >= 1] and a non-empty batch, the total
    [CKY._dp] returns under the Max semiring (the best score) is at most
    the total it returns under the Log semiring (the log-partition), for
    every batch element. *)
Theorem cky_max_total_below_log_total (sc : CKY.potentials (K := lg)) :
  2 <= CKY.N sc -> 1 <= CKY.NT sc -> 1 <= CKY.T sc -> 1 <= CKY.batch sc ->
  exists rm rl,
    CKY._dp (SR := MaxSemiring) sc None = Ok rm
    /\ CKY._dp (SR := LogSemiring) sc None = Ok rl
    /\ forall b, b < CKY.batch sc -> lg_le (CKY.v rm b) (CKY.v rl b).
Proof.
  intros Hn Hnt Ht Hb.
  destruct (dp_enumerate (LW := MaxLaws) sc Hn Hnt Ht Hb)
    as (rm & lm & Em & Elm & Hne & Hvm).
  destruct (dp_enumerate (LW := LogLaws) sc Hn Hnt Ht Hb)
    as (rl & ll & El & Ell & _ & Hvl).
  rewrite cky_scores_same_under_log_and_max, Elm in Ell.
  injection Ell as <-.
  exists rm, rl. split; [exact Em|]. split; [exact El|].
  intros b Hbb. rewrite (Hvm b Hbb), (Hvl b Hbb).
  apply lg_le_log_sum. apply in_max_sum.
  destruct lm; [congruence|discriminate].
Qed.

(** X12: for [N >= 1] and [NT >= 1], the total [CKY_CRF._dp] returns under
    the Max semiring (the best score) is at most the total it returns
    under the Log semiring (the log-partition), for every batch
    element. *)
Theorem crf_max_total_below_log_total (sc : CKY_CRF.potentials (K := lg)) :
  1 <= CKY_CRF.N sc -> 1 <= CKY_CRF.NT sc ->
  exists rm rl,
    CKY_CRF._dp (SR := MaxSemiring) sc None = Ok rm
    /\ CKY_CRF._dp (SR := LogSemiring) sc None = Ok rl
    /\ forall b, b < CKY_CRF.batch sc ->
         lg_le (CKY_CRF.log_Z rm b) (CKY_CRF.log_Z rl b).
Proof.
  intros Hn Hnt.
  destruct (crf_dp_enumerate (LW := MaxLaws) sc Hn Hnt)
    as (rm & lm & Em & Elm & Hne & Hvm).
  destruct (crf_dp_enumerate (LW := LogLaws) sc Hn Hnt)
    as (rl & ll & El & Ell & _ & Hvl).
  rewrite crf_scores_same_under_log_and_max, Elm in Ell.
  injection Ell as <-.
  exists rm, rl. split; [exact Em|]. split; [exact El|].
  intros b Hbb. rewrite (Hvm b Hbb), (Hvl b Hbb).
  apply lg_le_log_sum. apply in_max_sum.
  destruct lm; [congruence|discriminate].
Qed.

Lemma cky_max_total_below_log_total_witness :
  exists rm rl,
    CKY._dp (SR := MaxSemiring) (constant_grammar 2 3 2 2 1) None = Ok rm
    /\ CKY._dp (SR := LogSemiring) (constant_grammar 2 3 2 2 1) None = Ok rl
    /\ forall b, b < CKY.batch (constant_grammar 2 3 2 2 1) ->
         lg_le (CKY.v rm b) (CKY.v rl b).
Proof.
  apply (cky_max_total_below_log_total (constant_grammar 2 3 2 2 1));
    simpl; lia.
Defined.

Lemma crf_max_total_below_log_total_witness :
  exists rm rl,
    CKY_CRF._dp (SR := MaxSemiring) (constant_spans 2 3 2 1) None = Ok rm
    /\ CKY_CRF._dp (SR := LogSemiring) (constant_spans 2 3 2 1) None = Ok rl
    /\ forall b, b < CKY_CRF.batch (constant_spans 2 3 2 1) ->
         lg_le (CKY_CRF.log_Z rm b) (CKY_CRF.log_Z rl b).
Proof.
  apply (crf_max_total_below_log_total (constant_spans 2 3 2 1)); simpl; lia.
Defined.

(** *** The split [to_parts] finds *)

Lemma inner_match_sound (k : nat) (a_span width : Z) (rs : list CKY.entry)
  (c : nat) :
  CKY.inner_match k a_span width rs = Some c ->
  exists b_span, In (c, k + 1, b_span) rs.
Proof.
  unfold CKY.inner_match.
  destruct (find _ rs) as [[[c' k2] bs]|] eqn:E; [|discriminate].
  intros H. injection H as <-.
  apply find_some in E. destruct E as [Hin Hb].
  apply andb_prop in Hb. destruct Hb as [Hk _]. apply Nat.eqb_eq in Hk.
  subst k2. eauto.
Qed.

Lemma find_split_sound (ls rs : list CKY.entry) (width : Z) (y z : nat) :
  CKY.find_split ls rs width = Some (y, z) ->
  exists k a_span b_span, In (y, k, a_span) ls /\ In (z, k + 1, b_span) rs.
Proof.
  unfold CKY.find_split.
  assert (G : forall acc,
             fold_left
               (fun bc (e : CKY.entry) =>
                  let '(b_p, k, a_span) := e in
                  match CKY.inner_match k a_span width rs with
                  | Some c_p => Some (b_p, c_p)
                  | None => bc
                  end) ls acc = Some (y, z) ->
             acc = Some (y, z)
             \/ exists k a_span b_span,
                  In (y, k, a_span) ls /\ In (z, k + 1, b_span) rs).
  { induction ls as [|[[b_p k] a_span] ls IH]; intros acc H; simpl in H.
    - now left.
    - apply IH in H. destruct H as [H|(k' & a' & b' & H1 & H2)].
      + destruct (CKY.inner_match k a_span width rs) as [c|] eqn:E.
        * injection H as -> ->. right.
          destruct (inner_match_sound _ _ _ _ E) as (bs & Hbs).
          exists k, a_span, bs. split; [now left|exact Hbs].
        * now left.
      + right. exists k', a', b'. split; [now right|exact H2]. }
  intros H. destruct (G None H) as [H'|H']; [discriminate|exact H'].
Qed.

(** *** The spans and rules of a tree *)

Lemma spans_of_unique (nt : nat) (tr : CKY.tree) :
  forall s i j a a',
    In (i, j, a) (CKY.spans_of nt s tr) ->
    In (i, j, a') (CKY.spans_of nt s tr) -> a = a'.
Proof.
  induction tr as [t|a0 l IHl r IHr]; intros s i j a a' H H'.
  - simpl in H, H'. destruct H as [H|[]], H' as [H'|[]]. congruence.
  - pose proof (leaves_pos l) as Pl. pose proof (leaves_pos r) as Pr.
    cbn [CKY.spans_of CKY.leaves] in H, H'.
    destruct H as [H|H]; destruct H' as [H'|H'].
    + congruence.
    + injection H as <- <- <-. apply in_app_or in H'. destruct H' as [H'|H'];
        apply spans_of_bounds in H'; lia.
    + injection H' as <- <- <-. apply in_app_or in H. destruct H as [H|H];
        apply spans_of_bounds in H; lia.
    + apply in_app_or in H. apply in_app_or in H'.
      destruct H as [H|H]; destruct H' as [H'|H'].
      * eapply IHl; eauto.
      * apply spans_of_bounds in H, H'. lia.
      * apply spans_of_bounds in H, H'. lia.
      * eapply IHr; eauto.
Qed.

(** A span of a tree that two other spans of the tree tile is a node, and
    the two are its children. *)
Lemma tree_split_is_rule (nt : nat) (tr : CKY.tree) :
  forall s i j k a y z,
    In (i, j, a) (CKY.spans_of nt s tr) ->
    In (i, k, y) (CKY.spans_of nt s tr) ->
    In (k + 1, j, z) (CKY.spans_of nt s tr) ->
    In (j - i - 1, i, a, y, z) (CKY.rules_of nt s tr).
Proof.
  induction tr as [t|a0 l IHl r IHr]; intros s i j k a y z H Hy Hz.
  - simpl in H, Hy, Hz. destruct H as [H|[]], Hy as [Hy|[]], Hz as [Hz|[]].
    injection H as <- <- <-. injection Hy as <- _. injection Hz as Hk _. lia.
  - pose proof (leaves_pos l) as Pl. pose proof (leaves_pos r) as Pr.
    cbn [CKY.spans_of CKY.rules_of CKY.leaves] in *.
    assert (By : i <= k) by (destruct Hy as [Hy|Hy];
      [injection Hy as <- <- _; lia
      |apply in_app_or in Hy; destruct Hy as [Hy|Hy];
       apply spans_of_bounds in Hy; lia]).
    assert (Bz : k + 1 <= j) by (destruct Hz as [Hz|Hz];
      [injection Hz as <- <- _; lia
      |apply in_app_or in Hz; destruct Hz as [Hz|Hz];
       apply spans_of_bounds in Hz; lia]).
    destruct H as [H|H].
    + injection H as <- <- <-.
      destruct Hy as [Hy|Hy]; [injection Hy as <- _; lia|].
      destruct Hz as [Hz|Hz]; [injection Hz as Hk _; lia|].
      apply in_app_or in Hy. destruct Hy as [Hy|Hy];
        [|apply spans_of_bounds in Hy; lia].
      apply in_app_or in Hz. destruct Hz as [Hz|Hz];
        [apply spans_of_bounds in Hz; lia|].
      pose proof (spans_of_bounds _ _ _ _ _ _ Hy) as B1.
      pose proof (spans_of_bounds _ _ _ _ _ _ Hz) as B2.
      assert (Ek : k = s + CKY.leaves l - 1) by lia. subst k.
      assert (Ey : y = CKY.label nt l).
      { eapply spans_of_unique; [exact Hy|]. apply spans_of_root. }
      assert (Ez : z = CKY.label nt r).
      { eapply spans_of_unique; [exact Hz|].
        replace (s + CKY.leaves l - 1 + 1) with (s + CKY.leaves l) by lia.
        replace (s + (CKY.leaves l + CKY.leaves r) - 1)
          with (s + CKY.leaves l + CKY.leaves r - 1) by lia.
        apply spans_of_root. }
      subst y z. left. f_equal. f_equal. f_equal. f_equal. lia.
    + right. apply in_app_or in H. apply in_or_app. destruct H as [H|H].
      * pose proof (spans_of_bounds _ _ _ _ _ _ H) as B.
        left. apply IHl with (k := k); [exact H| |].
        -- destruct Hy as [Hy|Hy]; [injection Hy as _ Hk _; lia|].
           apply in_app_or in Hy. destruct Hy as [Hy|Hy]; [exact Hy|].
           apply spans_of_bounds in Hy. lia.
        -- destruct Hz as [Hz|Hz]; [injection Hz as _ Hk _; lia|].
           apply in_app_or in Hz. destruct Hz as [Hz|Hz]; [exact Hz|].
           apply spans_of_bounds in Hz. lia.
      * pose proof (spans_of_bounds _ _ _ _ _ _ H) as B.
        right. apply IHr with (k := k); [exact H| |].
        -- destruct Hy as [Hy|Hy]; [injection Hy as Hk _ _; lia|].
           apply in_app_or in Hy. destruct Hy as [Hy|Hy]; [|exact Hy].
           apply spans_of_bounds in Hy. lia.
        -- destruct Hz as [Hz|Hz]; [injection Hz as Hk _ _; lia|].
           apply in_app_or in Hz. destruct Hz as [Hz|Hz]; [|exact Hz].
           apply spans_of_bounds in Hz. lia.
Qed.

Lemma rules_of_nodup (nt : nat) (tr : CKY.tree) (s : nat) :
  NoDup (CKY.rules_of nt s tr).
Proof.
  revert s. induction tr as [t|a0 l IHl r IHr]; intros s; simpl.
  - constructor.
  - pose proof (leaves_pos l) as Pl. pose proof (leaves_pos r) as Pr.
    constructor.
    + intros H. apply in_app_or in H.
      destruct H as [H|H]; apply rules_of_bounds in H; lia.
    + apply NoDup_app; [apply IHl|apply IHr|].
      intros [[[[w i] a] y] z] H1 H2.
      apply rules_of_bounds in H1, H2. lia.
Qed.

Lemma rule_uses_filter (nt a y z : nat) (tr : CKY.tree) (s : nat) :
  length (filter (uses_rule a y z) (CKY.rules_of nt s tr))
  = rule_uses nt a y z tr.
Proof.
  revert s. induction tr as [t|a0 l IHl r IHr]; intros s; [reflexivity|].
  cbn [CKY.rules_of rule_uses filter uses_rule].
  destruct ((a0 =? a) && (CKY.label nt l =? y) && (CKY.label nt r =? z));
    cbn [length]; rewrite filter_app, length_app, IHl, IHr; lia.
Qed.

(** *** What [count_rules] adds *)

Lemma count_rules_value (nt b : nat) (lf rt : nat -> list CKY.entry)
  (cover : list (nat * nat * nat)) :
  forall rules rules',
    CKY.count_rules nt lf rt b cover rules = Ok rules' ->
    forall a y z,
      CKY.data rules' [b; a; y; z]
      = (CKY.data rules [b; a; y; z]
         + Z.of_nat (length (filter (counted lf rt a y z) cover)))%Z.
Proof.
  unfold CKY.count_rules.
  induction cover as [|[[i j] a'] cover IH]; intros rules rules' E a y z.
  - simpl in E. injection E as <-. simpl. lia.
  - cbn [fold_left bind] in E. cbn [filter counted].
    destruct (i <? j) eqn:Eij.
    + destruct (CKY.find_split (lf i) (rt j) (Z.of_nat j - Z.of_nat i + 1))
        as [[y' z']|] eqn:Es.
      2:{ rewrite fold_left_raise in E by reflexivity. discriminate. }
      unfold CKY.count_rule in E.
      destruct (a' <? nt).
      2:{ rewrite fold_left_raise in E by reflexivity. discriminate. }
      rewrite (IH _ _ E a y z). cbn [CKY.data]. rewrite Nat.eqb_refl.
      cbn [andb].
      rewrite (Nat.eqb_sym a a'), (Nat.eqb_sym y y'), (Nat.eqb_sym z z').
      destruct ((a' =? a) && (y' =? y) && (z' =? z)) eqn:Eh.
      * apply andb_prop in Eh. destruct Eh as [Eh Ez].
        apply andb_prop in Eh. destruct Eh as [Ea Ey].
        rewrite Ea, Ey, Ez. cbn [andb length]. lia.
      * destruct (a' =? a); cbn [andb] in *; [|lia].
        rewrite Eh. lia.
    + cbn [andb]. apply (IH _ _ E).
Qed.

Lemma flat_map_nodup {A B : Type} (g : A -> list B) (l : list A) :
  NoDup l ->
  (forall x, In x l -> NoDup (g x)) ->
  (forall x x' y, In x l -> In x' l -> In y (g x) -> In y (g x') -> x = x') ->
  NoDup (flat_map g l).
Proof.
  induction l as [|a l IH]; intros Hl Hg Hd; simpl; [constructor|].
  inversion Hl as [|? ? Ha Hl']; subst.
  apply NoDup_app.
  - apply Hg. now left.
  - apply IH; [exact Hl'| |].
    + intros x Hx. apply Hg. now right.
    + intros x x' y Hx Hx'. apply Hd; now right.
  - intros y Hy Hy'. apply in_flat_map in Hy'. destruct Hy' as (x & Hx & Hyx).
    assert (a = x) by (apply (Hd a x y); auto with datatypes).
    subst x. contradiction.
Qed.

Lemma nonzero_nodup (n1 n2 n3 : nat) (f : nat -> nat -> nat -> Z) :
  NoDup (CKY.nonzero n1 n2 n3 f).
Proof.
  unfold CKY.nonzero.
  apply flat_map_nodup; [apply seq_NoDup| |].
  - intros i _. apply flat_map_nodup; [apply seq_NoDup| |].
    + intros j _. apply flat_map_nodup; [apply seq_NoDup| |].
      * intros a _. destruct (f i j a =? 0)%Z; repeat constructor. intros [].
      * intros a a' y _ _ H H'.
        destruct (f i j a =? 0)%Z; [destruct H|].
        destruct (f i j a' =? 0)%Z; [destruct H'|].
        destruct H as [<-|[]], H' as [H'|[]]. congruence.
    + intros j j' y _ _ H H'.
      apply in_flat_map in H, H'.
      destruct H as (a & _ & H), H' as (a' & _ & H').
      destruct (f i j a =? 0)%Z; [destruct H|].
      destruct (f i j' a' =? 0)%Z; [destruct H'|].
      destruct H as [<-|[]], H' as [H'|[]]. congruence.
  - intros i i' y _ _ H H'.
    apply in_flat_map in H, H'.
    destruct H as (j & _ & H), H' as (j' & _ & H').
    apply in_flat_map in H, H'.
    destruct H as (a & _ & H), H' as (a' & _ & H').
    destruct (f i j a =? 0)%Z; [destruct H|].
    destruct (f i' j' a' =? 0)%Z; [destruct H'|].
    destruct H as [<-|[]], H' as [H'|[]]. congruence.
Qed.

Lemma map_nodup_on {A B : Type} (g : A -> B) (l : list A) :
  NoDup l ->
  (forall x x', In x l -> In x' l -> g x = g x' -> x = x') ->
  NoDup (map g l).
Proof.
  induction l as [|a l IH]; intros Hl Hg; simpl; [constructor|].
  inversion Hl as [|? ? Ha Hl']; subst. constructor.
  - intros H. apply in_map_iff in H. destruct H as (x & E & Hx).
    assert (x = a) by (apply Hg; auto with datatypes). subst x. contradiction.
  - apply IH; [exact Hl'|]. intros x x' Hx Hx'. apply Hg; now right.
Qed.

(** *** The cover of a tree's labelling *)

Section TreeCover.
Variables nt t n : nat.
Variable tr : CKY.tree.
Hypothesis Hwf : CKY.well_formed nt t tr.
Hypothesis Hn : CKY.leaves tr <= n.

Local Abbreviation cover :=
  (cover_of (CKY.dense_labels nt t n tr) n (nt + t) 0).

Lemma in_tree_cover (i j a : nat) :
  In (i, j, a) cover <-> In (i, j, a) (CKY.spans_of nt 0 tr).
Proof.
  unfold cover_of. rewrite in_nonzero, dense_labelled. split; [tauto|].
  intros H.
  pose proof (@spans_of_bounds nt tr 0 i j a H).
  pose proof (@spans_of_labels nt t tr Hwf 0 i j a H).
  repeat split; try lia. exact H.
Qed.

Lemma counted_is_rule (a y z i j a' : nat) :
  In (i, j, a') cover ->
  (counted (left_of cover) (right_of cover) a y z (i, j, a') = true
   <-> a' = a /\ In (j - i - 1, i, a, y, z) (CKY.rules_of nt 0 tr) /\ i < j).
Proof.
  intros Hin. cbn [counted]. split.
  - intros H. apply andb_prop in H. destruct H as [H Hs].
    apply andb_prop in H. destruct H as [Hij Ha].
    apply Nat.ltb_lt in Hij. apply Nat.eqb_eq in Ha. subst a'.
    destruct (CKY.find_split _ _ _) as [[y' z']|] eqn:E; [|discriminate].
    apply andb_prop in Hs. destruct Hs as [Hy Hz].
    apply Nat.eqb_eq in Hy, Hz. subst y' z'.
    apply find_split_sound in E.
    destruct E as (k & sa & sb & Hl & Hr).
    apply in_left_of in Hl. apply in_right_of in Hr.
    destruct Hl as [Hl _], Hr as [Hr _].
    apply in_tree_cover in Hin, Hl, Hr.
    split; [reflexivity|]. split; [|exact Hij].
    eapply tree_split_is_rule; eauto.
  - intros (-> & Hr & Hij).
    replace (i <? j) with true by (symmetry; apply Nat.ltb_lt; lia).
    rewrite Nat.eqb_refl. cbn [andb].
    assert (Hs : splits cover i j).
    { apply (@dense_splits nt t n tr 0 i j a Hwf Hn Hin Hij). }
    apply find_split_cover in Hs. destruct Hs as ([y' z'] & E).
    rewrite E.
    pose proof E as E'. apply find_split_sound in E'.
    destruct E' as (k & sa & sb & Hl & Hr').
    apply in_left_of in Hl. apply in_right_of in Hr'.
    destruct Hl as [Hl _], Hr' as [Hr' _].
    apply in_tree_cover in Hl, Hr'.
    assert (Hrule : In (j - i - 1, i, a, y', z') (CKY.rules_of nt 0 tr)).
    { eapply tree_split_is_rule; eauto. now apply in_tree_cover. }
    destruct (@rules_of_unique nt tr 0 _ _ _ _ _ _ _ _ Hr Hrule)
      as (_ & -> & ->).
    now rewrite !Nat.eqb_refl.
Qed.

Lemma counted_count (a y z : nat) :
  length (filter (counted (left_of cover) (right_of cover) a y z) cover)
  = rule_uses nt a y z tr.
Proof.
  rewrite <- (rule_uses_filter nt a y z tr 0).
  rewrite <- (length_map span_of_rule
                (filter (uses_rule a y z) (CKY.rules_of nt 0 tr))).
  apply Permutation_length. apply NoDup_Permutation.
  - apply NoDup_filter. apply nonzero_nodup.
  - apply map_nodup_on.
    + apply NoDup_filter. apply rules_of_nodup.
    + intros [[[[w i] a1] y1] z1] [[[[w' i'] a2] y2] z2] H H' E.
      apply filter_In in H, H'. destruct H as [H Hu], H' as [H' Hu'].
      cbn [span_of_rule] in E. injection E as Ei Ew Ea.
      cbn [uses_rule] in Hu, Hu'.
      repeat match goal with
             | H : _ && _ = true |- _ => apply andb_prop in H; destruct H
             | H : (_ =? _) = true |- _ => apply Nat.eqb_eq in H
             end.
      subst. f_equal. f_equal. f_equal. f_equal. lia.
  - intros [[i j] a']. rewrite filter_In, in_map_iff. split.
    + intros [Hin Hc]. apply (@counted_is_rule a y z _ _ _ Hin) in Hc.
      destruct Hc as (-> & Hr & Hij).
      exists (j - i - 1, i, a, y, z). split.
      * cbn [span_of_rule]. f_equal. f_equal. lia.
      * apply filter_In. split; [exact Hr|].
        cbn [uses_rule]. now rewrite !Nat.eqb_refl.
    + intros ([[[[w i0] a0] y0] z0] & E & Hr).
      apply filter_In in Hr. destruct Hr as [Hr Hu].
      cbn [span_of_rule] in E. injection E as <- <- <-.
      cbn [uses_rule] in Hu.
      repeat match goal with
             | H : _ && _ = true |- _ => apply andb_prop in H; destruct H
             | H : (_ =? _) = true |- _ => apply Nat.eqb_eq in H
             end.
      subst a0 y0 z0.
      assert (Hin : In (i0, i0 + w + 1, a) cover).
      { apply in_tree_cover.
        apply (@rules_of_in_spans nt t tr Hwf 0 w i0 a y z Hr). }
      split; [exact Hin|].
      apply (@counted_is_rule a y z _ _ _ Hin). split; [reflexivity|].
      split; [|lia].
      replace (i0 + w + 1 - i0 - 1) with w by lia. exact Hr.
Qed.
End TreeCover.

Lemma leaf_labels_length (tr : CKY.tree) :
  length (leaf_labels tr) = CKY.leaves tr.
Proof.
  induction tr as [t|a l IHl r IHr]; simpl; [reflexivity|].
  rewrite length_app. lia.
Qed.

Lemma leaf_span (nt : nat) (tr : CKY.tree) :
  forall s i x,
    In (i, i, nt + x) (CKY.spans_of nt s tr)
    <-> s <= i /\ nth_error (leaf_labels tr) (i - s) = Some x.
Proof.
  induction tr as [t0|a l IHl r IHr]; intros s i x.
  - simpl. split.
    + intros [H|[]]. injection H as <- _ H.
      assert (x = t0) by lia. subst x.
      rewrite Nat.sub_diag. split; [lia|reflexivity].
    + intros [Hs H]. destruct (i - s) as [|k] eqn:E.
      * injection H as <-. left. replace i with s by lia. reflexivity.
      * destruct k; discriminate.
  - pose proof (leaves_pos l) as Pl. pose proof (leaves_pos r) as Pr.
    cbn [CKY.spans_of leaf_labels CKY.leaves]. split.
    + intros [H|H]; [injection H as Hs Hi _; lia|].
      apply in_app_or in H. destruct H as [H|H].
      * pose proof (@spans_of_bounds nt l s i i _ H) as B.
        apply IHl in H. destruct H as [Hs H]. split; [exact Hs|].
        rewrite nth_error_app1 by (rewrite leaf_labels_length; lia).
        exact H.
      * pose proof (@spans_of_bounds nt r _ i i _ H) as B.
        apply IHr in H. destruct H as [Hs H]. split; [lia|].
        rewrite nth_error_app2 by (rewrite leaf_labels_length; lia).
        rewrite leaf_labels_length.
        replace (i - s - CKY.leaves l) with (i - (s + CKY.leaves l)) by lia.
        exact H.
    + intros [Hs H]. right. apply in_or_app.
      destruct (Nat.lt_ge_cases (i - s) (CKY.leaves l)) as [Hlt|Hge].
      * left. apply IHl. split; [exact Hs|].
        rewrite nth_error_app1 in H by (rewrite leaf_labels_length; lia).
        exact H.
      * right. apply IHr. split; [lia|].
        rewrite nth_error_app2 in H by (rewrite leaf_labels_length; lia).
        rewrite leaf_labels_length in H.
        replace (i - (s + CKY.leaves l)) with (i - s - CKY.leaves l) by lia.
        exact H.
Qed.

Lemma indicator_ext (p q : bool) :
  (p = true <-> q = true) -> CKY.indicator p = CKY.indicator q.
Proof.
  intros H. destruct p, q; try reflexivity.
  - destruct H as [H _]. discriminate (H eq_refl).
  - destruct H as [_ H]. discriminate (H eq_refl).
Qed.

(** X13: on the dense labelling of a well-formed tree, padded to [n]
    positions and with [lengths] its number of leaves, [to_parts] returns
    [terms] of shape [[1; n; T]], [rules] of shape [[1; NT; S; S]] and
    [roots] of shape [[1; NT]]: [terms[0, i, x]] is [1] exactly when leaf
    [i] is the terminal [x], [rules[0, A, B, C]] is the number of nodes
    that apply [A -> B C], and [roots[0, A]] is [1] exactly when [A]
    labels the root. *)
Theorem to_parts_of_tree (nt t n : nat) (tr : CKY.tree) :
  CKY.well_formed nt t tr -> CKY.leaves tr <= n ->
  exists terms rules roots,
    CKY.to_parts (CKY.dense_labels nt t n tr) (nt, t)
      (Some [Z.of_nat (CKY.leaves tr)]) = Ok (terms, rules, roots)
    /\ (CKY.shape terms = [1; n; t]
        /\ CKY.shape rules = [1; nt; nt + t; nt + t]
        /\ CKY.shape roots = [1; nt])
    /\ (forall i x, i < n -> x < t ->
          CKY.data terms [0; i; x]
          = CKY.indicator
              (match nth_error (leaf_labels tr) i with
               | Some x' => x' =? x
               | None => false
               end))
    /\ (forall a y z,
          CKY.data rules [0; a; y; z] = Z.of_nat (rule_uses nt a y z tr))
    /\ (forall a, a < nt ->
          CKY.data roots [0; a] = CKY.indicator (a =? CKY.label nt tr)).
Proof.
  intros Hwf Hn. pose proof (leaves_pos tr) as Hl.
  unfold CKY.to_parts. cbn [CKY.shape CKY.dense_labels].
  rewrite Nat.eqb_refl. cbn [bind].
  change (range 0 1) with [0]. cbn [fold_left bind].
  unfold CKY.to_parts_batch. cbn [nth_error bind].
  rewrite py_index_zero by lia. cbn [bind].
  rewrite py_index_pred by lia. cbn [bind].
  replace (Z.of_nat (CKY.leaves tr) <? 0)%Z with false
    by (symmetry; apply Z.ltb_ge; lia).
  cbn [bind]. rewrite Nat2Z.id.
  replace (CKY.leaves tr <=? n) with true by (symmetry; apply Nat.leb_le; lia).
  cbn [andb bind].
  fold (cover_of (CKY.dense_labels nt t n tr) n (nt + t) 0).
  set (cover := cover_of (CKY.dense_labels nt t n tr) n (nt + t) 0).
  destruct (@left_right_ok n cover) as (lf & rt & Elr & Hlf & Hrt).
  { intros i j a H. apply in_nonzero in H. lia. }
  rewrite Elr. cbn [bind].
  destruct (@count_rules_cases nt 0 lf rt cover Hlf Hrt cover
              (CKY.zeros [1; nt; nt + t; nt + t]))
    as [(rules' & E & _)|(_ & i & j & a & Hin & Hij & Hns)].
  { intros i j a H Hlt. apply (@in_tree_cover nt t n tr Hwf Hn) in H.
    destruct (@spans_of_labels nt t tr Hwf 0 i j a H) as (_ & Hw & _).
    exact (Hw Hlt). }
  2:{ exfalso. apply Hns.
      apply (@dense_splits nt t n tr 0 i j a Hwf Hn Hin Hij). }
  rewrite E. cbn [bind].
  eexists. eexists. eexists. split; [reflexivity|].
  split; [|split; [|split]].
  - cbn [CKY.shape CKY.zeros]. split; [reflexivity|]. split; [|reflexivity].
    rewrite (@count_rules_shape _ _ _ _ _ _ _ E). reflexivity.
  - intros i x Hi Hx. cbn [CKY.data CKY.zeros].
    rewrite Nat.eqb_refl. cbn [andb].
    replace (x <? t) with true by (symmetry; apply Nat.ltb_lt; lia).
    rewrite Bool.andb_true_r.
    destruct (i <? CKY.leaves tr) eqn:Ei.
    + cbn [CKY.dense_labels CKY.data]. apply indicator_ext.
      rewrite existsb_triple, (leaf_span nt tr 0 i x), Nat.sub_0_r.
      destruct (nth_error (leaf_labels tr) i) as [x'|].
      * rewrite Nat.eqb_eq. split.
        -- intros [_ H]. now injection H.
        -- intros ->. split; [lia|reflexivity].
      * split; [intros [_ H]; discriminate|discriminate].
    + apply Nat.ltb_ge in Ei.
      replace (nth_error (leaf_labels tr) i) with (@None nat); [reflexivity|].
      symmetry. apply nth_error_None. rewrite leaf_labels_length. lia.
  - intros a y z.
    rewrite (@count_rules_value _ _ _ _ _ _ _ E a y z). cbn [CKY.data CKY.zeros].
    rewrite Z.add_0_l. f_equal.
    erewrite filter_ext; [apply (@counted_count nt t n tr Hwf Hn a y z)|].
    intros [[i j] a']. cbn [counted]. now rewrite Hlf, Hrt.
  - intros a Ha. cbn [CKY.data CKY.zeros].
    rewrite Nat.eqb_refl. cbn [andb].
    replace (a <? nt) with true by (symmetry; apply Nat.ltb_lt; lia).
    cbn [CKY.dense_labels CKY.data]. apply indicator_ext.
    rewrite existsb_triple, Nat.eqb_eq. split.
    + intros H. eapply spans_of_unique; [exact H|].
      apply (@spans_of_root nt tr 0).
    + intros ->. apply (@spans_of_root nt tr 0).
Qed.

Lemma to_parts_of_tree_witness :
  exists terms rules roots,
    CKY.to_parts (CKY.dense_labels 2 2 4 example_tree) (2, 2)
      (Some [Z.of_nat (CKY.leaves example_tree)]) = Ok (terms, rules, roots)
    /\ (CKY.shape terms = [1; 4; 2]
        /\ CKY.shape rules = [1; 2; 2 + 2; 2 + 2]
        /\ CKY.shape roots = [1; 2])
    /\ (forall i x, i < 4 -> x < 2 ->
          CKY.data terms [0; i; x]
          = CKY.indicator
              (match nth_error (leaf_labels example_tree) i with
               | Some x' => x' =? x
               | None => false
               end))
    /\ (forall a y z,
          CKY.data rules [0; a; y; z]
          = Z.of_nat (rule_uses 2 a y z example_tree))
    /\ (forall a, a < 2 ->
          CKY.data roots [0; a] = CKY.indicator (a =? CKY.label 2 example_tree)).
Proof.
  apply (@to_parts_of_tree 2 2 4 example_tree); simpl; lia.
Defined.

Lemma to_parts_batch_shapes (spans : CKY.tensor) (nt t n1 n : nat)
  (lengths : option (list Z)) (te ru ro te' ru' ro' : CKY.tensor) (b : nat) :
  CKY.to_parts_batch spans nt t n1 n lengths (te, ru, ro) b = Ok (te', ru', ro') ->
  CKY.shape te' = CKY.shape te /\ CKY.shape ru' = CKY.shape ru
  /\ CKY.shape ro' = CKY.shape ro.
Proof.
  unfold CKY.to_parts_batch. intros H.
  destruct lengths as [ls|]; [|discriminate]. cbn [bind] in H.
  destruct (nth_error ls b) as [l|]; [|discriminate]. cbn [bind] in H.
  destruct (py_index n1 0); [|discriminate]. cbn [bind] in H.
  destruct (py_index n (l - 1)); [|discriminate]. cbn [bind] in H.
  destruct (l <? 0)%Z; [discriminate|]. cbn [bind] in H.
  destruct ((Z.to_nat l <=? n1) && (Z.to_nat l <=? n)); [|discriminate].
  cbn [bind] in H.
  destruct (CKY.left_right _ _) as [[lf rt]|]; [|discriminate].
  cbn [bind] in H.
  destruct (CKY.count_rules _ _ _ _ _ _) as [ru2|] eqn:E; [|discriminate].
  cbn [bind] in H. inversion H; subst. cbn [CKY.shape].
  apply count_rules_shape in E. auto.
Qed.

(** X14: whenever [to_parts] returns [(terms, rules, roots)] for
    [extra = (NT, T)], its input had a shape [[batch; N1; N; NT + T]] and
    the results have the shapes [[batch; N; T]],
    [[batch; NT; NT + T; NT + T]] and [[batch; NT]]. *)
Theorem to_parts_shapes (spans : CKY.tensor) (nt t : nat)
  (lengths : option (list Z)) (te ru ro : CKY.tensor) :
  CKY.to_parts spans (nt, t) lengths = Ok (te, ru, ro) ->
  exists batch n1 n,
    CKY.shape spans = [batch; n1; n; nt + t]
    /\ CKY.shape te = [batch; n; t]
    /\ CKY.shape ru = [batch; nt; nt + t; nt + t]
    /\ CKY.shape ro = [batch; nt].
Proof.
  unfold CKY.to_parts.
  destruct (CKY.shape spans) as [|batch [|n1 [|n [|s [|x rest]]]]];
    try discriminate.
  destruct (s =? nt + t) eqn:Es; [|discriminate]. cbn [bind].
  apply Nat.eqb_eq in Es. subst s.
  assert (G : forall (bs : list nat) te0 ru0 ro0,
             fold_left
               (fun acc b =>
                  a <- acc ;; CKY.to_parts_batch spans nt t n1 n lengths a b)
               bs (Ok (te0, ru0, ro0)) = Ok (te, ru, ro) ->
             CKY.shape te = CKY.shape te0 /\ CKY.shape ru = CKY.shape ru0
             /\ CKY.shape ro = CKY.shape ro0).
  { induction bs as [|b bs IH]; intros te0 ru0 ro0 H.
    - inversion H. auto.
    - cbn [fold_left bind] in H.
      destruct (CKY.to_parts_batch spans nt t n1 n lengths (te0, ru0, ro0) b)
        as [[[te1 ru1] ro1]|] eqn:E.
      + apply IH in H. apply to_parts_batch_shapes in E.
        destruct H as (-> & -> & ->). exact E.
      + rewrite fold_left_raise in H by reflexivity. discriminate. }
  intros H. apply G in H. exists batch, n1, n.
  split; [reflexivity|exact H].
Qed.

(** X15: [to_event] drops the lengths it is given, and [to_parts] cannot do
    without them: on a labelling with at least one batch element
    [to_event] raises [TypeError]. *)
Theorem to_event_needs_lengths (sequence : CKY.tensor) (nt t : nat)
  (lengths : option (list Z)) (batch n1 n : nat) :
  CKY.shape sequence = [batch; n1; n; nt + t] -> 1 <= batch ->
  SentCFG.to_event sequence (nt, t) lengths = Raise TypeError.
Proof.
  intros Hs Hb. unfold SentCFG.to_event, CKY.to_parts. rewrite Hs.
  rewrite Nat.eqb_refl. cbn [bind].
  unfold range. rewrite Nat.sub_0_r.
  destruct batch as [|batch]; [lia|].
  cbn [seq fold_left bind]. apply fold_left_raise. reflexivity.
Qed.

(** X16: on [rules] of a shape [[batch; N1; N; NT; S1; S]] with [N <= N1]
    and [NT <= S], and [terms] of the shape [[batch; N; S - NT]],
    [from_parts] returns [(spans, (NT, S - NT))] with [spans] of the shape
    [[batch; N; N; S]].  [spans[b, i, j, a]] is the sum of
    [rules[b, j - i - 1, i, a, :, :]] for [i < j < N] and [a < NT],
    [terms[b, i, a - NT]] for [i = j < N] and [NT <= a < S], and [0]
    elsewhere; [roots] is not read. *)
Theorem from_parts_entries (terms rules roots : CKY.tensor)
  (batch n1 n nt s1 s : nat) :
  CKY.shape rules = [batch; n1; n; nt; s1; s] ->
  CKY.shape terms = [batch; n; s - nt] ->
  n <= n1 -> nt <= s ->
  exists sp,
    CKY.from_parts (terms, rules, roots) = Ok (sp, (nt, s - nt))
    /\ CKY.shape sp = [batch; n; n; s]
    /\ forall b i j a,
         CKY.data sp [b; i; j; a]
         = if (i <? j) && (j <? n) && (a <? nt)
           then CKY.sum_last_two s1 s rules b (j - i - 1) i a
           else if (i =? j) && (i <? n) && (nt <=? a) && (a <? s)
                then CKY.data terms [b; i; a - nt]
                else 0%Z.
Proof.
  intros Er Et Hn Hs. unfold CKY.from_parts. rewrite Er, Et.
  rewrite Nat.eqb_refl. cbn [bind].
  replace (n <=? n1) with true by (symmetry; now apply Nat.leb_le).
  cbn [bind].
  replace (nt <=? s) with true by (symmetry; now apply Nat.leb_le).
  cbn [bind].
  destruct (list_eq_dec Nat.eq_dec [batch; n; s - nt] [batch; n; s - nt])
    as [_|Hne]; [|now elim Hne].
  cbn [bind]. eexists. split; [reflexivity|]. split; [reflexivity|].
  intros b i j a. cbn [CKY.data]. unfold range. rewrite Nat.sub_0_r.
  rewrite from_parts_loop.
  destruct (Nat.ltb_spec i j); destruct (Nat.ltb_spec j n);
    destruct (Nat.ltb_spec a nt); destruct (Nat.eqb_spec i j);
    destruct (Nat.eqb_spec j i); destruct (Nat.ltb_spec i n);
    destruct (Nat.leb_spec nt a); destruct (Nat.ltb_spec a s);
    destruct (Nat.ltb_spec (j - i - 1) n);
    cbn [andb]; try reflexivity; try lia.
Qed.

Lemma to_parts_shapes_witness :
  exists te ru ro batch n1 n,
    CKY.to_parts (CKY.dense_labels 2 2 3 example_tree) (2, 2) (Some [3%Z])
    = Ok (te, ru, ro)
    /\ CKY.shape (CKY.dense_labels 2 2 3 example_tree) = [batch; n1; n; 2 + 2]
    /\ CKY.shape te = [batch; n; 2]
    /\ CKY.shape ru = [batch; 2; 2 + 2; 2 + 2]
    /\ CKY.shape ro = [batch; 2].
Proof.
  eexists. eexists. eexists.
  assert (E : CKY.to_parts (CKY.dense_labels 2 2 3 example_tree) (2, 2)
                (Some [3%Z]) = Ok (?[te], ?[ru], ?[ro])) by reflexivity.
  destruct (@to_parts_shapes _ 2 2 _ _ _ _ E) as (batch & n1 & n & H).
  exists batch, n1, n. split; [exact E|exact H].
Defined.

Lemma to_event_needs_lengths_witness :
  SentCFG.to_event (CKY.dense_labels 2 2 3 example_tree) (2, 2) (Some [3%Z])
  = Raise TypeError.
Proof.
  apply (@to_event_needs_lengths (CKY.dense_labels 2 2 3 example_tree) 2 2
           (Some [3%Z]) 1 3 3); [reflexivity|lia].
Defined.

Lemma from_parts_entries_witness :
  exists sp,
    CKY.from_parts (CKY.tree_parts 2 2 3 example_tree) = Ok (sp, (2, 4 - 2))
    /\ CKY.shape sp = [1; 3; 3; 4]
    /\ forall b i j a,
         CKY.data sp [b; i; j; a]
         = if (i <? j) && (j <? 3) && (a <? 2)
           then CKY.sum_last_two 4 4
                  (snd (fst (CKY.tree_parts 2 2 3 example_tree)))
                  b (j - i - 1) i a
           else if (i =? j) && (i <? 3) && (2 <=? a) && (a <? 4)
                then CKY.data (fst (fst (CKY.tree_parts 2 2 3 example_tree)))
                       [b; i; a - 2]
                else 0%Z.
Proof.
  apply (@from_parts_entries
           (fst (fst (CKY.tree_parts 2 2 3 example_tree)))
           (snd (fst (CKY.tree_parts 2 2 3 example_tree)))
           (snd (CKY.tree_parts 2 2 3 example_tree))
           1 3 3 2 4 4); [reflexivity|reflexivity|lia|lia].
Defined.

Local Open Scope R_scope.

Lemma rsum_app (l l' : list R) : CKY.rsum (l ++ l') = CKY.rsum l + CKY.rsum l'.
Proof.
  induction l as [|x l IH]; simpl; [lra|]. fold (CKY.rsum (l ++ l')).
  fold (CKY.rsum l). rewrite IH. lra.
Qed.

Lemma rsum_ext {A : Type} (f g : A -> R) (l : list A) :
  (forall a, In a l -> f a = g a) ->
  CKY.rsum (map f l) = CKY.rsum (map g l).
Proof. intros H. f_equal. apply map_ext_in. exact H. Qed.

Lemma rsum_zero {A : Type} (f : A -> R) (l : list A) :
  (forall a, In a l -> f a = 0) -> CKY.rsum (map f l) = 0.
Proof.
  induction l as [|a l IH]; intros H; simpl; [reflexivity|].
  fold (CKY.rsum (map f l)).
  rewrite IH by (intros; apply H; now right).
  rewrite (H a) by now left. lra.
Qed.

Lemma rsum_plus {A : Type} (f g : A -> R) (l : list A) :
  CKY.rsum (map (fun a => f a + g a) l)
  = CKY.rsum (map f l) + CKY.rsum (map g l).
Proof.
  induction l as [|a l IH]; simpl; [lra|].
  fold (CKY.rsum (map (fun a => f a + g a) l)).
  fold (CKY.rsum (map f l)). fold (CKY.rsum (map g l)). rewrite IH. lra.
Qed.

(** A sum with one term that is not zero. *)
Lemma rsum_single (f : nat -> R) (lo n k0 : nat) :
  (lo <= k0 < lo + n)%nat ->
  (forall k, (lo <= k < lo + n)%nat -> k <> k0 -> f k = 0) ->
  CKY.rsum (map f (seq lo n)) = f k0.
Proof.
  intros Hk H.
  replace n with ((k0 - lo) + S (lo + n - k0 - 1))%nat by lia.
  rewrite seq_app, map_app, rsum_app. cbn [seq map CKY.rsum fold_right].
  fold (CKY.rsum (map f (seq (S (lo + (k0 - lo))) (lo + n - k0 - 1)))).
  rewrite !rsum_zero.
  - replace (lo + (k0 - lo))%nat with k0 by lia. lra.
  - intros k Hin. apply in_seq in Hin. apply H; lia.
  - intros k Hin. apply in_seq in Hin. apply H; lia.
Qed.

Lemma IZR_indicator (b : bool) : IZR (CKY.indicator b) = if b then 1 else 0.
Proof. destruct b; reflexivity. Qed.

Lemma leaf_score_labels (terms : nat -> nat -> R) (tr : CKY.tree) :
  forall s,
    leaf_score terms s tr
    = CKY.rsum
        (map (fun i =>
                match nth_error (leaf_labels tr) (i - s) with
                | Some x => terms i x
                | None => 0
                end) (seq s (CKY.leaves tr))).
Proof.
  induction tr as [x|a l IHl r IHr]; intros s.
  - simpl. rewrite Nat.sub_diag. simpl. lra.
  - cbn [leaf_score CKY.leaves leaf_labels].
    rewrite seq_app, map_app, rsum_app, IHl, IHr. f_equal.
    + apply rsum_ext. intros i Hi. apply in_seq in Hi.
      rewrite nth_error_app1 by (rewrite leaf_labels_length; lia).
      reflexivity.
    + apply rsum_ext. intros i Hi. apply in_seq in Hi.
      rewrite nth_error_app2 by (rewrite leaf_labels_length; lia).
      rewrite leaf_labels_length.
      replace (i - s - CKY.leaves l)%nat with (i - (s + CKY.leaves l))%nat
        by lia.
      reflexivity.
Qed.

Lemma leaf_labels_wf (nt t : nat) (tr : CKY.tree) :
  CKY.well_formed nt t tr ->
  forall i x, nth_error (leaf_labels tr) i = Some x -> (x < t)%nat.
Proof.
  induction tr as [x0|a l IHl r IHr]; intros Hwf i x H.
  - simpl in *. destruct i as [|i]; [|destruct i; discriminate].
    injection H as <-. exact Hwf.
  - simpl in Hwf. destruct Hwf as (_ & Hl & Hr). cbn [leaf_labels] in H.
    destruct (Nat.lt_ge_cases i (length (leaf_labels l))) as [Hi|Hi].
    + rewrite nth_error_app1 in H by exact Hi. eapply IHl; eauto.
    + rewrite nth_error_app2 in H by exact Hi. eapply IHr; eauto.
Qed.

Lemma term_part_score (nt t n : nat) (terms : nat -> nat -> R)
  (tr : CKY.tree) :
  CKY.well_formed nt t tr -> (CKY.leaves tr <= n)%nat ->
  CKY.rsum
    (map (fun i =>
            CKY.rsum
              (map (fun x =>
                      IZR (CKY.indicator
                             (existsb (CKY.triple_eqb (i, i, (nt + x)%nat))
                                (CKY.spans_of nt 0 tr)))
                      * terms i x)
                 (seq 0 t)))
       (seq 0 n))
  = leaf_score terms 0 tr.
Proof.
  intros Hwf Hn.
  rewrite leaf_score_labels.
  replace n with (CKY.leaves tr + (n - CKY.leaves tr))%nat at 1 by lia.
  rewrite seq_app, map_app, rsum_app.
  rewrite (@rsum_zero _ _ (seq (0 + CKY.leaves tr) (n - CKY.leaves tr))).
  - rewrite Rplus_0_r. apply rsum_ext. intros i Hi. apply in_seq in Hi.
    rewrite Nat.sub_0_r.
    destruct (nth_error (leaf_labels tr) i) as [x0|] eqn:E.
    + pose proof (@leaf_labels_wf _ _ _ Hwf _ _ E) as Hx0.
      rewrite (@rsum_single _ 0 t x0); [|lia|].
      * replace (existsb _ _) with true; [simpl; lra|].
        symmetry. apply existsb_triple. apply leaf_span.
        rewrite Nat.sub_0_r. split; [lia|exact E].
      * intros x Hx Hne.
        replace (existsb _ _) with false; [simpl; lra|].
        symmetry. apply Bool.not_true_is_false. intros H.
        apply existsb_triple, leaf_span in H. rewrite Nat.sub_0_r in H.
        destruct H as [_ H]. congruence.
    + apply rsum_zero. intros x Hx.
      replace (existsb _ _) with false; [simpl; lra|].
      symmetry. apply Bool.not_true_is_false. intros H.
      apply existsb_triple, leaf_span in H. rewrite Nat.sub_0_r in H.
      destruct H as [_ H]. congruence.
  - intros i Hi. apply in_seq in Hi. apply rsum_zero. intros x Hx.
    replace (existsb _ _) with false; [simpl; lra|].
    symmetry. apply Bool.not_true_is_false. intros H.
    apply existsb_triple in H. apply spans_of_bounds in H. lia.
Qed.

Lemma root_part_score (nt t : nat) (roots : nat -> R) (tr : CKY.tree) :
  CKY.well_formed nt t tr ->
  CKY.rsum
    (map (fun a => IZR (CKY.indicator (a =? CKY.label nt tr)) * roots a)
       (seq 0 nt))
  = root_score roots tr.
Proof.
  intros Hwf. destruct tr as [x|a0 l r]; cbn [CKY.label root_score].
  - apply rsum_zero. intros a Ha. apply in_seq in Ha.
    replace (a =? nt + x) with false by (symmetry; apply Nat.eqb_neq; lia).
    simpl. lra.
  - simpl in Hwf. destruct Hwf as (Ha0 & _).
    rewrite (@rsum_single _ 0 nt a0); [|lia|].
    + rewrite Nat.eqb_refl. simpl. lra.
    + intros a Ha Hne.
      replace (a =? a0) with false by (symmetry; apply Nat.eqb_neq; lia).
      simpl. lra.
Qed.

Local Close Scope R_scope.

Lemma zsum_ext {A : Type} (f g : A -> Z) (l : list A) :
  (forall a, In a l -> f a = g a) -> zsum (map f l) = zsum (map g l).
Proof. intros H. f_equal. apply map_ext_in. exact H. Qed.

Lemma zsum_plus {A : Type} (f g : A -> Z) (l : list A) :
  zsum (map (fun a => (f a + g a)%Z) l)
  = (zsum (map f l) + zsum (map g l))%Z.
Proof.
  induction l as [|a l IH]; simpl; [reflexivity|].
  fold (zsum (map (fun a => (f a + g a)%Z) l)).
  fold (zsum (map f l)). fold (zsum (map g l)). rewrite IH. lia.
Qed.

Lemma indicator_or3 (p q r : bool) :
  ~ (p = true /\ q = true) -> ~ (p = true /\ r = true) ->
  ~ (q = true /\ r = true) ->
  CKY.indicator (p || (q || r))
  = (CKY.indicator p + CKY.indicator q + CKY.indicator r)%Z.
Proof. destruct p, q, r; simpl; intros; try reflexivity; exfalso; auto. Qed.

(** Summed over the positions, the rule indicators of a tree count the
    nodes that apply the rule. *)
Lemma positions_count (nt a y z : nat) (tr : CKY.tree) :
  forall s n,
    s + CKY.leaves tr <= n ->
    zsum
      (map (fun w =>
              zsum
                (map (fun i =>
                        CKY.indicator
                          (existsb (CKY.rule_eqb w i a y z)
                             (CKY.rules_of nt s tr)))
                   (seq 0 n)))
         (seq 0 n))
    = Z.of_nat (rule_uses nt a y z tr).
Proof.
  induction tr as [x|a0 l IHl r IHr]; intros s n Hn.
  - simpl. apply zsum_zero. intros w _. apply zsum_zero. reflexivity.
  - pose proof (leaves_pos l) as Pl. pose proof (leaves_pos r) as Pr.
    cbn [CKY.leaves] in Hn.
    cbn [CKY.rules_of rule_uses existsb CKY.leaves].
    rewrite !Nat2Z.inj_add.
    rewrite <- (IHl s n) by lia.
    rewrite <- (IHr (s + CKY.leaves l) n) by lia.
    set (hit := (a0 =? a) && (CKY.label nt l =? y) && (CKY.label nt r =? z)).
    transitivity
      (zsum
         (map (fun w =>
                 Z.add
                   (zsum
                      (map (fun i =>
                              CKY.indicator
                                ((w =? CKY.leaves l + CKY.leaves r - 2)
                                 && (i =? s) && hit))
                         (seq 0 n)))
                   (Z.add
                      (zsum
                         (map (fun i =>
                                 CKY.indicator
                                   (existsb (CKY.rule_eqb w i a y z)
                                      (CKY.rules_of nt s l)))
                            (seq 0 n)))
                      (zsum
                         (map (fun i =>
                                 CKY.indicator
                                   (existsb (CKY.rule_eqb w i a y z)
                                      (CKY.rules_of nt (s + CKY.leaves l) r)))
                            (seq 0 n)))))
            (seq 0 n))).
    + apply zsum_ext. intros w _.
      rewrite <- zsum_plus, <- zsum_plus.
      apply zsum_ext. intros i _.
      rewrite existsb_app.
      replace (CKY.rule_eqb w i a y z
                 (CKY.leaves l + CKY.leaves r - 2, s, a0,
                  CKY.label nt l, CKY.label nt r))
        with ((w =? CKY.leaves l + CKY.leaves r - 2) && (i =? s) && hit).
      2:{ unfold CKY.rule_eqb, hit.
          rewrite (Nat.eqb_sym a0 a), (Nat.eqb_sym (CKY.label nt l) y),
            (Nat.eqb_sym (CKY.label nt r) z).
          now rewrite !Bool.andb_assoc. }
      rewrite indicator_or3; [lia| | |].
      * intros [H1 H2]. apply existsb_rule in H2.
        apply rules_of_bounds in H2.
        apply andb_prop in H1. destruct H1 as [H1 _].
        apply andb_prop in H1. destruct H1 as [Hw Hi].
        apply Nat.eqb_eq in Hw, Hi. lia.
      * intros [H1 H2]. apply existsb_rule in H2.
        apply rules_of_bounds in H2.
        apply andb_prop in H1. destruct H1 as [H1 _].
        apply andb_prop in H1. destruct H1 as [Hw Hi].
        apply Nat.eqb_eq in Hw, Hi. lia.
      * intros [H1 H2]. apply existsb_rule in H1, H2.
        apply rules_of_bounds in H1, H2. lia.
    + rewrite zsum_plus, zsum_plus.
      rewrite <- !Z.add_assoc. f_equal.
      rewrite (@zsum_single _ n (CKY.leaves l + CKY.leaves r - 2)
                 (Z.of_nat (if hit then 1 else 0))); [reflexivity|lia| |].
      * rewrite (@zsum_single _ n s (Z.of_nat (if hit then 1 else 0)));
          [reflexivity|lia| |].
        -- rewrite !Nat.eqb_refl. cbn [andb]. now destruct hit.
        -- intros i Hi Hne.
           replace (i =? s) with false by (symmetry; apply Nat.eqb_neq; lia).
           now rewrite Bool.andb_false_r.
      * intros w Hw Hne. apply zsum_zero. intros i _.
        replace (w =? CKY.leaves l + CKY.leaves r - 2) with false
          by (symmetry; apply Nat.eqb_neq; lia).
        reflexivity.
Qed.

Local Open Scope R_scope.

Lemma rsum3_ext (na ns : nat) (f g : nat -> nat -> nat -> R) :
  (forall a y z, (a < na)%nat -> (y < ns)%nat -> (z < ns)%nat ->
     f a y z = g a y z) ->
  rsum3 na ns f = rsum3 na ns g.
Proof.
  intros H. unfold rsum3.
  apply rsum_ext. intros a Ha. apply in_seq in Ha.
  apply rsum_ext. intros y Hy. apply in_seq in Hy.
  apply rsum_ext. intros z Hz. apply in_seq in Hz.
  apply H; lia.
Qed.

Lemma rsum3_plus (na ns : nat) (f g : nat -> nat -> nat -> R) :
  rsum3 na ns (fun a y z => f a y z + g a y z)
  = rsum3 na ns f + rsum3 na ns g.
Proof.
  unfold rsum3. rewrite <- rsum_plus.
  apply rsum_ext. intros a _. rewrite <- rsum_plus.
  apply rsum_ext. intros y _. apply rsum_plus.
Qed.

Lemma rsum3_zero (na ns : nat) (f : nat -> nat -> nat -> R) :
  (forall a y z, f a y z = 0) -> rsum3 na ns f = 0.
Proof.
  intros H. unfold rsum3.
  apply rsum_zero. intros a _. apply rsum_zero. intros y _.
  apply rsum_zero. intros z _. apply H.
Qed.

Lemma rsum3_single (na ns a0 y0 z0 : nat) (g : nat -> nat -> nat -> R) :
  (a0 < na)%nat -> (y0 < ns)%nat -> (z0 < ns)%nat ->
  rsum3 na ns
    (fun a y z =>
       (if (a0 =? a) && (y0 =? y) && (z0 =? z) then 1 else 0) * g a y z)
  = g a0 y0 z0.
Proof.
  intros Ha Hy Hz. unfold rsum3.
  rewrite (@rsum_single _ 0 na a0); [|lia|].
  - rewrite (@rsum_single _ 0 ns y0); [|lia|].
    + rewrite (@rsum_single _ 0 ns z0); [|lia|].
      * rewrite !Nat.eqb_refl. simpl. lra.
      * intros z Hz' Hne.
        replace (z0 =? z) with false by (symmetry; apply Nat.eqb_neq; lia).
        rewrite Bool.andb_false_r. lra.
    + intros y Hy' Hne. apply rsum_zero. intros z _.
      replace (y0 =? y) with false by (symmetry; apply Nat.eqb_neq; lia).
      rewrite Bool.andb_false_r. simpl. lra.
  - intros a Ha' Hne. apply rsum_zero. intros y _. apply rsum_zero.
    intros z _.
    replace (a0 =? a) with false by (symmetry; apply Nat.eqb_neq; lia).
    simpl. lra.
Qed.

Lemma rule_part_score (nt t : nat) (rules : nat -> nat -> nat -> R)
  (tr : CKY.tree) :
  CKY.well_formed nt t tr ->
  rsum3 nt (nt + t)
    (fun a y z => IZR (Z.of_nat (rule_uses nt a y z tr)) * rules a y z)
  = rule_score nt rules tr.
Proof.
  induction tr as [x|a0 l IHl r IHr]; intros Hwf.
  - simpl. apply rsum3_zero. intros. lra.
  - simpl in Hwf. destruct Hwf as (Ha0 & Hl & Hr).
    cbn [rule_uses rule_score]. rewrite <- (IHl Hl), <- (IHr Hr).
    rewrite <- (@rsum3_single nt (nt + t) a0 (CKY.label nt l)
                  (CKY.label nt r) rules Ha0
                  (@label_bound nt t l Hl) (@label_bound nt t r Hr)).
    rewrite <- !rsum3_plus. apply rsum3_ext. intros a y z _ _ _.
    rewrite !Nat2Z.inj_add, !plus_IZR.
    destruct ((a0 =? a) && (CKY.label nt l =? y) && (CKY.label nt r =? z));
      simpl; lra.
Qed.

(** X17: for real potentials with a batch of one and the parts of a
    well-formed tree with at most [N] leaves, [score] returns, for batch
    element [0], the sum of the terminal scores of the leaves, the rule
    scores of the nodes and the root score of the root label (none for
    a tree that is a single leaf). *)
Theorem score_of_tree_parts (sc : CKY.potentials (K := R)) (tr : CKY.tree) :
  CKY.batch sc = 1%nat ->
  CKY.well_formed (CKY.NT sc) (CKY.T sc) tr ->
  (CKY.leaves tr <= CKY.N sc)%nat ->
  exists v,
    CKY.score sc (CKY.tree_parts (CKY.NT sc) (CKY.T sc) (CKY.N sc) tr) = Ok v
    /\ v 0%nat = tree_score sc 0 tr.
Proof.
  intros Hb Hwf Hn. unfold CKY.score, CKY.tree_parts. cbn [CKY.shape].
  rewrite Hb.
  destruct (list_eq_dec Nat.eq_dec [1%nat; CKY.N sc; CKY.T sc]
              [1%nat; CKY.N sc; CKY.T sc]) as [_|Hne]; [|congruence].
  cbn [bind].
  destruct (list_eq_dec Nat.eq_dec
              [1%nat; CKY.NT sc; (CKY.NT sc + CKY.T sc)%nat;
               (CKY.NT sc + CKY.T sc)%nat]
              [1%nat; CKY.NT sc; (CKY.NT sc + CKY.T sc)%nat;
               (CKY.NT sc + CKY.T sc)%nat]) as [_|Hne]; [|congruence].
  cbn [bind].
  destruct (list_eq_dec Nat.eq_dec [1%nat; CKY.NT sc] [1%nat; CKY.NT sc])
    as [_|Hne]; [|congruence].
  cbn [bind]. eexists. split; [reflexivity|].
  cbn beta. unfold tree_score. cbn [CKY.data]. f_equal; [f_equal|].
  - apply (@term_part_score (CKY.NT sc) (CKY.T sc) (CKY.N sc)
             (CKY.terms sc 0%nat) tr Hwf Hn).
  - rewrite <- (@rule_part_score (CKY.NT sc) (CKY.T sc) (CKY.rules sc 0%nat)
                  tr Hwf).
    apply rsum3_ext. intros a y z _ _ _. f_equal. f_equal.
    unfold CKY.sum_positions. cbn [CKY.data].
    apply (@positions_count (CKY.NT sc) a y z tr 0 (CKY.N sc)). simpl. lia.
  - apply (@root_part_score (CKY.NT sc) (CKY.T sc) (CKY.roots sc 0%nat) tr Hwf).
Qed.

Lemma score_of_tree_parts_witness :
  exists v,
    CKY.score (constant_scores 1 4 2 2 1)
      (CKY.tree_parts 2 2 4 example_tree) = Ok v
    /\ v 0%nat = tree_score (constant_scores 1 4 2 2 1) 0 example_tree.
Proof.
  apply (@score_of_tree_parts (constant_scores 1 4 2 2 1) example_tree);
    simpl; try lia; reflexivity.
Defined.

Local Close Scope R_scope.

(** *** [_intermediary] *)

Lemma in_nonzero_rows (spans : CKY.tensor) (batch n1 n2 s : nat)
  (row : list nat) :
  CKY.shape spans = [batch; n1; n2; s] ->
  (In row (CKY.nonzero_rows spans)
   <-> exists b i j a, row = [b; i; j; a] /\ labelled4 spans b i j a).
Proof.
  intros Hs. unfold CKY.nonzero_rows, labelled4. rewrite Hs.
  rewrite filter_In. cbn [CKY.indices].
  split.
  - intros [Hin Hd].
    apply in_flat_map in Hin. destruct Hin as (b & Hb & Hin).
    apply in_map_iff in Hin. destruct Hin as (r1 & <- & Hin).
    apply in_flat_map in Hin. destruct Hin as (i & Hi & Hin).
    apply in_map_iff in Hin. destruct Hin as (r2 & <- & Hin).
    apply in_flat_map in Hin. destruct Hin as (j & Hj & Hin).
    apply in_map_iff in Hin. destruct Hin as (r3 & <- & Hin).
    apply in_flat_map in Hin. destruct Hin as (a & Ha & Hin).
    apply in_map_iff in Hin. destruct Hin as (r4 & <- & Hin).
    destruct Hin as [<-|[]].
    apply in_seq in Hb, Hi, Hj, Ha.
    exists b, i, j, a. split; [reflexivity|].
    repeat split; try lia.
    all: apply Bool.negb_true_iff in Hd; apply Z.eqb_neq in Hd; exact Hd.
  - intros (b & i & j & a & -> & Hb & Hi & Hj & Ha & Hd). split.
    + apply in_flat_map. exists b. split; [apply in_seq; lia|].
      apply in_map. apply in_flat_map. exists i. split; [apply in_seq; lia|].
      apply in_map. apply in_flat_map. exists j. split; [apply in_seq; lia|].
      apply in_map. apply in_flat_map. exists a. split; [apply in_seq; lia|].
      now left.
    + apply Bool.negb_true_iff. now apply Z.eqb_neq.
Qed.

Lemma in_left_rows (cover : list (list nat)) (b i a k : nat) (w : Z) :
  In (a, k, w) (left_rows cover b i)
  <-> In [b; i; k; a] cover /\ w = (Z.of_nat k - Z.of_nat i + 1)%Z.
Proof.
  unfold left_rows. rewrite in_flat_map. split.
  - intros (row & Hin & H).
    destruct row as [|b' [|i' [|j [|a' [|x r]]]]]; try destruct H.
    destruct ((b' =? b) && (i' =? i)) eqn:E; [|destruct H].
    apply andb_prop in E. destruct E as [Eb Ei].
    apply Nat.eqb_eq in Eb, Ei. subst b' i'.
    destruct H as [H|[]]. injection H as <- <- <-. auto.
  - intros [Hin ->]. exists [b; i; k; a]. split; [exact Hin|].
    rewrite !Nat.eqb_refl. now left.
Qed.

Lemma in_right_rows (cover : list (list nat)) (b j a k : nat) (w : Z) :
  In (a, k, w) (right_rows cover b j)
  <-> In [b; k; j; a] cover /\ w = (Z.of_nat j - Z.of_nat k + 1)%Z.
Proof.
  unfold right_rows. rewrite in_flat_map. split.
  - intros (row & Hin & H).
    destruct row as [|b' [|i' [|j' [|a' [|x r]]]]]; try destruct H.
    destruct ((b' =? b) && (j' =? j)) eqn:E; [|destruct H].
    apply andb_prop in E. destruct E as [Eb Ej].
    apply Nat.eqb_eq in Eb, Ej. subst b' j'.
    destruct H as [H|[]]. injection H as <- <- <-. auto.
  - intros [Hin ->]. exists [b; k; j; a]. split; [exact Hin|].
    rewrite !Nat.eqb_refl. now left.
Qed.

Lemma intermediary_left_right_ok (cover : list (list nat)) :
  (forall row, In row cover -> exists b i j a, row = [b; i; j; a]) ->
  exists lf rt,
    CKY.intermediary_left_right cover = Ok (lf, rt)
    /\ (forall b i, lf b i = left_rows cover b i)
    /\ (forall b j, rt b j = right_rows cover b j).
Proof.
  unfold CKY.intermediary_left_right.
  assert (G : forall (l0 r0 : CKY.pair_dict),
             (forall row, In row cover -> exists b i j a, row = [b; i; j; a]) ->
             exists lf rt,
               fold_left
                 (fun acc row =>
                    lr <- acc ;;
                    let '(left_, right_) := lr in
                    r <- CKY.unpack4 row ;;
                    let '(b, i, j, a) := r in
                    let width := (Z.of_nat j - Z.of_nat i + 1)%Z in
                    Ok (CKY.append_key left_ b i (a, j, width),
                        CKY.append_key right_ b j (a, i, width)))
                 cover (Ok (l0, r0)) = Ok (lf, rt)
               /\ (forall b i, lf b i = l0 b i ++ left_rows cover b i)
               /\ (forall b j, rt b j = r0 b j ++ right_rows cover b j)).
  { induction cover as [|row cover IH]; intros l0 r0 Hrows.
    - exists l0, r0. split; [reflexivity|].
      split; intros; simpl; now rewrite app_nil_r.
    - destruct (Hrows row (or_introl eq_refl)) as (b & i & j & a & ->).
      cbn [fold_left bind CKY.unpack4].
      destruct (IH (CKY.append_key l0 b i
                      (a, j, (Z.of_nat j - Z.of_nat i + 1)%Z))
                   (CKY.append_key r0 b j
                      (a, i, (Z.of_nat j - Z.of_nat i + 1)%Z)))
        as (lf & rt & E & Hl & Hr).
      { intros row Hrow. apply Hrows. now right. }
      exists lf, rt. split; [exact E|]. split.
      + intros b' i'. rewrite Hl. unfold CKY.append_key.
        cbn [left_rows flat_map].
        destruct ((b =? b') && (i =? i')) eqn:E1.
        * apply andb_prop in E1. destruct E1 as [Eb Ei].
          apply Nat.eqb_eq in Eb, Ei. subst b' i'.
          rewrite !Nat.eqb_refl. cbn [andb]. now rewrite <- app_assoc.
        * rewrite (Nat.eqb_sym b' b), (Nat.eqb_sym i' i), E1. reflexivity.
      + intros b' j'. rewrite Hr. unfold CKY.append_key.
        cbn [right_rows flat_map].
        destruct ((b =? b') && (j =? j')) eqn:E1.
        * apply andb_prop in E1. destruct E1 as [Eb Ej].
          apply Nat.eqb_eq in Eb, Ej. subst b' j'.
          rewrite !Nat.eqb_refl. cbn [andb]. now rewrite <- app_assoc.
        * rewrite (Nat.eqb_sym b' b), (Nat.eqb_sym j' j), E1. reflexivity. }
  intros Hrows. destruct (G (fun _ _ => []) (fun _ _ => []) Hrows)
    as (lf & rt & E & Hl & Hr).
  exists lf, rt. split; [exact E|]. split; intros; [apply Hl|apply Hr].
Qed.

Lemma first_split_some (j : nat) (width : Z) (ls rs : list CKY.entry)
  (k y z : nat) :
  CKY.first_split j width ls rs = Some (k, y, z) ->
  exists sa sb,
    In (y, k, sa) ls /\ k <= j /\ In (z, k + 1, sb) rs
    /\ (sa + sb = width)%Z.
Proof.
  induction ls as [|[[b_p k0] a_span] ls IH]; intros H; [discriminate|].
  cbn [CKY.first_split] in H.
  destruct (j <? k0) eqn:Ej.
  - destruct (IH H) as (sa & sb & H1 & H2). exists sa, sb.
    split; [now right|exact H2].
  - apply Nat.ltb_ge in Ej.
    destruct (find _ rs) as [[[c_p k2] bs]|] eqn:Ef.
    + injection H as <- <- <-. apply find_some in Ef.
      destruct Ef as [Hin Hb]. apply andb_prop in Hb. destruct Hb as [Hk Hw].
      apply Nat.eqb_eq in Hk. apply Z.eqb_eq in Hw. subst k2.
      exists a_span, bs. split; [now left|]. auto.
    + destruct (IH H) as (sa & sb & H1 & H2). exists sa, sb.
      split; [now right|exact H2].
Qed.

Lemma first_split_none (j : nat) (width : Z) (ls rs : list CKY.entry) :
  CKY.first_split j width ls rs = None ->
  forall k y z sa sb,
    In (y, k, sa) ls -> k <= j -> In (z, k + 1, sb) rs ->
    (sa + sb = width)%Z -> False.
Proof.
  induction ls as [|[[b_p k0] a_span] ls IH]; intros H k y z sa sb Hl Hk Hr Hw;
    [destruct Hl|].
  cbn [CKY.first_split] in H.
  destruct Hl as [Hl|Hl].
  - injection Hl as -> -> ->.
    replace (j <? k) with false in H by (symmetry; apply Nat.ltb_ge; lia).
    destruct (find _ rs) as [[[c_p k2] bs]|] eqn:Ef; [discriminate|].
    apply (find_none _ _ Ef) in Hr. cbn beta iota in Hr.
    rewrite Nat.eqb_refl in Hr. cbn [andb] in Hr.
    apply Z.eqb_neq in Hr. contradiction.
  - destruct (j <? k0); [eapply IH; eauto|].
    destruct (find _ rs) as [[[c_p k2] bs]|]; [discriminate|].
    eapply IH; eauto.
Qed.

Lemma dict_get_set_same (d : CKY.splits_dict) (key v : nat * nat * nat) :
  CKY.dict_get (CKY.dict_set d key v) key = Some v.
Proof.
  unfold CKY.dict_get.
  induction d as [|[key' v'] d IH]; cbn [CKY.dict_set].
  - cbn [find fst]. replace (CKY.triple_eqb key key) with true; [reflexivity|].
    symmetry. now apply triple_eqb_spec.
  - destruct (CKY.triple_eqb key' key) eqn:E; cbn [find fst]; rewrite E.
    + reflexivity.
    + exact IH.
Qed.

Lemma dict_get_set_other (d : CKY.splits_dict) (key key' v : nat * nat * nat) :
  key' <> key ->
  CKY.dict_get (CKY.dict_set d key v) key' = CKY.dict_get d key'.
Proof.
  intros Hne. unfold CKY.dict_get.
  induction d as [|[k0 v0] d IH]; cbn [CKY.dict_set].
  - cbn [find fst].
    replace (CKY.triple_eqb key key') with false; [reflexivity|].
    symmetry. apply Bool.not_true_is_false. intros H.
    apply triple_eqb_spec in H. congruence.
  - destruct (CKY.triple_eqb k0 key) eqn:E; cbn [find fst].
    + apply triple_eqb_spec in E. subst k0.
      replace (CKY.triple_eqb key key') with false; [reflexivity|].
      symmetry. apply Bool.not_true_is_false. intros H.
      apply triple_eqb_spec in H. congruence.
    + destruct (CKY.triple_eqb k0 key'); [reflexivity|exact IH].
Qed.

Section IntermediaryLoop.
Variables lf rt : CKY.pair_dict.

Local Abbreviation FS b i j :=
  (CKY.first_split j%nat (Z.of_nat j%nat - Z.of_nat i%nat + 1)
     (lf b%nat i%nat) (rt b%nat j%nat)).

Local Abbreviation body :=
  (fun (acc : result CKY.splits_dict) (row : list nat) =>
     splits <- acc ;;
     r <- CKY.unpack4 row ;;
     let '(b, i, j, a) := r in
     if i =? j then Ok splits
     else
       match FS b i j with
       | None => Raise AssertionError
       | Some kbc => Ok (CKY.dict_set splits (b, i, j) kbc)
       end).

Lemma intermediary_loop_cases (rows : list (list nat)) :
  (forall row, In row rows -> exists b i j a, row = [b; i; j; a]) ->
  forall d0,
    (exists d,
        fold_left body rows (Ok d0) = Ok d
        /\ (forall b i j a, In [b; i; j; a] rows -> i <> j -> FS b i j <> None)
        /\ (forall key v,
              CKY.dict_get d key = Some v ->
              CKY.dict_get d0 key = Some v
              \/ exists b i j a,
                   key = (b, i, j) /\ In [b; i; j; a] rows /\ i <> j
                   /\ FS b i j = Some v)
        /\ (forall key,
              (CKY.dict_get d0 key <> None
               \/ exists b i j a,
                    key = (b, i, j) /\ In [b; i; j; a] rows /\ i <> j) ->
              CKY.dict_get d key <> None))
    \/ (fold_left body rows (Ok d0) = Raise AssertionError
        /\ exists b i j a, In [b; i; j; a] rows /\ i <> j /\ FS b i j = None).
Proof.
  induction rows as [|row rows IH]; intros Hrows d0.
  - left. exists d0. split; [reflexivity|]. split; [intros ? ? ? ? []|].
    split; [auto|]. intros key [H|(b & i & j & a & _ & [] & _)]. exact H.
  - destruct (Hrows row (or_introl eq_refl)) as (b & i & j & a & ->).
    assert (Hrows' : forall row, In row rows ->
                                 exists b i j a, row = [b; i; j; a]).
    { intros row Hrow. apply Hrows. now right. }
    cbn [fold_left bind CKY.unpack4].
    destruct (Nat.eqb_spec i j) as [Eij|Eij].
    + destruct (IH Hrows' d0) as [(d & E & Hfs & Hs & Hc)|(E & Hbad)].
      * left. exists d. split; [exact E|]. split; [|split].
        -- intros b' i' j' a' [H|H] Hne; [injection H as <- <- <- <-; lia|].
           eapply Hfs; eauto.
        -- intros key v Hg. destruct (Hs key v Hg) as [H|H]; [now left|].
           right. destruct H as (b' & i' & j' & a' & H1 & H2 & H3).
           exists b', i', j', a'. split; [exact H1|]. split; [now right|exact H3].
        -- intros key [H|(b' & i' & j' & a' & H1 & [H2|H2] & H3)].
           ++ apply Hc. now left.
           ++ injection H2 as <- <- <- <-. lia.
           ++ apply Hc. right. exists b', i', j', a'. auto.
      * right. split; [exact E|].
        destruct Hbad as (b' & i' & j' & a' & H1 & H2).
        exists b', i', j', a'. split; [now right|exact H2].
    + destruct (FS b i j) as [kbc|] eqn:Efs.
      * destruct (IH Hrows' (CKY.dict_set d0 (b, i, j) kbc))
          as [(d & E & Hfs & Hs & Hc)|(E & Hbad)].
        -- left. exists d. split; [exact E|]. split; [|split].
           ++ intros b' i' j' a' [H|H] Hne.
              ** injection H as <- <- <- <-. rewrite Efs. discriminate.
              ** eapply Hfs; eauto.
           ++ intros key v Hg. destruct (Hs key v Hg) as [H|H].
              ** destruct (list_eq_dec Nat.eq_dec
                             [fst (fst key); snd (fst key); snd key] [b; i; j])
                   as [Ek|Ek].
                 --- destruct key as [[kb ki] kj]. cbn [fst snd] in Ek.
                     injection Ek as -> -> ->.
                     rewrite dict_get_set_same in H. injection H as <-.
                     right. exists b, i, j, a.
                     split; [reflexivity|]. split; [now left|]. auto.
                 --- rewrite dict_get_set_other in H.
                     +++ now left.
                     +++ intros ->. apply Ek. reflexivity.
              ** right. destruct H as (b' & i' & j' & a' & H1 & H2 & H3).
                 exists b', i', j', a'.
                 split; [exact H1|]. split; [now right|exact H3].
           ++ intros key [H|(b' & i' & j' & a' & H1 & [H2|H2] & H3)].
              ** apply Hc. left.
                 destruct (list_eq_dec Nat.eq_dec
                             [fst (fst key); snd (fst key); snd key] [b; i; j])
                   as [Ek|Ek].
                 --- destruct key as [[kb ki] kj]. cbn [fst snd] in Ek.
                     injection Ek as -> -> ->.
                     rewrite dict_get_set_same. discriminate.
                 --- rewrite dict_get_set_other; [exact H|].
                     intros ->. apply Ek. reflexivity.
              ** injection H2 as <- <- <- <-. apply Hc. left. subst key.
                 rewrite dict_get_set_same. discriminate.
              ** apply Hc. right. exists b', i', j', a'. auto.
        -- right. split; [exact E|].
           destruct Hbad as (b' & i' & j' & a' & H1 & H2).
           exists b', i', j', a'. split; [now right|exact H2].
      * right. split.
        -- apply fold_left_raise. reflexivity.
        -- exists b, i, j, a. split; [now left|]. auto.
Qed.
End IntermediaryLoop.

Section IntermediaryCover.
Variable spans : CKY.tensor.
Variables batch n1 n2 s : nat.
Hypothesis Hshape : CKY.shape spans = [batch; n1; n2; s].

Local Abbreviation cover := (CKY.nonzero_rows spans).

Lemma in_cover4 (b i j a : nat) :
  In [b; i; j; a] cover <-> labelled4 spans b i j a.
Proof.
  rewrite (@in_nonzero_rows spans batch n1 n2 s _ Hshape). split.
  - intros (b' & i' & j' & a' & E & H). now injection E as -> -> -> ->.
  - intros H. exists b, i, j, a. auto.
Qed.

Lemma first_split_cover (b i j k y z : nat) :
  CKY.first_split j (Z.of_nat j - Z.of_nat i + 1)
    (left_rows cover b i) (right_rows cover b j) = Some (k, y, z) ->
  k <= j /\ labelled4 spans b i k y /\ labelled4 spans b (k + 1) j z.
Proof.
  intros H. apply first_split_some in H.
  destruct H as (sa & sb & Hl & Hk & Hr & _).
  apply in_left_rows in Hl. apply in_right_rows in Hr.
  destruct Hl as [Hl _], Hr as [Hr _].
  apply in_cover4 in Hl, Hr. auto.
Qed.

Lemma first_split_none_cover (b i j : nat) :
  CKY.first_split j (Z.of_nat j - Z.of_nat i + 1)
    (left_rows cover b i) (right_rows cover b j) = None
  <-> ~ splits_within spans b i j.
Proof.
  split.
  - intros H (k & y & z & Hk & Hy & Hz).
    apply in_cover4 in Hy, Hz.
    apply (@first_split_none _ _ _ _ H k y z
             (Z.of_nat k - Z.of_nat i + 1)%Z
             (Z.of_nat j - Z.of_nat (k + 1) + 1)%Z).
    + apply in_left_rows. auto.
    + exact Hk.
    + apply in_right_rows. auto.
    + lia.
  - intros Hn.
    destruct (CKY.first_split _ _ _ _) as [[[k y] z]|] eqn:E;
      [|reflexivity].
    exfalso. apply Hn. apply first_split_cover in E.
    exists k, y, z. exact E.
Qed.

(** What [_intermediary] does on a labelling with four axes. *)
Lemma intermediary_cases :
  (exists d,
      CKY._intermediary spans = Ok d
      /\ (forall b i j a, labelled4 spans b i j a -> i <> j ->
            splits_within spans b i j)
      /\ (forall b i j k y z,
            CKY.dict_get d (b, i, j) = Some (k, y, z) ->
            i <> j /\ (exists a, labelled4 spans b i j a)
            /\ k <= j /\ labelled4 spans b i k y
            /\ labelled4 spans b (k + 1) j z)
      /\ (forall b i j a, labelled4 spans b i j a -> i <> j ->
            CKY.dict_get d (b, i, j) <> None))
  \/ (CKY._intermediary spans = Raise AssertionError
      /\ exists b i j a,
           labelled4 spans b i j a /\ i <> j /\ ~ splits_within spans b i j).
Proof.
  unfold CKY._intermediary. rewrite Hshape. cbn [bind].
  assert (Hrows : forall row, In row cover ->
                              exists b i j a, row = [b; i; j; a]).
  { intros row H. apply (@in_nonzero_rows spans batch n1 n2 s _ Hshape) in H.
    destruct H as (b & i & j & a & E & _). eauto. }
  destruct (@intermediary_left_right_ok cover Hrows) as (lf & rt & Elr & Hlf & Hrt).
  rewrite Elr. cbn [bind].
  destruct (@intermediary_loop_cases lf rt cover Hrows [])
    as [(d & E & Hfs & Hs & Hc)|(E & b & i & j & a & Hin & Hne & Hnone)].
  - left. exists d. split; [exact E|]. split; [|split].
    + intros b i j a Hl Hne. apply in_cover4 in Hl.
      specialize (Hfs b i j a Hl Hne). rewrite Hlf, Hrt in Hfs.
      destruct (CKY.first_split _ _ _ _) as [[[k y] z]|] eqn:Ef;
        [|congruence].
      apply first_split_cover in Ef. exists k, y, z. exact Ef.
    + intros b i j k y z Hg.
      destruct (Hs _ _ Hg) as [H|(b' & i' & j' & a' & Ek & Hin & Hne & Hf)];
        [discriminate|].
      injection Ek as <- <- <-. rewrite Hlf, Hrt in Hf.
      apply first_split_cover in Hf. apply in_cover4 in Hin.
      split; [exact Hne|]. split; [eauto|exact Hf].
    + intros b i j a Hl Hne. apply Hc. right. apply in_cover4 in Hl.
      exists b, i, j, a. auto.
  - right. split; [exact E|]. exists b, i, j, a.
    apply in_cover4 in Hin. split; [exact Hin|]. split; [exact Hne|].
    apply first_split_none_cover. now rewrite <- Hlf, <- Hrt.
Qed.
End IntermediaryCover.

(** X18: on a labelling with four axes [_intermediary] raises
    [AssertionError] exactly when some non-zero entry [(b, i, j, A)] with
    [i <> j] has no split point [k <= j] with non-zero entries
    [(b, i, k, B)] and [(b, k + 1, j, C)]; in every other case it returns
    a dictionary. *)
Theorem intermediary_fails_iff_unsplit (spans : CKY.tensor) (batch n1 n2 s : nat) :
  CKY.shape spans = [batch; n1; n2; s] ->
  (CKY._intermediary spans = Raise AssertionError
   <-> exists b i j a,
         labelled4 spans b i j a /\ i <> j /\ ~ splits_within spans b i j)
  /\ (CKY._intermediary spans <> Raise AssertionError ->
      exists d, CKY._intermediary spans = Ok d).
Proof.
  intros Hs.
  destruct (@intermediary_cases _ _ _ _ _ Hs)
    as [(d & E & Hsp & _)|(E & Hbad)]; rewrite E.
  - split.
    + split; [discriminate|].
      intros (b & i & j & a & Hl & Hne & Hn). exfalso. apply Hn.
      eapply Hsp; eauto.
    + intros _. eauto.
  - split.
    + split; [intros _; exact Hbad|reflexivity].
    + intros H. congruence.
Qed.

Lemma labelled4_dense (nt t n : nat) (tr : CKY.tree) (b i j a : nat) :
  CKY.well_formed nt t tr -> CKY.leaves tr <= n ->
  (labelled4 (CKY.dense_labels nt t n tr) b i j a
   <-> b = 0 /\ In (i, j, a) (CKY.spans_of nt 0 tr)).
Proof.
  intros Hwf Hn. unfold labelled4. cbn [CKY.shape CKY.dense_labels].
  rewrite dense_labelled. split.
  - intros (Hb & _ & _ & _ & H). split; [lia|exact H].
  - intros [-> H].
    pose proof (@spans_of_bounds nt tr 0 i j a H).
    pose proof (@spans_of_labels nt t tr Hwf 0 i j a H).
    repeat split; try lia. exact H.
Qed.

(** X19: on the dense labelling of a well-formed tree [_intermediary]
    returns a dictionary.  Every value [(k, B, C)] stored under a key
    [(b, i, j)] has [b = 0], [i <= k < j], the spans [(i, k)] labelled [B]
    and [(k + 1, j)] labelled [C] in the tree, and [A -> B C] applied at
    the node that covers [(i, j)]; and every rule application of the tree
    over a span [(i, i + w + 1)] is found under the key of that span, with
    the labels of its two children. *)
Theorem intermediary_of_tree (nt t n : nat) (tr : CKY.tree) :
  CKY.well_formed nt t tr -> CKY.leaves tr <= n ->
  exists d,
    CKY._intermediary (CKY.dense_labels nt t n tr) = Ok d
    /\ (forall b i j k y z,
          CKY.dict_get d (b, i, j) = Some (k, y, z) ->
          b = 0 /\ i <= k < j
          /\ In (i, k, y) (CKY.spans_of nt 0 tr)
          /\ In (k + 1, j, z) (CKY.spans_of nt 0 tr)
          /\ exists a, In (j - i - 1, i, a, y, z) (CKY.rules_of nt 0 tr))
    /\ (forall w i a y z,
          In (w, i, a, y, z) (CKY.rules_of nt 0 tr) ->
          exists k, CKY.dict_get d (0, i, i + w + 1) = Some (k, y, z)).
Proof.
  intros Hwf Hn.
  assert (Hs : CKY.shape (CKY.dense_labels nt t n tr) = [1; n; n; nt + t])
    by reflexivity.
  assert (Sound : forall b i j k y z,
             (i <> j /\ (exists a, labelled4 (CKY.dense_labels nt t n tr) b i j a)
              /\ k <= j /\ labelled4 (CKY.dense_labels nt t n tr) b i k y
              /\ labelled4 (CKY.dense_labels nt t n tr) b (k + 1) j z) ->
             b = 0 /\ i <= k < j
             /\ In (i, k, y) (CKY.spans_of nt 0 tr)
             /\ In (k + 1, j, z) (CKY.spans_of nt 0 tr)
             /\ exists a, In (j - i - 1, i, a, y, z) (CKY.rules_of nt 0 tr)).
  { intros b i j k y z (Hne & (a & Ha) & Hk & Hy & Hz).
    apply (@labelled4_dense _ _ _ _ _ _ _ _ Hwf Hn) in Ha, Hy, Hz.
    destruct Ha as [-> Ha], Hy as [_ Hy], Hz as [_ Hz].
    pose proof (@spans_of_bounds nt tr 0 _ _ _ Hy).
    pose proof (@spans_of_bounds nt tr 0 _ _ _ Hz).
    split; [reflexivity|]. split; [lia|]. split; [exact Hy|].
    split; [exact Hz|]. exists a. eapply tree_split_is_rule; eauto. }
  destruct (@intermediary_cases _ _ _ _ _ Hs)
    as [(d & E & _ & Hget & Hkey)
       |(_ & b & i & j & a & Hl & Hne & Hbad)].
  - exists d. split; [exact E|]. split.
    + intros b i j k y z Hg.
      apply (Sound b i j k y z (Hget _ _ _ _ _ _ Hg)).
    + intros w i a y z Hr.
      assert (Hl : labelled4 (CKY.dense_labels nt t n tr) 0 i (i + w + 1) a).
      { apply (@labelled4_dense _ _ _ _ _ _ _ _ Hwf Hn). split; [reflexivity|].
        apply (@rules_of_in_spans nt t tr Hwf 0 w i a y z Hr). }
      destruct (CKY.dict_get d (0, i, i + w + 1)) as [[[k y'] z']|] eqn:Eg.
      2:{ exfalso. apply (Hkey _ _ _ _ Hl); [lia|exact Eg]. }
      destruct (Sound 0 i (i + w + 1) k y' z' (Hget _ _ _ _ _ _ Eg))
        as (_ & _ & _ & _ & a' & Hr').
      replace (i + w + 1 - i - 1) with w in Hr' by lia.
      destruct (@rules_of_unique nt tr 0 _ _ _ _ _ _ _ _ Hr Hr')
        as (_ & -> & ->).
      exists k. reflexivity.
  - exfalso. apply Hbad.
    apply (@labelled4_dense _ _ _ _ _ _ _ _ Hwf Hn) in Hl. destruct Hl as [-> Hl].
    pose proof (@spans_of_bounds nt tr 0 _ _ _ Hl).
    destruct (@spans_of_split nt tr 0 i j a Hl ltac:(lia))
      as (k & y & z & Hy & Hz).
    pose proof (@spans_of_bounds nt tr 0 _ _ _ Hz).
    exists k, y, z. split; [lia|].
    split; apply (@labelled4_dense _ _ _ _ _ _ _ _ Hwf Hn); auto.
Qed.

Lemma intermediary_fails_iff_unsplit_witness :
  (CKY._intermediary leafless = Raise AssertionError
   <-> exists b i j a,
         labelled4 leafless b i j a /\ i <> j /\ ~ splits_within leafless b i j)
  /\ (CKY._intermediary leafless <> Raise AssertionError ->
      exists d, CKY._intermediary leafless = Ok d).
Proof.
  apply (@intermediary_fails_iff_unsplit leafless 1 2 2 2). reflexivity.
Defined.

Lemma intermediary_of_tree_witness :
  exists d,
    CKY._intermediary (CKY.dense_labels 2 2 4 example_tree) = Ok d
    /\ (forall b i j k y z,
          CKY.dict_get d (b, i, j) = Some (k, y, z) ->
          b = 0 /\ i <= k < j
          /\ In (i, k, y) (CKY.spans_of 2 0 example_tree)
          /\ In (k + 1, j, z) (CKY.spans_of 2 0 example_tree)
          /\ exists a, In (j - i - 1, i, a, y, z) (CKY.rules_of 2 0 example_tree))
    /\ (forall w i a y z,
          In (w, i, a, y, z) (CKY.rules_of 2 0 example_tree) ->
          exists k, CKY.dict_get d (0, i, i + w + 1) = Some (k, y, z)).
Proof.
  apply (@intermediary_of_tree 2 2 4 example_tree); simpl; lia.
Defined.

(** *** [StructDistribution.sample] *)

Lemma div10_step (k : nat) :
  1 <= k ->
  (k mod 10 = 0 -> (k - 1) / 10 + 1 = k / 10)
  /\ (k mod 10 <> 0 -> (k - 1) / 10 = k / 10).
Proof.
  intros Hk.
  pose proof (Nat.div_mod_eq k 10) as E1.
  pose proof (Nat.div_mod_eq (k - 1) 10) as E2.
  pose proof (Nat.mod_upper_bound k 10 ltac:(lia)) as B1.
  pose proof (Nat.mod_upper_bound (k - 1) 10 ltac:(lia)) as B2.
  split; intros H; lia.
Qed.

Section SampleLoop.
Variables Draw Sample : Type.
Variable marginals : nat -> Draw.
Variable to_discrete : Draw -> nat -> Sample.

Local Abbreviation step :=
  (StructDistribution.sample_step marginals to_discrete).

(** The state of the loop after [k] passes. *)
Lemma sample_loop (k : nat) :
  fold_left step (seq 0 k) (Ok (None, 0, []))
  = Ok (match k with
        | O => None
        | S k' => Some (marginals (k' / 10))
        end,
        match k with
        | O => 0
        | S k' => k' / 10 + 1
        end,
        map (fun j => to_discrete (marginals (j / 10)) (j mod 10 + 1))
          (seq 0 k)).
Proof.
  induction k as [|k IH]; [reflexivity|].
  rewrite seq_S, fold_left_app, IH. cbn [fold_left plus].
  unfold StructDistribution.sample_step. cbn [bind].
  rewrite map_app. cbn [map].
  destruct k as [|k'].
  - reflexivity.
  - assert (Hk1 : 1 <= S k') by lia.
    destruct (@div10_step (S k') Hk1) as [D0 D1].
    replace (S k' - 1) with k' in D0, D1 by lia.
    destruct (Nat.eqb_spec (S k' mod 10) 0) as [E|E].
    + rewrite (D0 E). replace (S (S k' / 10)) with (S k' / 10 + 1) by lia.
      reflexivity.
    + rewrite (D1 E). reflexivity.
Qed.
End SampleLoop.

(** X20: [sample] fails its assertion unless [sample_shape] has exactly
    one entry, and [torch.stack] fails on [sample_shape = (0,)].  With
    [sample_shape = (n,)], [n >= 1], it returns [n] samples, and sample
    number [k] is [to_discrete] of the draw number [k // 10] with index
    [k % 10 + 1]: one call of [marginals] serves ten samples in a row. *)
Theorem sample_draws_in_batches (Draw Sample : Type)
  (marginals : nat -> Draw) (to_discrete : Draw -> nat -> Sample)
  (sample_shape : list nat) (n : nat) :
  (length sample_shape <> 1 ->
   StructDistribution.sample marginals to_discrete sample_shape
   = Raise AssertionError)
  /\ StructDistribution.sample marginals to_discrete [0] = Raise RuntimeError
  /\ (1 <= n ->
      exists samples,
        StructDistribution.sample marginals to_discrete [n] = Ok samples
        /\ length samples = n
        /\ forall k, k < n ->
             nth_error samples k
             = Some (to_discrete (marginals (k / 10)) (k mod 10 + 1))).
Proof.
  split; [|split].
  - intros H. unfold StructDistribution.sample.
    replace (length sample_shape =? 1) with false
      by (symmetry; now apply Nat.eqb_neq).
    reflexivity.
  - reflexivity.
  - intros Hn. unfold StructDistribution.sample. cbn [length Nat.eqb bind hd].
    unfold range. rewrite Nat.sub_0_r, sample_loop. cbn [bind].
    destruct n as [|n']; [lia|].
    set (f := fun j => to_discrete (marginals (j / 10)) (j mod 10 + 1)).
    destruct (map f (seq 0 (S n'))) as [|x l] eqn:E.
    { apply (f_equal (@length Sample)) in E.
      rewrite length_map, length_seq in E. discriminate. }
    exists (x :: l). split; [reflexivity|]. rewrite <- E. split.
    + now rewrite length_map, length_seq.
    + intros k Hk. rewrite nth_error_map.
      rewrite (nth_error_nth' _ 0) by (rewrite length_seq; lia).
      rewrite seq_nth by lia. reflexivity.
Qed.

Lemma sample_draws_in_batches_witness :
  (length (@nil nat) <> 1 ->
   StructDistribution.sample (fun c => c) (fun s i => (s, i)) []
   = Raise AssertionError)
  /\ StructDistribution.sample (fun c => c) (fun s i => (s, i)) [0]
     = Raise RuntimeError
  /\ (1 <= 12 ->
      exists samples,
        StructDistribution.sample (fun c => c) (fun s i => (s, i)) [12]
        = Ok samples
        /\ length samples = 12
        /\ forall k, k < 12 ->
             nth_error samples k = Some (k / 10, k mod 10 + 1)).
Proof.
  apply (@sample_draws_in_batches nat (nat * nat) (fun c => c)
           (fun s i => (s, i)) [] 12).
Defined.

(** *** The root marginals *)

Local Open Scope R_scope.

Lemma fold_lg_add_fin (f : nat -> lg) (tf : nat -> R) (l : list nat) :
  (forall b, In b l -> f b = Fin (tf b)) ->
  fold_right lg_add (Fin 0) (map f l) = Fin (CKY.rsum (map tf l)).
Proof.
  induction l as [|b l IH]; intros H; simpl; [reflexivity|].
  rewrite IH by (intros; apply H; now right).
  rewrite (H b) by now left. reflexivity.
Qed.

Lemma rsum_nonneg {A : Type} (f : A -> R) (l : list A) :
  (forall a, 0 <= f a) -> 0 <= CKY.rsum (map f l).
Proof.
  intros H. induction l as [|a l IH]; simpl; [lra|].
  fold (CKY.rsum (map f l)). pose proof (H a). lra.
Qed.

(** A sum in which one term is replaced. *)
Lemma rsum_replace (f : nat -> R) (n x : nat) (v : R) :
  (x < n)%nat ->
  CKY.rsum (map (fun k => if k =? x then v else f k) (seq 0 n))
  = CKY.rsum (map f (seq 0 n)) - f x + v.
Proof.
  intros Hx.
  transitivity
    (CKY.rsum (map (fun k => f k + (if k =? x then v - f x else 0))
                  (seq 0 n))).
  - apply rsum_ext. intros k _. destruct (Nat.eqb_spec k x) as [->|_]; lra.
  - rewrite rsum_plus.
    rewrite (@rsum_single (fun k => if k =? x then v - f x else 0) 0 n x).
    + rewrite Nat.eqb_refl. lra.
    + lia.
    + intros k _ Hne.
      replace (k =? x) with false by (symmetry; apply Nat.eqb_neq; lia).
      reflexivity.
Qed.

Lemma rsum_ge_term (f : nat -> R) (n x : nat) :
  (forall k, 0 <= f k) -> (x < n)%nat -> f x <= CKY.rsum (map f (seq 0 n)).
Proof.
  intros Hf Hx.
  pose proof (@rsum_replace f n x 0 Hx) as E.
  assert (0 <= CKY.rsum (map (fun k => if k =? x then 0 else f k) (seq 0 n))).
  { apply rsum_nonneg. intros k. destruct (k =? x); [lra|apply Hf]. }
  lra.
Qed.

Lemma rsum_scal {A : Type} (f : A -> R) (c : R) (l : list A) :
  CKY.rsum (map (fun a => f a * c) l) = CKY.rsum (map f l) * c.
Proof.
  induction l as [|a l IH]; simpl; [lra|].
  fold (CKY.rsum (map (fun a => f a * c) l)). fold (CKY.rsum (map f l)).
  rewrite IH. lra.
Qed.

Lemma expE_bump (eps : R) (a b : lg) :
  expE (lg_add (Autograd.bump eps a) b) = expE (lg_add a b) * exp eps.
Proof.
  destruct a as [|x], b as [|y]; simpl; try lra.
  rewrite <- exp_plus. f_equal. lra.
Qed.

Lemma lnE_pos (y : R) : 0 < y -> lnE y = Fin (ln y).
Proof.
  intros H. unfold lnE. destruct (Rle_dec y 0); [lra|reflexivity].
Qed.

Lemma lnE_fin (y t : R) : 0 <= y -> lnE y = Fin t -> 0 < y.
Proof.
  intros H. unfold lnE. destruct (Rle_dec y 0); [discriminate|lra].
Qed.

(** The slope at [0] of [ln (A + B * exp eps)]. *)
Lemma slope_log_sum (A B : R) :
  0 < A + B ->
  derivable_pt_lim (fun eps => ln (A + B * exp eps)) 0 (B / (A + B)).
Proof.
  intros Hpos.
  assert (D1 : derivable_pt_lim (fun eps => A + B * exp eps) 0 (0 + B * exp 0)).
  { apply (@derivable_pt_lim_pointwise
             (fct_cte A + mult_real_fct B exp)%F).
    - intros y. reflexivity.
    - apply derivable_pt_lim_plus; [apply derivable_pt_lim_const|].
      apply derivable_pt_lim_scal. apply derivable_pt_lim_exp. }
  assert (D2 : derivable_pt_lim ln (A + B * exp 0) (/ (A + B * exp 0))).
  { apply derivable_pt_lim_ln. rewrite exp_0. lra. }
  pose proof (derivable_pt_lim_comp _ _ _ _ _ D1 D2) as D.
  replace (B / (A + B)) with (/ (A + B * exp 0) * (0 + B * exp 0)).
  - apply (@derivable_pt_lim_pointwise
             (comp ln (fun eps => A + B * exp eps))); [|exact D].
    intros y. reflexivity.
  - rewrite exp_0. field. lra.
Qed.

Lemma slope_shifted_log_sum (C A B : R) :
  0 < A + B ->
  derivable_pt_lim (fun eps => C + ln (A + B * exp eps)) 0 (B / (A + B)).
Proof.
  intros Hpos.
  replace (B / (A + B)) with (0 + B / (A + B)) by lra.
  apply (@derivable_pt_lim_pointwise
           (fct_cte C + (fun eps => ln (A + B * exp eps)))%F).
  - intros y. reflexivity.
  - apply derivable_pt_lim_plus; [apply derivable_pt_lim_const|].
    now apply slope_log_sum.
Qed.

Lemma fold_lg_add_is_fin (f : nat -> lg) (l : list nat) (t : R) :
  fold_right lg_add (Fin 0) (map f l) = Fin t ->
  forall b, In b l -> exists t', f b = Fin t'.
Proof.
  revert t. induction l as [|a l IH]; intros t H b Hb; [destruct Hb|].
  cbn [map fold_right] in H.
  destruct (f a) as [|ta] eqn:Ea; [discriminate|].
  destruct (fold_right lg_add (Fin 0) (map f l)) as [|tl] eqn:El;
    [discriminate|].
  destruct Hb as [<-|Hb]; [eauto|]. eapply IH; eauto.
Qed.

(** The objective on a tape that only touches [top]. *)
Lemma objective_bump_top (sc : CKY.potentials (K := lg))
  (lengths : option (list Z)) (b x : nat) (eps : R) :
  Autograd.objective LogSemiring sc lengths (Autograd.bump_top b x eps)
  = (r <- CKY._dp (SR := LogSemiring) sc lengths ;;
     Ok (fold_right lg_add (Fin 0)
           (map (fun b' =>
                   semiring_dot (SR := LogSemiring) (CKY.NT sc)
                     (fun x' =>
                        if (b' =? b) && (x' =? x)
                        then Autograd.bump eps (CKY.top_out r b' x')
                        else CKY.top_out r b' x')
                     (fun x' => CKY.roots sc b' x'))
              (seq 0 (CKY.batch sc))))).
Proof.
  unfold Autograd.objective, CKY._dp, CKY._dp_on.
  destruct (py_index (CKY.N sc) (Z.of_nat (CKY.N sc) - 1)); [|reflexivity].
  cbn [bind].
  change (CKY.loop (SR := LogSemiring) sc (Autograd.bump_top b x eps))
    with (CKY.loop (SR := LogSemiring) sc (CKY.id_tape (K := lg))).
  cbn [CKY.on_term_use Autograd.bump_top CKY.id_tape].
  destruct (CKY.top_rows _ _ _) as [rows|]; [|reflexivity]. cbn [bind].
  destruct (CKY.stack_top _ _) as [top0|]; [|reflexivity]. cbn [bind].
  reflexivity.
Qed.

(** The total of one batch element when one entry of [top] is moved. *)
Lemma dot_bumped (tops roots : nat -> lg) (nt x : nat) (hit : bool) (eps : R) :
  semiring_dot (SR := LogSemiring) nt
    (fun x' => if hit && (x' =? x) then Autograd.bump eps (tops x') else tops x')
    roots
  = lnE (CKY.rsum
           (map (fun k =>
                   if hit && (k =? x)
                   then expE (lg_add (tops k) (roots k)) * exp eps
                   else expE (lg_add (tops k) (roots k)))
              (seq 0 nt))).
Proof.
  unfold semiring_dot. rewrite log_sum_fold. unfold log_sum_exp.
  f_equal. rewrite map_map. unfold CKY.rsum. f_equal.
  apply map_ext. intros k. cbn [times LogSemiring].
  destruct (hit && (k =? x)); [apply expE_bump|reflexivity].
Qed.

Lemma root_weight_nonneg (sc : CKY.potentials (K := lg)) (r : CKY.dp_out)
  (b x : nat) : 0 <= root_weight sc r b x.
Proof. apply expE_nonneg. Qed.

(** The gradient of the objective with respect to [top[b, x]]. *)
Lemma root_grad_value (sc : CKY.potentials (K := lg))
  (lengths : option (list Z)) (b x : nat) (g : R) :
  (b < CKY.batch sc)%nat -> (x < CKY.NT sc)%nat ->
  Autograd.grad
    (fun eps => Autograd.objective LogSemiring sc lengths
                  (Autograd.bump_top b x eps)) g ->
  exists r,
    CKY._dp (SR := LogSemiring) sc lengths = Ok r
    /\ 0 < root_mass sc r b
    /\ g = root_weight sc r b x / root_mass sc r b.
Proof.
  intros Hb Hx Hg.
  pose proof Hg as (h0 & E0 & _).
  assert (Eobj := fun eps => objective_bump_top sc lengths b x eps).
  destruct (CKY._dp (SR := LogSemiring) sc lengths) as [r|e] eqn:Edp.
  2:{ specialize (E0 0). rewrite Eobj in E0. discriminate. }
  cbn [bind] in Eobj. exists r. split; [reflexivity|].
  set (w := root_weight sc r) in *.
  set (S_ := root_mass sc r b).
  (* the totals at [eps = 0] are finite *)
  assert (Hfin : forall b', In b' (seq 0 (CKY.batch sc)) ->
             exists t',
               semiring_dot (SR := LogSemiring) (CKY.NT sc)
                 (fun x' =>
                    if (b' =? b) && (x' =? x)
                    then Autograd.bump 0 (CKY.top_out r b' x')
                    else CKY.top_out r b' x')
                 (fun x' => CKY.roots sc b' x') = Fin t').
  { specialize (E0 0). rewrite Eobj in E0. injection E0 as E0.
    intros b' Hb'.
    exact (@fold_lg_add_is_fin _ _ _ E0 b' Hb'). }
  assert (Hw : forall k, 0 <= w b k) by (intros; apply root_weight_nonneg).
  assert (Hrep : forall eps,
             CKY.rsum
               (map (fun k => if true && (k =? x) then w b k * exp eps else w b k)
                  (seq 0 (CKY.NT sc)))
             = S_ - w b x + w b x * exp eps).
  { intros eps.
    pose proof (@rsum_replace (w b) (CKY.NT sc) x (w b x * exp eps) Hx) as E.
    change (CKY.rsum (map (w b) (seq 0 (CKY.NT sc)))) with S_ in E.
    rewrite <- E. apply rsum_ext. intros k _. cbn [andb].
    destruct (Nat.eqb_spec k x) as [->|_]; reflexivity. }
  assert (Hle : w b x <= S_).
  { apply (@rsum_ge_term (w b) (CKY.NT sc) x Hw Hx). }
  assert (Hpos : 0 < S_).
  { destruct (Hfin b) as (t' & Et); [apply in_seq; lia|].
    rewrite Nat.eqb_refl in Et. rewrite dot_bumped in Et.
    change (lnE (CKY.rsum
                   (map (fun k => if true && (k =? x)
                                  then w b k * exp 0 else w b k)
                      (seq 0 (CKY.NT sc)))) = Fin t') in Et.
    rewrite (Hrep 0) in Et. rewrite exp_0 in Et.
    pose proof (Hw x). apply lnE_fin in Et; lra. }
  split; [exact Hpos|].
  (* the totals of the other batch elements *)
  set (c := fun b' : nat =>
              match
                semiring_dot (SR := LogSemiring) (CKY.NT sc) (CKY.top_out r b')
                  (fun x' => CKY.roots sc b' x')
              with
              | Fin t' => t'
              | NegInf => 0
              end).
  assert (Hc : forall b', In b' (seq 0 (CKY.batch sc)) -> b' <> b ->
             forall eps,
               semiring_dot (SR := LogSemiring) (CKY.NT sc)
                 (fun x' =>
                    if (b' =? b) && (x' =? x)
                    then Autograd.bump eps (CKY.top_out r b' x')
                    else CKY.top_out r b' x')
                 (fun x' => CKY.roots sc b' x') = Fin (c b')).
  { intros b' Hb' Hne eps. destruct (Hfin b' Hb') as (t' & Et).
    replace (b' =? b) with false in * by (symmetry; apply Nat.eqb_neq; lia).
    cbn [andb] in *. unfold c.
    change (fun x' => CKY.top_out r b' x') with (CKY.top_out r b') in Et.
    rewrite Et. exact Et. }
  apply (@grad_unique _ _ _ Hg).
  exists (fun eps =>
            CKY.rsum (map c (seq 0 (CKY.batch sc))) - c b
            + ln (S_ - w b x + w b x * exp eps)).
  split.
  - intros eps. rewrite Eobj. f_equal.
    rewrite <- (@rsum_replace c (CKY.batch sc) b
                  (ln (S_ - w b x + w b x * exp eps)) Hb).
    apply fold_lg_add_fin. intros b' Hb'. cbv beta.
    destruct (Nat.eqb_spec b' b) as [->|Hne].
    + rewrite dot_bumped.
      change (lnE (CKY.rsum
                     (map (fun k => if true && (k =? x)
                                    then w b k * exp eps else w b k)
                        (seq 0 (CKY.NT sc))))
              = Fin (ln (S_ - w b x + w b x * exp eps))).
      rewrite (Hrep eps). apply lnE_pos.
      pose proof (exp_pos eps). pose proof (Hw x).
      destruct (Req_dec (w b x) 0) as [E|E]; [rewrite E; lra|].
      assert (0 < w b x * exp eps) by (apply Rmult_lt_0_compat; lra).
      lra.
    + pose proof (Hc b' Hb' Hne eps) as E.
      replace (b' =? b) with false in E by (symmetry; apply Nat.eqb_neq; lia).
      exact E.
  - replace (w b x / S_) with (w b x / ((S_ - w b x) + w b x))
      by (f_equal; lra).
    apply (@slope_shifted_log_sum _ (S_ - w b x) (w b x)). lra.
Qed.

(** X21: under the Log semiring the root marginals of a batch element are
    the posterior over the root label: [root_marg[b, x]] is the weight
    [exp (top[b, x] + roots[b, x])] of [x] divided by the sum of these
    weights over all [x], and the root marginals of [b] sum to [1]. *)
Theorem root_marginals_are_posterior (sc : CKY.potentials (K := lg))
  (lengths : option (list Z)) (m : Autograd.marginals_out) (b : nat) :
  (1 <= CKY.NT sc)%nat -> (b < CKY.batch sc)%nat ->
  Autograd.marginals LogSemiring sc lengths m ->
  exists r,
    CKY._dp (SR := LogSemiring) sc lengths = Ok r
    /\ (forall x, (x < CKY.NT sc)%nat ->
          Autograd.root_marg m b x
          = root_weight sc r b x / root_mass sc r b)
    /\ CKY.rsum (map (Autograd.root_marg m b) (seq 0 (CKY.NT sc))) = 1.
Proof.
  intros Hnt Hb (_ & _ & _ & Hroot).
  destruct (@root_grad_value sc lengths b 0 _ Hb Hnt (Hroot b 0%nat Hb Hnt))
    as (r & Edp & Hpos & _).
  exists r. split; [exact Edp|].
  assert (Hval : forall x, (x < CKY.NT sc)%nat ->
             Autograd.root_marg m b x
             = root_weight sc r b x / root_mass sc r b).
  { intros x Hx.
    destruct (@root_grad_value sc lengths b x _ Hb Hx (Hroot b x Hb Hx))
      as (r' & Edp' & _ & E).
    rewrite Edp in Edp'. injection Edp' as <-. exact E. }
  split; [exact Hval|].
  rewrite (@rsum_ext _ (Autograd.root_marg m b)
             (fun x => root_weight sc r b x * / root_mass sc r b)).
  - rewrite rsum_scal. fold (root_mass sc r b). field. lra.
  - intros x Hx. apply in_seq in Hx. apply Hval. lia.
Qed.

Lemma root_marginals_are_posterior_witness :
  exists r,
    CKY._dp (SR := LogSemiring) (two_leaves 1) None = Ok r
    /\ (forall x, (x < CKY.NT (two_leaves 1))%nat ->
          Autograd.root_marg two_leaf_marginals 0 x
          = root_weight (two_leaves 1) r 0 x / root_mass (two_leaves 1) r 0)
    /\ CKY.rsum (map (Autograd.root_marg two_leaf_marginals 0)
                   (seq 0 (CKY.NT (two_leaves 1)))) = 1.
Proof.
  apply (@root_marginals_are_posterior (two_leaves 1) None
           two_leaf_marginals 0%nat); [simpl; lia|simpl; lia|].
  exact two_leaf_marginals_ok.
Defined.

Local Close Scope R_scope.
